(** * Camp management backend: sessions, roles, repository and schedule view

    A shallow embedding of [backend/models.py], [backend/auth.py] and
    [backend/mainoriginal.py].

    - A stored [datetime] (a [timestamptz] column) and the clock are instants,
      counted in microseconds: a [Z].  A [datetime] of a request body is
      either aware (an instant) or naive (a wall-clock reading); Python
      refuses to compare one with the other.
    - A nullable column or an [Optional] field is an [option].
    - A table is the list of its rows in insertion order together with the
      next value of its primary-key sequence.
    - The SQLAlchemy session [db] is the state of a small state-and-exception
      monad.  The state survives an exception: whatever was committed before
      [raise] stays committed.
    - [db.commit()] fails when a constraint declared in [models.py] is violated
      ([IntegrityError]) or when the storage engine refuses the transaction
      ([OperationalError]); the second kind is driven by the [faults] of the
      session, one flag per commit attempt.
    - The length of the [String(255)] columns of [group_events] is checked at
      the commit ([DataError]); a refusal of the storage engine for any other
      reason is one of the [faults].
    - An exception that is no [HTTPException] is answered with status 500.
    - The column [created_at] is filled by a column default and read by no
      handler; it is left out of the rows.
    - Request bodies are the records of [schemas.py], taken after validation. *)

From Stdlib Require Import ZArith List String Bool Lia.
From Stdlib Require Import Sorting.Sorted Sorting.Permutation.
Import ListNotations.
Local Open Scope Z_scope.

(** ** Rows ([models.py]) *)

Record User := mkUser {
  u_id : Z;
  u_email : string;
  u_full_name : string;
  u_password_hash : string;
  u_role : string;
  u_is_active : bool }.

Record SessionToken := mkSessionToken {
  t_id : Z;
  t_token : string;
  t_user_id : Z;
  t_expires_at : Z }.

Record Camper := mkCamper {
  c_id : Z;
  c_first_name : string;
  c_last_name : string;
  c_date_of_birth : option string;
  c_emergency_info : option string }.

Record ParentCamper := mkParentCamper {
  pc_id : Z;
  pc_parent_user_id : Z;
  pc_camper_id : Z }.

Record CampYear := mkCampYear {
  cy_id : Z;
  cy_year : Z;
  cy_is_active : bool }.

Record Enrollment := mkEnrollment {
  e_id : Z;
  e_camp_year_id : Z;
  e_camper_id : Z;
  e_status : string;
  e_notes : option string }.

Record Group := mkGroup {
  g_id : Z;
  g_camp_year_id : Z;
  g_name : string;
  g_description : option string }.

Record GroupMembership := mkGroupMembership {
  gm_id : Z;
  gm_group_id : Z;
  gm_camper_id : Z }.

Record GroupEvent := mkGroupEvent {
  ev_id : Z;
  ev_group_id : Z;
  ev_title : string;
  ev_description : option string;
  ev_location : option string;
  ev_start_time : Z;
  ev_end_time : Z }.

(** ** Request and response bodies ([schemas.py]) *)

(** A [datetime] field of a request: with an offset it denotes an instant,
    without one a wall-clock reading. *)
Inductive datetime : Type :=
| Aware (instant : Z)
| Naive (wall : Z).

(** [a <= b] on [datetime]: defined between two aware or two naive values,
    a [TypeError] otherwise ([None]). *)
Definition datetime_leb (a b : datetime) : option bool :=
  match a, b with
  | Aware x, Aware y => Some (x <=? y)
  | Naive x, Naive y => Some (x <=? y)
  | _, _ => None
  end.

(** The instant written to a [timestamptz] column: a naive value is read in
    the time zone of the database session, taken to be UTC. *)
Definition instant_of (d : datetime) : Z :=
  match d with
  | Aware i => i
  | Naive w => w
  end.

Record RegisterParentRequest := mkRegisterParentRequest {
  rp_email : string;
  rp_password : string;
  rp_full_name : string }.

Record LoginRequest := mkLoginRequest {
  lr_email : string;
  lr_password : string }.

Record TokenResponse := mkTokenResponse {
  access_token : string;
  token_type : string;
  tr_expires_at : Z }.

Record ParentCreate := mkParentCreate {
  pcr_email : string;
  pcr_password : string;
  pcr_full_name : string }.

Record CamperCreate := mkCamperCreate {
  cc_first_name : string;
  cc_last_name : string;
  cc_date_of_birth : option string;
  cc_emergency_info : option string }.

Record EnrollmentCreate := mkEnrollmentCreate {
  ec_camper_id : Z;
  ec_camp_year : Z }.

Record EnrollmentUpdate := mkEnrollmentUpdate {
  eu_status : string;
  eu_notes : option string }.

Record GroupCreate := mkGroupCreate {
  gc_camp_year : Z;
  gc_name : string;
  gc_description : option string }.

Record GroupMembershipCreate := mkGroupMembershipCreate {
  gmc_camper_id : Z }.

Record GroupEventCreate := mkGroupEventCreate {
  gec_group_id : Z;
  gec_title : string;
  gec_description : option string;
  gec_location : option string;
  gec_start_time : datetime;
  gec_end_time : datetime }.

Record ParentScheduleItem := mkParentScheduleItem {
  psi_camper_id : Z;
  psi_camper_name : string;
  psi_group_id : Z;
  psi_group_name : string;
  psi_event_id : Z;
  psi_title : string;
  psi_start_time : Z;
  psi_end_time : Z;
  psi_location : option string }.

(** ** Process configuration (the [os.getenv] constants) and the password
    hashing context *)

Record Config := mkConfig {
  APP_SEED_ADMIN_EMAIL : string;
  APP_SEED_ADMIN_PASSWORD : string;
  APP_SEED_CAMP_YEAR : Z;
  TOKEN_TTL_MINUTES : Z }.

Definition default_config : Config :=
  {| APP_SEED_ADMIN_EMAIL := "admin@camp.local";
     APP_SEED_ADMIN_PASSWORD := "admin1234";
     APP_SEED_CAMP_YEAR := 2026;
     TOKEN_TTL_MINUTES := 720 |}.

(** [pwd_context]: the hashing primitive is an external collaborator. *)
Record CryptContext := mkCryptContext {
  hash_password : string -> string;
  verify_password : string -> string -> bool }.

(** [timedelta(minutes=n)] in microseconds. *)
Definition minutes (n : Z) : Z := n * 60000000.

(** ** The store *)

Record Table (A : Type) := mkTable {
  rows : list A;
  next_id : Z }.
Arguments mkTable {A} _ _.
Arguments rows {A} _.
Arguments next_id {A} _.

Definition empty_table {A : Type} : Table A := mkTable [] 1.

Record Store := mkStore {
  users : Table User;
  session_tokens : Table SessionToken;
  campers : Table Camper;
  parent_campers : Table ParentCamper;
  camp_years : Table CampYear;
  enrollments : Table Enrollment;
  groups : Table Group;
  group_memberships : Table GroupMembership;
  group_events : Table GroupEvent }.

Definition empty_store : Store :=
  mkStore empty_table empty_table empty_table empty_table empty_table
          empty_table empty_table empty_table empty_table.

Definition with_users (t : Table User) (s : Store) : Store :=
  mkStore t (session_tokens s) (campers s) (parent_campers s) (camp_years s)
          (enrollments s) (groups s) (group_memberships s) (group_events s).
Definition with_session_tokens (t : Table SessionToken) (s : Store) : Store :=
  mkStore (users s) t (campers s) (parent_campers s) (camp_years s)
          (enrollments s) (groups s) (group_memberships s) (group_events s).
Definition with_campers (t : Table Camper) (s : Store) : Store :=
  mkStore (users s) (session_tokens s) t (parent_campers s) (camp_years s)
          (enrollments s) (groups s) (group_memberships s) (group_events s).
Definition with_parent_campers (t : Table ParentCamper) (s : Store) : Store :=
  mkStore (users s) (session_tokens s) (campers s) t (camp_years s)
          (enrollments s) (groups s) (group_memberships s) (group_events s).
Definition with_camp_years (t : Table CampYear) (s : Store) : Store :=
  mkStore (users s) (session_tokens s) (campers s) (parent_campers s) t
          (enrollments s) (groups s) (group_memberships s) (group_events s).
Definition with_enrollments (t : Table Enrollment) (s : Store) : Store :=
  mkStore (users s) (session_tokens s) (campers s) (parent_campers s)
          (camp_years s) t (groups s) (group_memberships s) (group_events s).
Definition with_groups (t : Table Group) (s : Store) : Store :=
  mkStore (users s) (session_tokens s) (campers s) (parent_campers s)
          (camp_years s) (enrollments s) t (group_memberships s) (group_events s).
Definition with_group_memberships (t : Table GroupMembership) (s : Store) : Store :=
  mkStore (users s) (session_tokens s) (campers s) (parent_campers s)
          (camp_years s) (enrollments s) (groups s) t (group_events s).
Definition with_group_events (t : Table GroupEvent) (s : Store) : Store :=
  mkStore (users s) (session_tokens s) (campers s) (parent_campers s)
          (camp_years s) (enrollments s) (groups s) (group_memberships s) t.

(** The session: the store and the pending refusals of the storage engine
    (the head is the fate of the next commit, [true] meaning refusal). *)
Record Db := mkDb {
  store : Store;
  faults : list bool }.

(** ** Exceptions and the session monad *)

Inductive error : Type :=
| HTTPException (status_code : Z) (detail : string)
| IntegrityError (constraint : string)
| OperationalError
| DataError (detail : string)
| TypeError (detail : string).

Inductive result (A : Type) : Type :=
| Ok (a : A)
| Raise (e : error).
Arguments Ok {A} _.
Arguments Raise {A} _.

Definition M (A : Type) : Type := Db -> result A * Db.

Definition ret {A : Type} (a : A) : M A := fun db => (Ok a, db).

Definition bind {A B : Type} (m : M A) (k : A -> M B) : M B :=
  fun db =>
    match m db with
    | (Ok a, db') => k a db'
    | (Raise e, db') => (Raise e, db')
    end.

Definition raise {A : Type} (e : error) : M A := fun db => (Raise e, db).

Declare Scope session_scope.
Delimit Scope session_scope with session.
Notation "x <- m ;; k" := (bind m (fun x => k))
  (at level 100, m at next level, right associativity) : session_scope.
Notation "m ;;; k" := (bind m (fun _ => k))
  (at level 100, right associativity) : session_scope.
Local Open Scope session_scope.

(** [db.query(...)]: a read of the committed store. *)
Definition query {A : Type} (q : Store -> A) : M A :=
  fun db => (Ok (q (store db)), db).

(** [.first()] *)
Definition first {A : Type} (l : list A) : option A := hd_error l.

(** [db.commit()] of a pending change [apply], guarded by the constraints
    [violated] of the rows it touches. *)
Definition commit (violated : Store -> option string) (apply : Store -> Store) : M unit :=
  fun db =>
    match faults db with
    | true :: rest => (Raise OperationalError, mkDb (store db) rest)
    | fs =>
        match violated (store db) with
        | Some c => (Raise (IntegrityError c), mkDb (store db) (tl fs))
        | None => (Ok tt, mkDb (apply (store db)) (tl fs))
        end
    end.

(** [db.add(x); db.commit(); db.refresh(x)]: the row gets the next key of the
    table's sequence and is appended. *)
Definition add_commit_refresh {A : Type}
    (tbl : Store -> Table A) (upd : Table A -> Store -> Store)
    (set_id : Z -> A -> A) (violated : A -> Store -> option string) (x : A) : M A :=
  s <- query (fun s => s) ;;
  let x' := set_id (next_id (tbl s)) x in
  commit (violated x')
         (upd (mkTable (rows (tbl s) ++ [x']) (next_id (tbl s) + 1))) ;;;
  ret x'.

(** The first violated constraint among [cs], if any. *)
Fixpoint first_violation (cs : list (bool * string)) : option string :=
  match cs with
  | [] => None
  | (ok, name) :: cs' => if ok then first_violation cs' else Some name
  end.

Definition has_id {A : Type} (key : A -> Z) (i : Z) (l : list A) : bool :=
  existsb (fun x => key x =? i) l.

(** ** Constraints declared in [models.py] *)

Definition user_violated (u : User) (s : Store) : option string :=
  first_violation
    [ (negb (existsb (fun x => String.eqb (u_email x) (u_email u)) (rows (users s))),
       "uq_users_email"%string) ].

Definition session_token_violated (t : SessionToken) (s : Store) : option string :=
  first_violation
    [ (negb (existsb (fun x => String.eqb (t_token x) (t_token t)) (rows (session_tokens s))),
       "uq_session_token"%string);
      (has_id u_id (t_user_id t) (rows (users s)),
       "session_tokens_user_id_fkey"%string) ].

Definition camper_violated (c : Camper) (s : Store) : option string := None.

Definition parent_camper_violated (pc : ParentCamper) (s : Store) : option string :=
  first_violation
    [ (negb (existsb (fun x => (pc_parent_user_id x =? pc_parent_user_id pc)
                               && (pc_camper_id x =? pc_camper_id pc))
                     (rows (parent_campers s))),
       "uq_parent_camper"%string);
      (has_id u_id (pc_parent_user_id pc) (rows (users s)),
       "parent_campers_parent_user_id_fkey"%string);
      (has_id c_id (pc_camper_id pc) (rows (campers s)),
       "parent_campers_camper_id_fkey"%string) ].

Definition camp_year_violated (cy : CampYear) (s : Store) : option string :=
  first_violation
    [ (negb (existsb (fun x => cy_year x =? cy_year cy) (rows (camp_years s))),
       "uq_camp_year"%string) ].

Definition enrollment_violated (e : Enrollment) (s : Store) : option string :=
  first_violation
    [ (negb (existsb (fun x => (e_camp_year_id x =? e_camp_year_id e)
                               && (e_camper_id x =? e_camper_id e))
                     (rows (enrollments s))),
       "uq_year_camper"%string);
      (has_id cy_id (e_camp_year_id e) (rows (camp_years s)),
       "enrollments_camp_year_id_fkey"%string);
      (has_id c_id (e_camper_id e) (rows (campers s)),
       "enrollments_camper_id_fkey"%string) ].

Definition group_violated (g : Group) (s : Store) : option string :=
  first_violation
    [ (negb (existsb (fun x => (g_camp_year_id x =? g_camp_year_id g)
                               && String.eqb (g_name x) (g_name g))
                     (rows (groups s))),
       "uq_group_year_name"%string);
      (has_id cy_id (g_camp_year_id g) (rows (camp_years s)),
       "groups_camp_year_id_fkey"%string) ].

Definition group_membership_violated (m : GroupMembership) (s : Store) : option string :=
  first_violation
    [ (negb (existsb (fun x => (gm_group_id x =? gm_group_id m)
                               && (gm_camper_id x =? gm_camper_id m))
                     (rows (group_memberships s))),
       "uq_group_camper"%string);
      (has_id g_id (gm_group_id m) (rows (groups s)),
       "group_memberships_group_id_fkey"%string);
      (has_id c_id (gm_camper_id m) (rows (campers s)),
       "group_memberships_camper_id_fkey"%string) ].

Definition group_event_violated (ev : GroupEvent) (s : Store) : option string :=
  first_violation
    [ (has_id g_id (ev_group_id ev) (rows (groups s)),
       "group_events_group_id_fkey"%string) ].

(** ** Query helpers *)

(** [x in xs] on integers, also SQL's [IN]. *)
Definition mem (x : Z) (xs : list Z) : bool := existsb (Z.eqb x) xs.

(** A Python [set] of integers keeps one copy of each element. *)
Definition set_add (x : Z) (xs : list Z) : list Z :=
  if mem x xs then xs else xs ++ [x].

(** [.join(...)]: an inner join. *)
Definition join {A B : Type} (on : A -> B -> bool) (l : list A) (r : list B) : list (A * B) :=
  flat_map (fun a => map (pair a) (filter (on a) r)) l.

(** [.order_by(key.asc())] and [.order_by(key.desc())]: insertion sorts.  SQL
    leaves the order among equal keys open; these put equal keys in the
    reverse of their incoming order. *)
Fixpoint insert_asc {A : Type} (key : A -> Z) (x : A) (l : list A) : list A :=
  match l with
  | [] => [x]
  | y :: l' => if key x <? key y then x :: l else y :: insert_asc key x l'
  end.

Definition order_by_asc {A : Type} (key : A -> Z) (l : list A) : list A :=
  fold_right (insert_asc key) [] l.

Fixpoint insert_desc {A : Type} (key : A -> Z) (x : A) (l : list A) : list A :=
  match l with
  | [] => [x]
  | y :: l' => if key y <? key x then x :: l else y :: insert_desc key x l'
  end.

Definition order_by_desc {A : Type} (key : A -> Z) (l : list A) : list A :=
  fold_right (insert_desc key) [] l.

(** A Python [dict] with integer keys: insertion-ordered, one entry per key. *)
Definition dict (V : Type) : Type := list (Z * V).

Fixpoint dict_get {V : Type} (d : dict V) (k : Z) : option V :=
  match d with
  | [] => None
  | (k', v) :: d' => if k' =? k then Some v else dict_get d' k
  end.

Fixpoint dict_set {V : Type} (d : dict V) (k : Z) (v : V) : dict V :=
  match d with
  | [] => [(k, v)]
  | (k', v') :: d' => if k' =? k then (k, v) :: d' else (k', v') :: dict_set d' k v
  end.

(** [{key(x): x for x in l}] *)
Definition dict_of {V : Type} (key : V -> Z) (l : list V) : dict V :=
  fold_left (fun d x => dict_set d (key x) x) l [].

(** [d.setdefault(k, set()).add(x)] *)
Definition setdefault_add (d : dict (list Z)) (k : Z) (x : Z) : dict (list Z) :=
  match dict_get d k with
  | Some xs => dict_set d k (set_add x xs)
  | None => dict_set d k (set_add x [])
  end.

(** ** [auth.py] *)

Definition set_token_id (i : Z) (t : SessionToken) : SessionToken :=
  mkSessionToken i (t_token t) (t_user_id t) (t_expires_at t).

(** [token_value] is the draw of [secrets.token_urlsafe(32)] and [now] the
    reading of the clock. *)
Definition create_token (cfg : Config) (token_value : string) (now : Z) (user : User)
  : M SessionToken :=
  let expires := now + minutes (TOKEN_TTL_MINUTES cfg) in
  add_commit_refresh session_tokens with_session_tokens set_token_id
    session_token_violated
    (mkSessionToken 0 token_value (u_id user) expires).

(** [db.delete(tok)]: the row is removed by primary key. *)
Definition delete_session_token (tok : SessionToken) (s : Store) : Store :=
  with_session_tokens
    (mkTable (filter (fun t => negb (t_id t =? t_id tok)) (rows (session_tokens s)))
             (next_id (session_tokens s)))
    s.

Definition get_user_by_token (now : Z) (token_value : string) : M (option User) :=
  tok <- query (fun s =>
           first (filter (fun t => String.eqb (t_token t) token_value)
                         (rows (session_tokens s)))) ;;
  match tok with
  | None => ret None
  | Some tok =>
      if t_expires_at tok <? now then
        commit (fun _ => None) (delete_session_token tok) ;;;
        ret None
      else
        query (fun s =>
          first (filter (fun u => (u_id u =? t_user_id tok) && Bool.eqb (u_is_active u) true)
                        (rows (users s))))
  end.

(** [credentials] is [None] without an [Authorization: Bearer] header. *)
Definition require_auth (now : Z) (credentials : option string) : M User :=
  match credentials with
  | None => raise (HTTPException 401 "Not authenticated")
  | Some tokv =>
      if String.eqb tokv "" then raise (HTTPException 401 "Not authenticated")
      else
        user <- get_user_by_token now tokv ;;
        match user with
        | None => raise (HTTPException 401 "Invalid or expired token")
        | Some u => ret u
        end
  end.

(** [require_role(role)] returns the checker applied to the resolved user. *)
Definition require_role (role : string) (user : User) : M User :=
  if negb (String.eqb (u_role user) role) then
    raise (HTTPException 403 ("Requires role '" ++ role ++ "'"))
  else ret user.

(** A route declared with [dependencies=[Depends(require_role(role))]]: the
    token is resolved once per request, the role is checked, then the handler
    runs with the resolved user. *)
Definition protected {A : Type} (role : string) (now : Z) (credentials : option string)
    (handler : User -> M A) : M A :=
  user <- require_auth now credentials ;;
  user' <- require_role role user ;;
  handler user'.

(** ** [mainoriginal.py]: utilities *)

Definition set_user_id (i : Z) (u : User) : User :=
  mkUser i (u_email u) (u_full_name u) (u_password_hash u) (u_role u) (u_is_active u).
Definition set_camper_id (i : Z) (c : Camper) : Camper :=
  mkCamper i (c_first_name c) (c_last_name c) (c_date_of_birth c) (c_emergency_info c).
Definition set_parent_camper_id (i : Z) (pc : ParentCamper) : ParentCamper :=
  mkParentCamper i (pc_parent_user_id pc) (pc_camper_id pc).
Definition set_camp_year_id (i : Z) (cy : CampYear) : CampYear :=
  mkCampYear i (cy_year cy) (cy_is_active cy).
Definition set_enrollment_id (i : Z) (e : Enrollment) : Enrollment :=
  mkEnrollment i (e_camp_year_id e) (e_camper_id e) (e_status e) (e_notes e).
Definition set_group_id (i : Z) (g : Group) : Group :=
  mkGroup i (g_camp_year_id g) (g_name g) (g_description g).
Definition set_group_membership_id (i : Z) (m : GroupMembership) : GroupMembership :=
  mkGroupMembership i (gm_group_id m) (gm_camper_id m).
Definition set_group_event_id (i : Z) (ev : GroupEvent) : GroupEvent :=
  mkGroupEvent i (ev_group_id ev) (ev_title ev) (ev_description ev) (ev_location ev)
               (ev_start_time ev) (ev_end_time ev).

Definition add_user := add_commit_refresh users with_users set_user_id user_violated.
Definition add_camper := add_commit_refresh campers with_campers set_camper_id camper_violated.
Definition add_parent_camper :=
  add_commit_refresh parent_campers with_parent_campers set_parent_camper_id
    parent_camper_violated.
Definition add_camp_year :=
  add_commit_refresh camp_years with_camp_years set_camp_year_id camp_year_violated.
Definition add_enrollment :=
  add_commit_refresh enrollments with_enrollments set_enrollment_id enrollment_violated.
Definition add_group := add_commit_refresh groups with_groups set_group_id group_violated.
Definition add_group_membership :=
  add_commit_refresh group_memberships with_group_memberships set_group_membership_id
    group_membership_violated.

(** [String(n)] holds at most [n] characters. *)
Definition fits (n : nat) (s : string) : bool := Nat.leb (String.length s) n.

Definition fits_opt (n : nat) (o : option string) : bool :=
  match o with
  | Some s => fits n s
  | None => true
  end.

(** A commit the storage engine refuses with [e] for what the row holds. *)
Definition refused {A : Type} (e : error) : M A :=
  fun db =>
    match faults db with
    | true :: rest => (Raise OperationalError, mkDb (store db) rest)
    | fs => (Raise e, mkDb (store db) (tl fs))
    end.

(** [title] and [location] are [String(255)]. *)
Definition add_group_event (ev : GroupEvent) : M GroupEvent :=
  if fits 255 (ev_title ev) && fits_opt 255 (ev_location ev) then
    add_commit_refresh group_events with_group_events set_group_event_id
      group_event_violated ev
  else refused (DataError "value too long for type character varying(255)").

Definition seed_admin_and_year (cfg : Config) (pwd : CryptContext) : M unit :=
  year <- query (fun s =>
            first (filter (fun cy => cy_year cy =? APP_SEED_CAMP_YEAR cfg)
                          (rows (camp_years s)))) ;;
  match year with
  | Some _ => ret tt
  | None => add_camp_year (mkCampYear 0 (APP_SEED_CAMP_YEAR cfg) true) ;;; ret tt
  end ;;;
  admin <- query (fun s =>
             first (filter (fun u => String.eqb (u_email u) (APP_SEED_ADMIN_EMAIL cfg))
                           (rows (users s)))) ;;
  match admin with
  | Some _ => ret tt
  | None =>
      add_user (mkUser 0 (APP_SEED_ADMIN_EMAIL cfg) "Default Admin"
                       (hash_password pwd (APP_SEED_ADMIN_PASSWORD cfg)) "admin" true) ;;;
      ret tt
  end.

Definition get_or_create_camp_year (year_value : Z) : M CampYear :=
  cy <- query (fun s =>
          first (filter (fun cy => cy_year cy =? year_value) (rows (camp_years s)))) ;;
  match cy with
  | Some cy => ret cy
  | None => add_camp_year (mkCampYear 0 year_value false)
  end.

Definition ensure_parent_owns_camper (parent_user_id camper_id : Z) : M unit :=
  link <- query (fun s =>
            first (filter (fun pc => (pc_parent_user_id pc =? parent_user_id)
                                     && (pc_camper_id pc =? camper_id))
                          (rows (parent_campers s)))) ;;
  match link with
  | None => raise (HTTPException 403 "Parent does not own this camper")
  | Some _ => ret tt
  end.

(** ** [mainoriginal.py]: handlers *)

Definition register_parent (pwd : CryptContext) (payload : RegisterParentRequest) : M User :=
  existing <- query (fun s =>
                first (filter (fun u => String.eqb (u_email u) (rp_email payload))
                              (rows (users s)))) ;;
  match existing with
  | Some _ => raise (HTTPException 400 "Email already registered")
  | None =>
      add_user (mkUser 0 (rp_email payload) (rp_full_name payload)
                       (hash_password pwd (rp_password payload)) "parent" true)
  end.

Definition login (cfg : Config) (pwd : CryptContext) (token_value : string) (now : Z)
    (payload : LoginRequest) : M TokenResponse :=
  user <- query (fun s =>
            first (filter (fun u => String.eqb (u_email u) (lr_email payload)
                                    && Bool.eqb (u_is_active u) true)
                          (rows (users s)))) ;;
  match user with
  | None => raise (HTTPException 401 "Invalid credentials")
  | Some u =>
      if negb (verify_password pwd (lr_password payload) (u_password_hash u)) then
        raise (HTTPException 401 "Invalid credentials")
      else
        tok <- create_token cfg token_value now u ;;
        ret (mkTokenResponse (t_token tok) "bearer" (t_expires_at tok))
  end.

Definition me (user : User) : M User := ret user.

Definition admin_create_parent (pwd : CryptContext) (payload : ParentCreate) : M User :=
  existing <- query (fun s =>
                first (filter (fun u => String.eqb (u_email u) (pcr_email payload))
                              (rows (users s)))) ;;
  match existing with
  | Some _ => raise (HTTPException 400 "Email already exists")
  | None =>
      add_user (mkUser 0 (pcr_email payload) (pcr_full_name payload)
                       (hash_password pwd (pcr_password payload)) "parent" true)
  end.

Definition admin_create_camper (payload : CamperCreate) : M Camper :=
  add_camper (mkCamper 0 (cc_first_name payload) (cc_last_name payload)
                       (cc_date_of_birth payload) (cc_emergency_info payload)).

Definition admin_list_campers : M (list Camper) :=
  query (fun s => order_by_desc c_id (rows (campers s))).

Definition parent_add_child (payload : CamperCreate) (user : User) : M ParentCamper :=
  camper <- add_camper (mkCamper 0 (cc_first_name payload) (cc_last_name payload)
                                 (cc_date_of_birth payload) (cc_emergency_info payload)) ;;
  add_parent_camper (mkParentCamper 0 (u_id user) (c_id camper)).

Definition parent_list_children (user : User) : M (list ParentCamper) :=
  query (fun s =>
    order_by_desc pc_id
      (filter (fun pc => pc_parent_user_id pc =? u_id user) (rows (parent_campers s)))).

Definition parent_enroll (payload : EnrollmentCreate) (user : User) : M Enrollment :=
  ensure_parent_owns_camper (u_id user) (ec_camper_id payload) ;;;
  cy <- get_or_create_camp_year (ec_camp_year payload) ;;
  existing <- query (fun s =>
                first (filter (fun e => (e_camp_year_id e =? cy_id cy)
                                        && (e_camper_id e =? ec_camper_id payload))
                              (rows (enrollments s)))) ;;
  match existing with
  | Some _ => raise (HTTPException 400 "Already enrolled for this camp year")
  | None =>
      add_enrollment (mkEnrollment 0 (cy_id cy) (ec_camper_id payload) "pending" None)
  end.

Definition parent_list_enrollments (user : User) (camp_year : option Z)
  : M (list Enrollment) :=
  s <- query (fun s => s) ;;
  let q := join (fun ec pc => pc_camper_id pc =? c_id (snd ec))
             (join (fun e c => c_id c =? e_camper_id e)
                   (rows (enrollments s)) (rows (campers s)))
             (rows (parent_campers s)) in
  let q := filter (fun r => pc_parent_user_id (snd r) =? u_id user) q in
  match camp_year with
  | Some y =>
      match first (filter (fun cy => cy_year cy =? y) (rows (camp_years s))) with
      | None => ret []
      | Some cy =>
          let q := filter (fun r => e_camp_year_id (fst (fst r)) =? cy_id cy) q in
          ret (map (fun r => fst (fst r)) (order_by_desc (fun r => e_id (fst (fst r))) q))
      end
  | None =>
      ret (map (fun r => fst (fst r)) (order_by_desc (fun r => e_id (fst (fst r))) q))
  end.

(** [enr.status = ...; enr.notes = ...; db.commit()]: an update by primary key. *)
Definition update_enrollment (enr : Enrollment) (status : string) (notes : option string)
    (s : Store) : Store :=
  with_enrollments
    (mkTable (map (fun e => if e_id e =? e_id enr
                            then mkEnrollment (e_id e) (e_camp_year_id e) (e_camper_id e)
                                              status notes
                            else e)
                  (rows (enrollments s)))
             (next_id (enrollments s)))
    s.

Definition parent_update_enrollment (enrollment_id : Z) (payload : EnrollmentUpdate)
    (user : User) : M Enrollment :=
  enr <- query (fun s =>
           first (filter (fun e => e_id e =? enrollment_id) (rows (enrollments s)))) ;;
  match enr with
  | None => raise (HTTPException 404 "Enrollment not found")
  | Some enr =>
      ensure_parent_owns_camper (u_id user) (e_camper_id enr) ;;;
      commit (fun _ => None) (update_enrollment enr (eu_status payload) (eu_notes payload)) ;;;
      ret (mkEnrollment (e_id enr) (e_camp_year_id enr) (e_camper_id enr)
                        (eu_status payload) (eu_notes payload))
  end.

Definition admin_create_group (payload : GroupCreate) : M Group :=
  cy <- get_or_create_camp_year (gc_camp_year payload) ;;
  add_group (mkGroup 0 (cy_id cy) (gc_name payload) (gc_description payload)).

Definition admin_list_groups (camp_year : option Z) : M (list Group) :=
  query (fun s =>
    let q := join (fun g cy => cy_id cy =? g_camp_year_id g)
                  (rows (groups s)) (rows (camp_years s)) in
    let q := match camp_year with
             | Some y => filter (fun r => cy_year (snd r) =? y) q
             | None => q
             end in
    map fst (order_by_desc (fun r => g_id (fst r)) q)).

Definition admin_add_group_member (group_id : Z) (payload : GroupMembershipCreate)
  : M GroupMembership :=
  g <- query (fun s => first (filter (fun g => g_id g =? group_id) (rows (groups s)))) ;;
  match g with
  | None => raise (HTTPException 404 "Group not found")
  | Some _ =>
      camper <- query (fun s =>
                  first (filter (fun c => c_id c =? gmc_camper_id payload)
                                (rows (campers s)))) ;;
      match camper with
      | None => raise (HTTPException 404 "Camper not found")
      | Some _ =>
          existing <- query (fun s =>
                        first (filter (fun m => (gm_group_id m =? group_id)
                                                && (gm_camper_id m =? gmc_camper_id payload))
                                      (rows (group_memberships s)))) ;;
          match existing with
          | Some _ => raise (HTTPException 400 "Camper already in group")
          | None =>
              add_group_membership (mkGroupMembership 0 group_id (gmc_camper_id payload))
          end
      end
  end.

Definition admin_create_event (payload : GroupEventCreate) : M GroupEvent :=
  g <- query (fun s =>
         first (filter (fun g => g_id g =? gec_group_id payload) (rows (groups s)))) ;;
  match g with
  | None => raise (HTTPException 404 "Group not found")
  | Some _ =>
      match datetime_leb (gec_end_time payload) (gec_start_time payload) with
      | None =>
          raise (TypeError "can't compare offset-naive and offset-aware datetimes")
      | Some true => raise (HTTPException 400 "end_time must be after start_time")
      | Some false =>
          add_group_event
            (mkGroupEvent 0 (gec_group_id payload) (gec_title payload)
                          (gec_description payload) (gec_location payload)
                          (instant_of (gec_start_time payload))
                          (instant_of (gec_end_time payload)))
      end
  end.

(** [db.query(GroupEvent).join(Group).join(CampYear)] *)
Definition events_joined (s : Store) : list (GroupEvent * Group * CampYear) :=
  join (fun eg cy => cy_id cy =? g_camp_year_id (snd eg))
       (join (fun ev g => g_id g =? ev_group_id ev)
             (rows (group_events s)) (rows (groups s)))
       (rows (camp_years s)).

Definition event_of (r : GroupEvent * Group * CampYear) : GroupEvent := fst (fst r).

Definition filter_camp_year (camp_year : option Z)
    (q : list (GroupEvent * Group * CampYear)) : list (GroupEvent * Group * CampYear) :=
  match camp_year with
  | Some y => filter (fun r => cy_year (snd r) =? y) q
  | None => q
  end.

Definition admin_list_events (group_id camp_year : option Z) : M (list GroupEvent) :=
  query (fun s =>
    let q := filter_camp_year camp_year (events_joined s) in
    let q := match group_id with
             | Some g => filter (fun r => ev_group_id (event_of r) =? g) q
             | None => q
             end in
    map event_of (order_by_asc (fun r => ev_start_time (event_of r)) q)).

(** [list({m.group_id for m in memberships})] *)
Definition group_ids_of (memberships : list GroupMembership) : list Z :=
  fold_left (fun acc m => set_add (gm_group_id m) acc) memberships [].

(** The loop filling [camper_groups]. *)
Definition camper_groups_of (memberships : list GroupMembership) : dict (list Z) :=
  fold_left (fun d m => setdefault_add d (gm_camper_id m) (gm_group_id m)) memberships [].

(** The events of the groups, optionally of one camp year, by ascending start. *)
Definition schedule_events (group_ids : list Z) (camp_year : option Z) (s : Store)
  : list GroupEvent :=
  let q := filter (fun r => mem (ev_group_id (event_of r)) group_ids) (events_joined s) in
  let q := filter_camp_year camp_year q in
  map event_of (order_by_asc (fun r => ev_start_time (event_of r)) q).

Definition schedule_item (cid : Z) (camper : Camper) (grp : Group) (ev : GroupEvent)
  : ParentScheduleItem :=
  mkParentScheduleItem cid
    (c_first_name camper ++ " " ++ c_last_name camper)
    (g_id grp) (g_name grp) (ev_id ev) (ev_title ev)
    (ev_start_time ev) (ev_end_time ev) (ev_location ev).

(** The two nested loops that fill [out]. *)
Definition schedule_output (campers_d : dict Camper) (groups_d : dict Group)
    (camper_groups : dict (list Z)) (events : list GroupEvent) : list ParentScheduleItem :=
  flat_map (fun ev =>
    flat_map (fun kv =>
      let cid := fst kv in
      let gids := snd kv in
      if mem (ev_group_id ev) gids then
        match dict_get campers_d cid, dict_get groups_d (ev_group_id ev) with
        | Some camper, Some grp => [schedule_item cid camper grp ev]
        | _, _ => []
        end
      else [])
      camper_groups)
    events.

(** The body of [parent_view_schedule] after the camper filter. *)
Definition schedule_items (camper_ids : list Z) (camp_year : option Z) (s : Store)
  : list ParentScheduleItem :=
  let memberships :=
    filter (fun m => mem (gm_camper_id m) camper_ids) (rows (group_memberships s)) in
  match memberships with
  | [] => []
  | _ =>
      let group_ids := group_ids_of memberships in
      let events := schedule_events group_ids camp_year s in
      let groups_d :=
        dict_of g_id (filter (fun g => mem (g_id g) group_ids) (rows (groups s))) in
      let campers_d :=
        dict_of c_id (filter (fun c => mem (c_id c) camper_ids) (rows (campers s))) in
      let camper_groups := camper_groups_of memberships in
      schedule_output campers_d groups_d camper_groups events
  end.

Definition parent_view_schedule (camper_id camp_year : option Z) (user : User)
  : M (list ParentScheduleItem) :=
  camper_ids <- query (fun s =>
                  map pc_camper_id
                      (filter (fun pc => pc_parent_user_id pc =? u_id user)
                              (rows (parent_campers s)))) ;;
  match camper_ids with
  | [] => ret []
  | _ =>
      match camper_id with
      | Some cid =>
          if negb (mem cid camper_ids) then
            raise (HTTPException 403 "Parent does not own this camper")
          else query (schedule_items [cid] camp_year)
      | None => query (schedule_items camper_ids camp_year)
      end
  end.

(** ** The application: routes and their dependencies *)

Inductive Request : Type :=
| PostRegisterParent (payload : RegisterParentRequest)
| PostLogin (payload : LoginRequest)
| GetMe
| PostAdminParents (payload : ParentCreate)
| PostAdminCampers (payload : CamperCreate)
| GetAdminCampers
| PostParentCampers (payload : CamperCreate)
| GetParentCampers
| PostParentEnrollments (payload : EnrollmentCreate)
| GetParentEnrollments (camp_year : option Z)
| PutParentEnrollment (enrollment_id : Z) (payload : EnrollmentUpdate)
| PostAdminGroups (payload : GroupCreate)
| GetAdminGroups (camp_year : option Z)
| PostAdminGroupMembers (group_id : Z) (payload : GroupMembershipCreate)
| PostAdminEvents (payload : GroupEventCreate)
| GetAdminEvents (group_id camp_year : option Z)
| GetParentSchedule (camper_id camp_year : option Z).

Inductive Response : Type :=
| UserOut (u : User)
| TokenOut (t : TokenResponse)
| CamperOut (c : Camper)
| CampersOut (cs : list Camper)
| ParentCamperLinkOut (l : ParentCamper)
| ParentCamperLinksOut (ls : list ParentCamper)
| EnrollmentOut (e : Enrollment)
| EnrollmentsOut (es : list Enrollment)
| GroupOut (g : Group)
| GroupsOut (gs : list Group)
| GroupMemberOut (m : GroupMembership)
| GroupEventOut (ev : GroupEvent)
| GroupEventsOut (evs : list GroupEvent)
| ScheduleOut (items : list ParentScheduleItem).

Definition fmap {A B : Type} (f : A -> B) (m : M A) : M B :=
  a <- m ;; ret (f a).

(** One request: [now] is the clock, [token_value] the random draw used by a
    login, [credentials] the bearer token of the request. *)
Definition app (cfg : Config) (pwd : CryptContext) (now : Z) (token_value : string)
    (credentials : option string) (req : Request) : M Response :=
  match req with
  | PostRegisterParent payload => fmap UserOut (register_parent pwd payload)
  | PostLogin payload => fmap TokenOut (login cfg pwd token_value now payload)
  | GetMe => fmap UserOut (user <- require_auth now credentials ;; me user)
  | PostAdminParents payload =>
      protected "admin" now credentials
        (fun _ => fmap UserOut (admin_create_parent pwd payload))
  | PostAdminCampers payload =>
      protected "admin" now credentials
        (fun _ => fmap CamperOut (admin_create_camper payload))
  | GetAdminCampers =>
      protected "admin" now credentials (fun _ => fmap CampersOut admin_list_campers)
  | PostParentCampers payload =>
      protected "parent" now credentials
        (fun user => fmap ParentCamperLinkOut (parent_add_child payload user))
  | GetParentCampers =>
      protected "parent" now credentials
        (fun user => fmap ParentCamperLinksOut (parent_list_children user))
  | PostParentEnrollments payload =>
      protected "parent" now credentials
        (fun user => fmap EnrollmentOut (parent_enroll payload user))
  | GetParentEnrollments camp_year =>
      protected "parent" now credentials
        (fun user => fmap EnrollmentsOut (parent_list_enrollments user camp_year))
  | PutParentEnrollment enrollment_id payload =>
      protected "parent" now credentials
        (fun user => fmap EnrollmentOut (parent_update_enrollment enrollment_id payload user))
  | PostAdminGroups payload =>
      protected "admin" now credentials
        (fun _ => fmap GroupOut (admin_create_group payload))
  | GetAdminGroups camp_year =>
      protected "admin" now credentials
        (fun _ => fmap GroupsOut (admin_list_groups camp_year))
  | PostAdminGroupMembers group_id payload =>
      protected "admin" now credentials
        (fun _ => fmap GroupMemberOut (admin_add_group_member group_id payload))
  | PostAdminEvents payload =>
      protected "admin" now credentials
        (fun _ => fmap GroupEventOut (admin_create_event payload))
  | GetAdminEvents group_id camp_year =>
      protected "admin" now credentials
        (fun _ => fmap GroupEventsOut (admin_list_events group_id camp_year))
  | GetParentSchedule camper_id camp_year =>
      protected "parent" now credentials
        (fun user => fmap ScheduleOut (parent_view_schedule camper_id camp_year user))
  end.

(** The routes that declare [require_role("parent")]. *)
Definition parent_only (req : Request) : bool :=
  match req with
  | PostParentCampers _ | GetParentCampers | PostParentEnrollments _
  | GetParentEnrollments _ | PutParentEnrollment _ _ | GetParentSchedule _ _ => true
  | _ => false
  end.

(** ** Error taxonomy of the caller-visible failures *)

Definition Unauthorized {A : Type} (r : result A) : Prop :=
  exists detail, r = Raise (HTTPException 401 detail).
Definition Forbidden {A : Type} (r : result A) : Prop :=
  exists detail, r = Raise (HTTPException 403 detail).
Definition NotFound {A : Type} (r : result A) : Prop :=
  exists detail, r = Raise (HTTPException 404 detail).
Definition BadRequest {A : Type} (r : result A) : Prop :=
  exists detail, r = Raise (HTTPException 400 detail).
(** A uniqueness violation reported to the caller: status 400 or 409. *)
Definition Conflict {A : Type} (r : result A) : Prop :=
  exists status detail,
    r = Raise (HTTPException status detail) /\ (status = 400 \/ status = 409).

(** ** Well-formed stores: primary keys, declared unique constraints and
    foreign keys *)

Definition unique_on {A K : Type} (key : A -> K) (l : list A) : Prop :=
  NoDup (map key l).

Record wf_store (s : Store) : Prop := mkWf {
  pk_users : unique_on u_id (rows (users s));
  pk_session_tokens : unique_on t_id (rows (session_tokens s));
  pk_campers : unique_on c_id (rows (campers s));
  pk_parent_campers : unique_on pc_id (rows (parent_campers s));
  pk_camp_years : unique_on cy_id (rows (camp_years s));
  pk_enrollments : unique_on e_id (rows (enrollments s));
  pk_groups : unique_on g_id (rows (groups s));
  pk_group_memberships : unique_on gm_id (rows (group_memberships s));
  pk_group_events : unique_on ev_id (rows (group_events s));
  uq_users_email : unique_on u_email (rows (users s));
  uq_session_token : unique_on t_token (rows (session_tokens s));
  uq_parent_camper :
    unique_on (fun pc => (pc_parent_user_id pc, pc_camper_id pc)) (rows (parent_campers s));
  uq_camp_year : unique_on cy_year (rows (camp_years s));
  uq_year_camper :
    unique_on (fun e => (e_camp_year_id e, e_camper_id e)) (rows (enrollments s));
  uq_group_year_name :
    unique_on (fun g => (g_camp_year_id g, g_name g)) (rows (groups s));
  uq_group_camper :
    unique_on (fun m => (gm_group_id m, gm_camper_id m)) (rows (group_memberships s));
  fk_groups_camp_year :
    forall g, In g (rows (groups s)) ->
      exists cy, In cy (rows (camp_years s)) /\ cy_id cy = g_camp_year_id g;
  fk_group_events_group :
    forall ev, In ev (rows (group_events s)) ->
      exists g, In g (rows (groups s)) /\ g_id g = ev_group_id ev }.

(** Every account is a parent, the seeded admin apart. *)
Definition role_invariant (cfg : Config) (s : Store) : Prop :=
  forall u, In u (rows (users s)) ->
    u_role u = "parent"%string
    \/ (u_email u = APP_SEED_ADMIN_EMAIL cfg /\ u_role u = "admin"%string).

(** A computation that keeps a property of the store. *)
Definition preserves {A : Type} (I : Store -> Prop) (m : M A) : Prop :=
  forall db, I (store db) -> I (store (snd (m db))).

(** ** Sample sessions *)

Definition sample_pwd : CryptContext :=
  mkCryptContext (fun p => ("bcrypt$" ++ p)%string)
                 (fun p h => String.eqb ("bcrypt$" ++ p)%string h).

Definition sample_admin : User :=
  mkUser 1 "admin@camp.local" "Default Admin" "bcrypt$admin1234" "admin" true.
Definition sample_parent : User :=
  mkUser 2 "pat@example.org" "Pat" "bcrypt$secret1" "parent" true.
Definition sample_dormant : User :=
  mkUser 3 "old@example.org" "Old" "bcrypt$secret2" "parent" false.
(** A parent without any camper, and a parent with a camper of their own. *)
Definition sample_quinn : User :=
  mkUser 4 "quinn@example.org" "Quinn" "bcrypt$secret3" "parent" true.
Definition sample_robin : User :=
  mkUser 5 "robin@example.org" "Robin" "bcrypt$secret4" "parent" true.

Definition sample_users : Table User :=
  mkTable [sample_admin; sample_parent; sample_dormant; sample_quinn; sample_robin] 6.

(** Sessions: one expired at instant 100, one valid until 900, one of a
    deactivated account, one of the admin. *)
Definition stale_token : SessionToken := mkSessionToken 1 "tok-stale" 2 100.
Definition live_token : SessionToken := mkSessionToken 2 "tok-live" 2 900.
Definition dormant_token : SessionToken := mkSessionToken 3 "tok-dormant" 3 900.
Definition admin_token : SessionToken := mkSessionToken 4 "tok-admin" 1 900.

Definition auth_store : Store :=
  with_session_tokens (mkTable [stale_token; live_token; dormant_token; admin_token] 5)
    (with_users sample_users empty_store).

Definition auth_db : Db := mkDb auth_store [].

(** A family: Pat owns Ann and Bob, Robin owns Cy; Ann is in the Otters, Bob
    in the Otters and the Hawks; the Otters swim from 10:00 to 11:00, the
    Hawks hike from 14:00 to 15:00 (instants in microseconds, 3600000000 to
    the hour). *)
Definition ann : Camper := mkCamper 1 "Ann" "Lee" None None.
Definition bob : Camper := mkCamper 2 "Bob" "Lee" (Some "2015-04-01"%string) None.
Definition cy : Camper := mkCamper 3 "Cy" "Ray" None None.

Definition year_2026 : CampYear := mkCampYear 1 2026 true.
Definition otters : Group := mkGroup 1 1 "Otters" None.
Definition hawks : Group := mkGroup 2 1 "Hawks" (Some "Hill walkers"%string).

Definition swim : GroupEvent :=
  mkGroupEvent 1 1 "Swim" None (Some "Lake"%string) 36000000000 39600000000.
Definition hike : GroupEvent :=
  mkGroupEvent 2 2 "Hike" None None 50400000000 54000000000.

Definition ann_enrollment : Enrollment := mkEnrollment 1 1 1 "pending" None.

Definition family_store : Store :=
  mkStore sample_users
    (mkTable [stale_token; live_token; dormant_token; admin_token] 5)
    (mkTable [ann; bob; cy] 4)
    (mkTable [mkParentCamper 1 2 1; mkParentCamper 2 2 2; mkParentCamper 3 5 3] 4)
    (mkTable [year_2026] 2)
    (mkTable [ann_enrollment] 2)
    (mkTable [otters; hawks] 3)
    (mkTable [mkGroupMembership 1 1 1; mkGroupMembership 2 1 2; mkGroupMembership 3 2 2] 4)
    (mkTable [hike; swim] 3).

Definition family_db : Db := mkDb family_store [].

(** The same family on a storage engine that accepts the next commit and
    refuses the one after. *)
Definition flaky_family_db : Db := mkDb family_store [false; true].


(** ** Notions used by the statements *)

(** The event and camper rows built from a request body. *)
Definition event_of_payload (i : Z) (payload : GroupEventCreate) : GroupEvent :=
  mkGroupEvent i (gec_group_id payload) (gec_title payload) (gec_description payload)
               (gec_location payload) (instant_of (gec_start_time payload))
               (instant_of (gec_end_time payload)).

(** Two datetimes Python orders: both aware or both naive. *)
Definition comparable (a b : datetime) : Prop :=
  match a, b with
  | Aware _, Aware _ => True
  | Naive _, Naive _ => True
  | _, _ => False
  end.


Definition camper_of_payload (i : Z) (payload : CamperCreate) : Camper :=
  mkCamper i (cc_first_name payload) (cc_last_name payload)
           (cc_date_of_birth payload) (cc_emergency_info payload).

(** The store once the camper row of [parent_add_child] is committed. *)
Definition camper_committed (payload : CamperCreate) (s : Store) : Store :=
  with_campers
    (mkTable (rows (campers s) ++ [camper_of_payload (next_id (campers s)) payload])
             (next_id (campers s) + 1))
    s.

(** The all-or-nothing reading of [parent_add_child]: a failed call leaves the
    store as it found it. *)
Definition parent_add_child_atomic : Prop :=
  forall (payload : CamperCreate) (user : User) (db db' : Db) (e : error),
    parent_add_child payload user db = (Raise e, db') -> store db' = store db.

(** No ownership link joins the parent to the camper. *)
Definition no_link (parent_user_id camper_id : Z) (s : Store) : Prop :=
  forall pc, In pc (rows (parent_campers s)) ->
    ~ (pc_parent_user_id pc = parent_user_id /\ pc_camper_id pc = camper_id).

(** The schedule view refusing every camper filter that names a camper the
    caller does not own. *)
Definition schedule_filter_always_forbidden : Prop :=
  forall (user : User) (a : Z) (camp_year : option Z) (db : Db),
    no_link (u_id user) a (store db) ->
    Forbidden (fst (parent_view_schedule (Some a) camp_year user db)).

(** A property of the accounts alone. *)
Definition users_only (I : Store -> Prop) : Prop :=
  forall s s', users s' = users s -> I s -> I s'.

(** The sessions the running system can be in: the startup hook seeds an
    empty store, then requests are served; the availability of the storage
    engine changes at will. *)
Inductive reachable (cfg : Config) (pwd : CryptContext) : Db -> Prop :=
| reach_startup (fs : list bool) :
    reachable cfg pwd (snd (seed_admin_and_year cfg pwd (mkDb empty_store fs)))
| reach_request (db : Db) (now : Z) (token_value : string) (credentials : option string)
    (req : Request) :
    reachable cfg pwd db ->
    reachable cfg pwd (snd (app cfg pwd now token_value credentials req db))
| reach_weather (db : Db) (fs : list bool) :
    reachable cfg pwd db -> reachable cfg pwd (mkDb (store db) fs).

(** Ownership and membership as relations on keys. *)
Definition owns (s : Store) (parent_user_id camper_id : Z) : Prop :=
  exists pc, In pc (rows (parent_campers s))
             /\ pc_parent_user_id pc = parent_user_id /\ pc_camper_id pc = camper_id.

Definition is_member (s : Store) (camper_id group_id : Z) : Prop :=
  exists m, In m (rows (group_memberships s))
            /\ gm_camper_id m = camper_id /\ gm_group_id m = group_id.

(** ** Routes and their declared dependencies *)

(** The role a route declares through [require_role], if any. *)
Definition required_role (req : Request) : option string :=
  match req with
  | PostRegisterParent _ | PostLogin _ | GetMe => None
  | PostAdminParents _ | PostAdminCampers _ | GetAdminCampers | PostAdminGroups _
  | GetAdminGroups _ | PostAdminGroupMembers _ _ | PostAdminEvents _
  | GetAdminEvents _ _ => Some "admin"%string
  | PostParentCampers _ | GetParentCampers | PostParentEnrollments _
  | GetParentEnrollments _ | PutParentEnrollment _ _ | GetParentSchedule _ _ =>
      Some "parent"%string
  end.

(** The routes without [require_auth] among their dependencies. *)
Definition public_route (req : Request) : bool :=
  match req with
  | PostRegisterParent _ | PostLogin _ => true
  | _ => false
  end.

(** The storage engine accepts the next commit. *)
Definition accepts_next (db : Db) : Prop := hd false (faults db) = false.

(** The outcome of an accepted insertion. *)
Definition appended {A : Type} (tbl : Store -> Table A) (x : A) (s : Store) : Table A :=
  mkTable (rows (tbl s) ++ [x]) (next_id (tbl s) + 1).

(** ** Sequences ahead of the stored keys *)

Definition fresh_table {A : Type} (key : A -> Z) (t : Table A) : Prop :=
  forall x, In x (rows t) -> key x < next_id t.

Record fresh_ids (s : Store) : Prop := mkFresh {
  fresh_users : fresh_table u_id (users s);
  fresh_session_tokens : fresh_table t_id (session_tokens s);
  fresh_campers : fresh_table c_id (campers s);
  fresh_parent_campers : fresh_table pc_id (parent_campers s);
  fresh_camp_years : fresh_table cy_id (camp_years s);
  fresh_enrollments : fresh_table e_id (enrollments s);
  fresh_groups : fresh_table g_id (groups s);
  fresh_group_memberships : fresh_table gm_id (group_memberships s);
  fresh_group_events : fresh_table ev_id (group_events s) }.

(** A store is consistent when it is well formed and every sequence is
    ahead of the keys of its table. *)
Definition consistent (s : Store) : Prop := wf_store s /\ fresh_ids s.

(** ** The remaining foreign keys of [models.py] *)

Record references_resolve (s : Store) : Prop := mkRefs {
  ref_token_user :
    forall t, In t (rows (session_tokens s)) ->
      exists u, In u (rows (users s)) /\ u_id u = t_user_id t;
  ref_link_parent :
    forall pc, In pc (rows (parent_campers s)) ->
      exists u, In u (rows (users s)) /\ u_id u = pc_parent_user_id pc;
  ref_link_camper :
    forall pc, In pc (rows (parent_campers s)) ->
      exists c, In c (rows (campers s)) /\ c_id c = pc_camper_id pc;
  ref_enrollment_year :
    forall e, In e (rows (enrollments s)) ->
      exists c, In c (rows (camp_years s)) /\ cy_id c = e_camp_year_id e;
  ref_enrollment_camper :
    forall e, In e (rows (enrollments s)) ->
      exists c, In c (rows (campers s)) /\ c_id c = e_camper_id e;
  ref_membership_group :
    forall m, In m (rows (group_memberships s)) ->
      exists g, In g (rows (groups s)) /\ g_id g = gm_group_id m;
  ref_membership_camper :
    forall m, In m (rows (group_memberships s)) ->
      exists c, In c (rows (campers s)) /\ c_id c = gm_camper_id m }.

(** The sessions that can follow [db]: requests are served, the availability
    of the storage engine changes, the process restarts and runs its startup
    seeding again. *)
Inductive later (cfg : Config) (pwd : CryptContext) (db : Db) : Db -> Prop :=
| later_now : later cfg pwd db db
| later_request (db1 : Db) (now : Z) (token_value : string) (credentials : option string)
    (req : Request) :
    later cfg pwd db db1 ->
    later cfg pwd db (snd (app cfg pwd now token_value credentials req db1))
| later_restart (db1 : Db) :
    later cfg pwd db db1 -> later cfg pwd db (snd (seed_admin_and_year cfg pwd db1))
| later_weather (db1 : Db) (fs : list bool) :
    later cfg pwd db db1 -> later cfg pwd db (mkDb (store db1) fs).

(** ** Writes that no look-up guards *)

(** The request writes a row whose unique constraint [c] the handler does not
    look up first, and the store already holds the value: a group whose name
    is taken in its camp year, or a login whose drawn token value is stored
    already. *)
Definition unguarded_duplicate (req : Request) (token_value : string) (c : string)
    (s : Store) : Prop :=
  (exists payload cyr g,
      req = PostAdminGroups payload /\ c = "uq_group_year_name"%string
      /\ In cyr (rows (camp_years s)) /\ cy_year cyr = gc_camp_year payload
      /\ In g (rows (groups s)) /\ g_camp_year_id g = cy_id cyr
      /\ g_name g = gc_name payload)
  \/ (exists payload t,
         req = PostLogin payload /\ c = "uq_session_token"%string
         /\ In t (rows (session_tokens s)) /\ t_token t = token_value).

(** * Properties *)

(** ** List and lookup facts shared by the proofs *)

Lemma filter_nil_iff {A : Type} (p : A -> bool) (l : list A) :
  (forall x, In x l -> p x = false) -> filter p l = [].
Proof.
  induction l as [|y l IH]; intros H; simpl; [reflexivity|].
  rewrite (H y (or_introl eq_refl)). apply IH. intros x Hx. apply H. now right.
Qed.

(** A key that is unique in the table selects exactly its row. *)
Lemma filter_unique {A K : Type} (key : A -> K) (test : K -> K -> bool) :
  (forall a b, test a b = true <-> a = b) ->
  forall (l : list A) (x : A),
    unique_on key l -> In x l ->
    filter (fun y => test (key y) (key x)) l = [x].
Proof.
  intros Htest l x. unfold unique_on.
  induction l as [|y l IH]; intros Hnd Hin; simpl in *; [contradiction|].
  inversion Hnd as [|? ? Hnotin Hnd']; subst.
  destruct Hin as [-> | Hin].
  - rewrite (proj2 (Htest _ _) eq_refl). f_equal.
    apply filter_nil_iff. intros z Hz.
    destruct (test (key z) (key x)) eqn:E; [|reflexivity].
    apply Htest in E. exfalso. apply Hnotin. rewrite <- E. now apply in_map.
  - destruct (test (key y) (key x)) eqn:E.
    + apply Htest in E. exfalso. apply Hnotin. rewrite E. now apply in_map.
    + now apply IH.
Qed.

Lemma string_eqb_iff (a b : string) : String.eqb a b = true <-> a = b.
Proof. apply String.eqb_eq. Qed.

Lemma z_eqb_iff (a b : Z) : (a =? b) = true <-> a = b.
Proof. apply Z.eqb_eq. Qed.

Lemma filter_token_unique (l : list SessionToken) (tok : SessionToken) :
  unique_on t_token l -> In tok l ->
  filter (fun t => String.eqb (t_token t) (t_token tok)) l = [tok].
Proof. apply (filter_unique t_token String.eqb string_eqb_iff). Qed.

Lemma filter_id_unique {A : Type} (key : A -> Z) (l : list A) (x : A) :
  unique_on key l -> In x l -> filter (fun y => key y =? key x) l = [x].
Proof. apply (filter_unique key Z.eqb z_eqb_iff). Qed.

(** After the deletion by primary key no row carries the token value. *)
Lemma deleted_token_gone (l : list SessionToken) (tok t : SessionToken) :
  unique_on t_token l -> In tok l ->
  In t (filter (fun x => negb (t_id x =? t_id tok)) l) -> t_token t <> t_token tok.
Proof.
  unfold unique_on. induction l as [|y l IH]; simpl; intros Hnd Hin Ht; [contradiction|].
  inversion Hnd as [|? ? Hnotin Hnd']; subst.
  destruct Hin as [-> | Hin].
  - rewrite Z.eqb_refl in Ht. simpl in Ht.
    apply filter_In in Ht. destruct Ht as [Ht _].
    intros E. apply Hnotin. rewrite <- E. now apply in_map.
  - destruct (negb (t_id y =? t_id tok)).
    + destruct Ht as [-> | Ht]; [|now apply IH].
      intros E. apply Hnotin. rewrite E. now apply in_map.
    + now apply IH.
Qed.

Lemma filter_andb {A : Type} (p q : A -> bool) (l : list A) :
  filter (fun x => p x && q x) l = filter q (filter p l).
Proof.
  induction l as [|y l IH]; simpl; [reflexivity|].
  destruct (p y); simpl; [destruct (q y)|]; now rewrite IH.
Qed.

Lemma sample_tokens_unique : unique_on t_token (rows (session_tokens auth_store)).
Proof. unfold unique_on; simpl. repeat constructor; simpl; intuition discriminate. Qed.

Lemma sample_users_unique : unique_on u_id (rows (users auth_store)).
Proof. unfold unique_on; simpl. repeat constructor; simpl; intuition discriminate. Qed.

Ltac break_match :=
  match goal with
  | H : context [match ?x with _ => _ end] |- _ => destruct x eqn:?
  | |- context [match ?x with _ => _ end] => destruct x eqn:?
  end.

Ltac unfold_session :=
  unfold add_user, add_camper, add_parent_camper, add_camp_year, add_enrollment,
    add_group, add_group_membership, add_group_event, add_commit_refresh,
    fmap, commit, query, bind, ret, raise in *.

Lemma first_filter_some {A : Type} (p : A -> bool) (l : list A) (x : A) :
  In x l -> p x = true -> exists y, first (filter p l) = Some y.
Proof.
  intros Hin Hp.
  assert (Hf : In x (filter p l)) by (apply filter_In; auto).
  unfold first. destruct (filter p l) as [|y l']; [contradiction | now exists y].
Qed.

Lemma first_filter_sound {A : Type} (p : A -> bool) (l : list A) (y : A) :
  first (filter p l) = Some y -> In y l /\ p y = true.
Proof.
  unfold first. intros H. apply filter_In.
  destruct (filter p l) as [|z l']; [discriminate|].
  inversion H; subst. now left.
Qed.

Lemma has_id_true {A : Type} (key : A -> Z) (i : Z) (l : list A) (x : A) :
  In x l -> key x = i -> has_id key i l = true.
Proof.
  intros Hin Hk. unfold has_id. apply existsb_exists.
  exists x. split; [assumption | now apply Z.eqb_eq].
Qed.

Lemma existsb_false_forall {A : Type} (p : A -> bool) (l : list A) :
  existsb p l = false -> forall x, In x l -> p x = false.
Proof.
  intros H x Hx. destruct (p x) eqn:E; [|reflexivity].
  rewrite <- H. symmetry. apply existsb_exists. now exists x.
Qed.

Lemma existsb_none {A : Type} (p : A -> bool) (l : list A) :
  (forall x, In x l -> p x = false) -> existsb p l = false.
Proof.
  induction l as [|y l IH]; intros H; simpl; [reflexivity|].
  rewrite (H y (or_introl eq_refl)). apply IH. intros x Hx. apply H. now right.
Qed.

Lemma in_snoc {A : Type} (l : list A) (x : A) : In x (l ++ [x]).
Proof. apply in_app_iff. right. now left. Qed.

(** ** Token resolution *)

Lemma first_token_of (db : Db) (tok : SessionToken) :
  unique_on t_token (rows (session_tokens (store db))) ->
  In tok (rows (session_tokens (store db))) ->
  filter (fun t => String.eqb (t_token t) (t_token tok)) (rows (session_tokens (store db)))
  = [tok].
Proof. apply filter_token_unique. Qed.

Lemma absent_token_filter (l : list SessionToken) (tokv : string) :
  (forall t, In t l -> t_token t <> tokv) ->
  filter (fun t => String.eqb (t_token t) tokv) l = [].
Proof.
  intros H. apply filter_nil_iff. intros t Ht.
  apply String.eqb_neq. now apply H.
Qed.

Lemma get_user_by_token_absent (now : Z) (tokv : string) (db : Db) :
  (forall t, In t (rows (session_tokens (store db))) -> t_token t <> tokv) ->
  get_user_by_token now tokv db = (Ok None, db).
Proof.
  intros H. unfold get_user_by_token, bind, query, first, ret.
  now rewrite (absent_token_filter _ _ H).
Qed.

Lemma require_auth_of_none (now : Z) (tokv : string) (db db' : Db) :
  get_user_by_token now tokv db = (Ok None, db') ->
  Unauthorized (fst (require_auth now (Some tokv) db)).
Proof.
  intros H. unfold require_auth.
  destruct (String.eqb tokv "").
  - eexists. reflexivity.
  - unfold bind. rewrite H. eexists. reflexivity.
Qed.

Lemma get_user_by_token_expired (now : Z) (db : Db) (tok : SessionToken) :
  unique_on t_token (rows (session_tokens (store db))) ->
  In tok (rows (session_tokens (store db))) ->
  t_expires_at tok < now ->
  hd false (faults db) = false ->
  get_user_by_token now (t_token tok) db
  = (Ok None, mkDb (delete_session_token tok (store db)) (tl (faults db))).
Proof.
  intros Hu Hin Hexp Hf.
  unfold get_user_by_token, bind, query, first, ret, commit.
  rewrite (first_token_of db tok Hu Hin). simpl.
  rewrite (proj2 (Z.ltb_lt _ _) Hexp).
  destruct (faults db) as [|[|] fs]; simpl in *; try discriminate; reflexivity.
Qed.

(** C2: a stored token whose expiry lies in the past resolves to no account
    (401), the failed resolution deletes its record, and the value stays
    unresolvable afterwards; an absent token, and a valid token of an inactive
    account, resolve to no account (401) as well. *)
Theorem resolve_rejects_expired_absent_inactive :
  forall (now : Z) (tokv : string) (db : Db),
    unique_on t_token (rows (session_tokens (store db))) ->
    (forall tok,
        In tok (rows (session_tokens (store db))) -> t_token tok = tokv ->
        t_expires_at tok < now -> hd false (faults db) = false ->
        let db' := mkDb (delete_session_token tok (store db)) (tl (faults db)) in
        get_user_by_token now tokv db = (Ok None, db')
        /\ Unauthorized (fst (require_auth now (Some tokv) db))
        /\ (tokv <> ""%string -> snd (require_auth now (Some tokv) db) = db')
        /\ ~ In tok (rows (session_tokens (store db')))
        /\ (forall t, In t (rows (session_tokens (store db'))) -> t_token t <> tokv)
        /\ (forall now', get_user_by_token now' tokv db' = (Ok None, db')
                         /\ Unauthorized (fst (require_auth now' (Some tokv) db'))))
    /\ ((forall t, In t (rows (session_tokens (store db))) -> t_token t <> tokv) ->
        get_user_by_token now tokv db = (Ok None, db)
        /\ Unauthorized (fst (require_auth now (Some tokv) db)))
    /\ (forall tok,
        In tok (rows (session_tokens (store db))) -> t_token tok = tokv ->
        now <= t_expires_at tok ->
        (forall u, In u (rows (users (store db))) -> u_id u = t_user_id tok ->
                   u_is_active u = false) ->
        get_user_by_token now tokv db = (Ok None, db)
        /\ Unauthorized (fst (require_auth now (Some tokv) db))).
Proof.
  intros now tokv db Hu. split; [|split].
  - intros tok Hin Hv Hexp Hf db'. subst tokv db'.
    pose proof (get_user_by_token_expired now db tok Hu Hin Hexp Hf) as Hrun.
    assert (Hgone : forall t,
               In t (rows (session_tokens (delete_session_token tok (store db)))) ->
               t_token t <> t_token tok).
    { simpl. intros t Ht. now apply (deleted_token_gone _ tok t Hu). }
    split; [exact Hrun|]. split; [now apply (require_auth_of_none _ _ _ _ Hrun)|].
    split; [|split; [|split]].
    + intros Hne. unfold require_auth.
      destruct (String.eqb (t_token tok) "") eqn:E;
        [apply String.eqb_eq in E; contradiction|].
      unfold bind. now rewrite Hrun.
    + simpl. intros Hin'. apply filter_In in Hin'. destruct Hin' as [_ Hin'].
      rewrite Z.eqb_refl in Hin'. discriminate.
    + exact Hgone.
    + intros now'.
      assert (Habs : get_user_by_token now' (t_token tok)
                       (mkDb (delete_session_token tok (store db)) (tl (faults db)))
                     = (Ok None, mkDb (delete_session_token tok (store db))
                                      (tl (faults db))))
        by (apply get_user_by_token_absent; exact Hgone).
      split; [exact Habs | now apply (require_auth_of_none _ _ _ _ Habs)].
  - intros Habsent.
    pose proof (get_user_by_token_absent now tokv db Habsent) as Hrun.
    split; [exact Hrun | now apply (require_auth_of_none _ _ _ _ Hrun)].
  - intros tok Hin Hv Hle Hinactive. subst tokv.
    assert (Hrun : get_user_by_token now (t_token tok) db = (Ok None, db)).
    { unfold get_user_by_token, bind, query, first, ret.
      rewrite (first_token_of db tok Hu Hin). simpl.
      rewrite (proj2 (Z.ltb_ge _ _) Hle).
      rewrite filter_nil_iff; [reflexivity|].
      intros u Hu'. destruct (u_id u =? t_user_id tok) eqn:E; [|reflexivity].
      apply Z.eqb_eq in E. now rewrite (Hinactive u Hu' E). }
    split; [exact Hrun | now apply (require_auth_of_none _ _ _ _ Hrun)].
Qed.

Lemma resolve_rejects_expired_witness :
  let db' := mkDb (delete_session_token stale_token auth_store) [] in
  get_user_by_token 200 "tok-stale" auth_db = (Ok None, db')
  /\ Unauthorized (fst (require_auth 200 (Some "tok-stale"%string) auth_db))
  /\ ~ In stale_token (rows (session_tokens (store db')))
  /\ (forall now', Unauthorized (fst (require_auth now' (Some "tok-stale"%string) db')))
  /\ Unauthorized (fst (require_auth 200 (Some "tok-unknown"%string) auth_db))
  /\ Unauthorized (fst (require_auth 200 (Some "tok-dormant"%string) auth_db)).
Proof.
  destruct (resolve_rejects_expired_absent_inactive 200 "tok-stale" auth_db
              sample_tokens_unique) as [Hexp _].
  destruct (resolve_rejects_expired_absent_inactive 200 "tok-unknown" auth_db
              sample_tokens_unique) as [_ [Habs _]].
  destruct (resolve_rejects_expired_absent_inactive 200 "tok-dormant" auth_db
              sample_tokens_unique) as [_ [_ Hina]].
  assert (H := Hexp stale_token (or_introl eq_refl) eq_refl eq_refl eq_refl).
  cbv zeta in H. destruct H as (H1 & H2 & _ & H4 & _ & H6).
  cbv zeta.
  refine (conj H1 (conj H2 (conj H4 (conj (fun n => proj2 (H6 n)) (conj _ _))))).
  - apply Habs. simpl. intros t [<-|[<-|[<-|[<-|[]]]]]; discriminate.
  - apply (Hina dormant_token); [simpl; auto | reflexivity | simpl; lia |].
    simpl. intros u Hin E.
    repeat (destruct Hin as [<- | Hin]; [simpl in *; try discriminate; reflexivity|]).
    contradiction.
Defined.

(** C8: the expiry test is strict.  A token presented at the very instant of
    its expiry (and any time before) is kept and resolves to its active
    account; only a token that expired strictly earlier is deleted and
    rejected. *)
Theorem token_expiry_is_strict :
  forall (now : Z) (tokv : string) (db : Db) (tok : SessionToken),
    unique_on t_token (rows (session_tokens (store db))) ->
    In tok (rows (session_tokens (store db))) ->
    t_token tok = tokv ->
    (forall u,
        unique_on u_id (rows (users (store db))) ->
        In u (rows (users (store db))) -> u_id u = t_user_id tok ->
        u_is_active u = true ->
        (t_expires_at tok = now -> get_user_by_token now tokv db = (Ok (Some u), db))
        /\ (now <= t_expires_at tok -> get_user_by_token now tokv db = (Ok (Some u), db)))
    /\ (now <= t_expires_at tok -> snd (get_user_by_token now tokv db) = db)
    /\ (t_expires_at tok < now -> hd false (faults db) = false ->
        fst (get_user_by_token now tokv db) = Ok None
        /\ ~ In tok (rows (session_tokens (store (snd (get_user_by_token now tokv db)))))).
Proof.
  intros now tokv db tok Hu Hin Hv. subst tokv.
  assert (Hkeep : forall u,
             unique_on u_id (rows (users (store db))) ->
             In u (rows (users (store db))) -> u_id u = t_user_id tok ->
             u_is_active u = true -> now <= t_expires_at tok ->
             get_user_by_token now (t_token tok) db = (Ok (Some u), db)).
  { intros u Hpk Hiu Hid Hact Hle.
    unfold get_user_by_token, bind, query, first, ret.
    rewrite (first_token_of db tok Hu Hin). simpl.
    rewrite (proj2 (Z.ltb_ge _ _) Hle).
    rewrite filter_andb, <- Hid, (filter_id_unique u_id _ u Hpk Hiu). simpl.
    now rewrite Hact. }
  split; [|split].
  - intros u Hpk Hiu Hid Hact. split; intros Ht; apply Hkeep; auto; lia.
  - intros Hle. unfold get_user_by_token, bind, query, first, ret.
    rewrite (first_token_of db tok Hu Hin). simpl.
    now rewrite (proj2 (Z.ltb_ge _ _) Hle).
  - intros Hlt Hf. rewrite (get_user_by_token_expired now db tok Hu Hin Hlt Hf).
    simpl. split; [reflexivity|].
    intros Hin'. apply filter_In in Hin'. destruct Hin' as [_ Hin'].
    rewrite Z.eqb_refl in Hin'. discriminate.
Qed.

Lemma token_expiry_is_strict_witness :
  get_user_by_token 900 "tok-live" auth_db = (Ok (Some sample_parent), auth_db)
  /\ snd (get_user_by_token 900 "tok-live" auth_db) = auth_db
  /\ fst (get_user_by_token 901 "tok-live" auth_db) = Ok None
  /\ ~ In live_token
       (rows (session_tokens (store (snd (get_user_by_token 901 "tok-live" auth_db))))).
Proof.
  destruct (token_expiry_is_strict 900 "tok-live" auth_db live_token
              sample_tokens_unique) as (Hacc & Hkeep & _);
    [simpl; auto | reflexivity |].
  destruct (token_expiry_is_strict 901 "tok-live" auth_db live_token
              sample_tokens_unique) as (_ & _ & Hdel);
    [simpl; auto | reflexivity |].
  destruct (Hacc sample_parent sample_users_unique) as [Heq _];
    [simpl; auto | reflexivity | reflexivity |].
  destruct Hdel as [Hd1 Hd2]; [simpl; lia | reflexivity |].
  refine (conj (Heq eq_refl) (conj (Hkeep _) (conj Hd1 Hd2))).
  simpl. lia.
Defined.

(** ** Role authorization *)

Lemma require_role_match (role : string) (user : User) (db : Db) :
  u_role user = role -> require_role role user db = (Ok user, db).
Proof.
  intros <-. unfold require_role. now rewrite String.eqb_refl.
Qed.

Lemma require_role_mismatch (role : string) (user : User) (db : Db) :
  u_role user <> role ->
  require_role role user db
  = (Raise (HTTPException 403 ("Requires role '" ++ role ++ "'")), db).
Proof.
  intros Hne. unfold require_role.
  now rewrite (proj2 (String.eqb_neq _ _) Hne).
Qed.

(** C3: the role check succeeds, returning the account, exactly when the
    account's role string equals the required one; any other role is refused
    with 403.  There is no hierarchy: an authenticated admin is refused with
    403 on every parent-only route, the schedule view included. *)
Theorem require_role_exact_match :
  (forall (role : string) (user : User) (db : Db),
      (require_role role user db = (Ok user, db) <-> u_role user = role)
      /\ ((exists a, fst (require_role role user db) = Ok a) <-> u_role user = role)
      /\ (u_role user <> role ->
          Forbidden (fst (require_role role user db))
          /\ snd (require_role role user db) = db))
  /\ (forall cfg pwd now token_value credentials req db account db1,
         parent_only req = true ->
         require_auth now credentials db = (Ok account, db1) ->
         u_role account = "admin"%string ->
         Forbidden (fst (app cfg pwd now token_value credentials req db))
         /\ snd (app cfg pwd now token_value credentials req db) = db1).
Proof.
  split.
  - intros role user db.
    destruct (string_dec (u_role user) role) as [E | N].
    + rewrite (require_role_match role user db E). simpl.
      split; [tauto|]. split; [|contradiction].
      split; [auto | intros _; now exists user].
    + rewrite (require_role_mismatch role user db N). simpl.
      split; [|split].
      * split; [discriminate | contradiction].
      * split; [intros [a Ha]; discriminate | contradiction].
      * intros _. split; [eexists; reflexivity | reflexivity].
  - intros cfg pwd now token_value credentials req db account db1 Hp Hauth Hrole.
    assert (Hchk : require_role "parent" account db1
                   = (Raise (HTTPException 403 "Requires role 'parent'"), db1)).
    { apply (require_role_mismatch "parent" account db1).
      rewrite Hrole. discriminate. }
    destruct req; try discriminate Hp; unfold app, protected, bind;
      rewrite Hauth, Hchk; simpl; (split; [eexists; reflexivity | reflexivity]).
Qed.

Lemma require_role_exact_match_witness :
  require_role "admin" sample_admin auth_db = (Ok sample_admin, auth_db)
  /\ Forbidden (fst (require_role "parent" sample_admin auth_db))
  /\ Forbidden (fst (app default_config sample_pwd 200 "unused"
                         (Some "tok-admin"%string) (GetParentSchedule None None) auth_db)).
Proof.
  destruct require_role_exact_match as [Hrole Hroute].
  destruct (Hrole "admin"%string sample_admin auth_db) as (Hiff & _ & _).
  destruct (Hrole "parent"%string sample_admin auth_db) as (_ & _ & Hforb).
  refine (conj (proj2 Hiff eq_refl) (conj (proj1 (Hforb _)) _)).
  - simpl. discriminate.
  - apply (Hroute default_config sample_pwd 200 "unused"%string (Some "tok-admin"%string)
                  (GetParentSchedule None None) auth_db sample_admin auth_db);
      reflexivity.
Defined.

(** ** Enrollment creation *)

(** C9: whatever the request, an enrollment created by [parent_enroll] starts
    with status pending and no notes; the request body carries only the camper
    and the camp year, and the stored row is the one returned. *)
Theorem parent_enroll_starts_pending :
  forall (payload : EnrollmentCreate) (user : User) (db db' : Db) (enr : Enrollment),
    parent_enroll payload user db = (Ok enr, db') ->
    e_status enr = "pending"%string
    /\ e_notes enr = None
    /\ e_camper_id enr = ec_camper_id payload
    /\ rows (enrollments (store db')) = rows (enrollments (store db)) ++ [enr].
Proof.
  intros payload user db db' enr H.
  unfold parent_enroll, ensure_parent_owns_camper, get_or_create_camp_year in H.
  unfold_session.
  repeat (break_match; simpl in *; try discriminate);
    repeat match goal with
           | E : (_, _) = (_, _) |- _ => inversion E; clear E; subst
           end;
    simpl; auto.
Qed.

Lemma parent_enroll_starts_pending_witness :
  exists enr db',
    parent_enroll (mkEnrollmentCreate 2 2026) sample_parent family_db = (Ok enr, db')
    /\ e_status enr = "pending"%string
    /\ e_notes enr = None
    /\ rows (enrollments (store db')) = [ann_enrollment; enr].
Proof.
  eexists. eexists.
  assert (H : parent_enroll (mkEnrollmentCreate 2 2026) sample_parent family_db
              = (Ok (mkEnrollment 2 1 2 "pending" None),
                 snd (parent_enroll (mkEnrollmentCreate 2 2026) sample_parent family_db)))
    by reflexivity.
  destruct (parent_enroll_starts_pending _ _ _ _ _ H) as (H1 & H2 & _ & H4).
  exact (conj H (conj H1 (conj H2 H4))).
Defined.
(** ** Event creation *)

Lemma admin_create_event_group (payload : GroupEventCreate) (db : Db) (g : Group) :
  In g (rows (groups (store db))) -> g_id g = gec_group_id payload ->
  admin_create_event payload db
  = match datetime_leb (gec_end_time payload) (gec_start_time payload) with
    | None =>
        raise (TypeError "can't compare offset-naive and offset-aware datetimes") db
    | Some true => raise (HTTPException 400 "end_time must be after start_time") db
    | Some false =>
        add_group_event (event_of_payload 0 payload) db
    end.
Proof.
  intros Hg Hid. unfold admin_create_event, bind, query.
  destruct (first_filter_some (fun g => g_id g =? gec_group_id payload) _ g Hg) as [g' ->];
    [now apply Z.eqb_eq|].
  now destruct (datetime_leb _ _) as [[|]|].
Qed.


Lemma datetime_leb_mixed (a b : datetime) :
  ~ comparable b a -> datetime_leb a b = None.
Proof. destruct a, b; simpl; intros H; solve [reflexivity | exfalso; now apply H]. Qed.




(** X19: [admin_create_event] compares [end_time] with [start_time] as the
    request gives them.  The schema admits a [datetime] with an offset beside
    one without, and Python refuses to order the two: for an existing group
    the call then ends in a [TypeError], which no handler turns into an
    answer of the API (a 500), whichever of the two carries the offset and
    however far apart the times are; nothing is stored.  It is no 400, no 404
    and no success. *)
Theorem admin_create_event_mixed_datetimes_raise_type_error :
  forall (payload : GroupEventCreate) (db : Db) (g : Group),
    In g (rows (groups (store db))) -> g_id g = gec_group_id payload ->
    ~ comparable (gec_start_time payload) (gec_end_time payload) ->
    admin_create_event payload db
    = (Raise (TypeError "can't compare offset-naive and offset-aware datetimes"), db)
    /\ ~ BadRequest (fst (admin_create_event payload db))
    /\ ~ NotFound (fst (admin_create_event payload db))
    /\ (forall ev, fst (admin_create_event payload db) <> Ok ev).
Proof.
  intros payload db g Hg Hid Hmixed.
  rewrite (admin_create_event_group payload db g Hg Hid).
  rewrite (datetime_leb_mixed _ _ Hmixed). unfold raise. simpl.
  split; [reflexivity|].
  split; [intros [d Hd]; discriminate|].
  split; [intros [d Hd]; discriminate|].
  intros ev Hev. discriminate.
Qed.

Lemma admin_create_event_type_error_witness :
  admin_create_event
    (mkGroupEventCreate 1 "Yoga" None None (Naive 28800000000) (Aware 32400000000))
    family_db
  = (Raise (TypeError "can't compare offset-naive and offset-aware datetimes"), family_db)
  /\ admin_create_event
       (mkGroupEventCreate 1 "Yoga" None None (Aware 28800000000) (Naive 32400000000))
       family_db
     = (Raise (TypeError "can't compare offset-naive and offset-aware datetimes"),
        family_db).
Proof.
  split.
  - apply (admin_create_event_mixed_datetimes_raise_type_error
             (mkGroupEventCreate 1 "Yoga" None None (Naive 28800000000) (Aware 32400000000))
             family_db otters (or_introl eq_refl) eq_refl).
    simpl. intros H. exact H.
  - apply (admin_create_event_mixed_datetimes_raise_type_error
             (mkGroupEventCreate 1 "Yoga" None None (Aware 28800000000) (Naive 32400000000))
             family_db otters (or_introl eq_refl) eq_refl).
    simpl. intros H. exact H.
Defined.

(** ** Group creation *)

Lemma existsb_true_in {A : Type} (p : A -> bool) (l : list A) (x : A) :
  In x l -> p x = true -> existsb p l = true.
Proof. intros Hin Hp. apply existsb_exists. now exists x. Qed.

(** C6, what the code does on a duplicate group name: [admin_create_group]
    has no lookup of its own, so the duplicate reaches the storage constraint
    [uq_group_year_name]; the commit raises [IntegrityError], which is not an
    HTTP failure of the Conflict kind, and the table keeps its rows. *)
Theorem admin_create_group_duplicate_raises_integrity_error :
  forall (payload : GroupCreate) (db : Db) (cyr : CampYear) (g : Group),
    unique_on cy_year (rows (camp_years (store db))) ->
    In cyr (rows (camp_years (store db))) -> cy_year cyr = gc_camp_year payload ->
    In g (rows (groups (store db))) ->
    g_camp_year_id g = cy_id cyr -> g_name g = gc_name payload ->
    hd false (faults db) = false ->
    fst (admin_create_group payload db) = Raise (IntegrityError "uq_group_year_name")
    /\ ~ Conflict (fst (admin_create_group payload db))
    /\ store (snd (admin_create_group payload db)) = store db.
Proof.
  intros payload db cyr g Hu Hcy Hy Hg Hgy Hgn Hf.
  assert (E : admin_create_group payload db
              = (Raise (IntegrityError "uq_group_year_name"),
                 mkDb (store db) (tl (faults db)))).
  { unfold admin_create_group, get_or_create_camp_year, bind, query, ret, first.
    rewrite <- Hy, (filter_id_unique cy_year _ cyr Hu Hcy). simpl.
    unfold add_group, add_commit_refresh, bind, query, commit, group_violated,
      first_violation. simpl.
    rewrite (existsb_true_in _ _ g Hg).
    - destruct (faults db) as [|[|] fs]; simpl in *; try discriminate; reflexivity.
    - rewrite Hgy, Hgn, Z.eqb_refl, String.eqb_refl. reflexivity. }
  rewrite E. simpl. split; [reflexivity|]. split; [|reflexivity].
  intros (status & detail & Hr & _). discriminate.
Qed.

Lemma admin_create_group_duplicate_witness :
  fst (admin_create_group (mkGroupCreate 2026 "Otters" None) family_db)
  = Raise (IntegrityError "uq_group_year_name")
  /\ ~ Conflict (fst (admin_create_group (mkGroupCreate 2026 "Otters" None) family_db))
  /\ rows (groups (store (snd (admin_create_group (mkGroupCreate 2026 "Otters" None)
                                                  family_db))))
     = [otters; hawks].
Proof.
  destruct (admin_create_group_duplicate_raises_integrity_error
              (mkGroupCreate 2026 "Otters" None) family_db year_2026 otters)
    as (H1 & H2 & H3).
  - unfold unique_on. simpl. repeat constructor. simpl. tauto.
  - simpl. auto.
  - reflexivity.
  - simpl. auto.
  - reflexivity.
  - reflexivity.
  - reflexivity.
  - refine (conj H1 (conj H2 _)). now rewrite H3.
Defined.

(** ** Adding a child *)

(** C5 as stated fails: when the storage engine accepts the first commit and
    refuses the second, the call fails and the camper row stays behind,
    without a link. *)
Lemma parent_add_child_not_atomic :
  fst (parent_add_child (mkCamperCreate "Dee" "Lee" None None) sample_parent
                        flaky_family_db)
  = Raise OperationalError
  /\ rows (campers (store (snd (parent_add_child (mkCamperCreate "Dee" "Lee" None None)
                                                 sample_parent flaky_family_db))))
     = [ann; bob; cy; mkCamper 4 "Dee" "Lee" None None]
  /\ rows (parent_campers
             (store (snd (parent_add_child (mkCamperCreate "Dee" "Lee" None None)
                                           sample_parent flaky_family_db))))
     = rows (parent_campers family_store)
  /\ ~ parent_add_child_atomic.
Proof.
  split; [reflexivity|]. split; [reflexivity|]. split; [reflexivity|].
  intros Hatomic.
  assert (H := Hatomic (mkCamperCreate "Dee" "Lee" None None) sample_parent
                       flaky_family_db
                       (mkDb (camper_committed (mkCamperCreate "Dee" "Lee" None None)
                                               family_store) [])
                       OperationalError eq_refl).
  apply (f_equal (fun s => List.length (rows (campers s)))) in H.
  vm_compute in H. discriminate.
Qed.

(** C5, amended: [parent_add_child] commits twice.  A refused camper insert
    leaves the store untouched; once the camper insert is accepted, a failure
    of the link insert fails the call with the camper row committed and no
    link; when both inserts are accepted, both rows are stored and the link
    joins the caller to the new camper. *)
Theorem parent_add_child_commits_twice :
  forall (payload : CamperCreate) (user : User) (db : Db),
    let s1 := camper_committed payload (store db) in
    let camper := camper_of_payload (next_id (campers (store db))) payload in
    (hd false (faults db) = true ->
     fst (parent_add_child payload user db) = Raise OperationalError
     /\ store (snd (parent_add_child payload user db)) = store db)
    /\ (hd false (faults db) = false ->
        (forall e, fst (parent_add_child payload user db) = Raise e ->
                   store (snd (parent_add_child payload user db)) = s1)
        /\ (forall link, fst (parent_add_child payload user db) = Ok link ->
              link = mkParentCamper (next_id (parent_campers (store db)))
                                    (u_id user) (c_id camper)
              /\ store (snd (parent_add_child payload user db))
                 = with_parent_campers
                     (mkTable (rows (parent_campers (store db)) ++ [link])
                              (next_id (parent_campers (store db)) + 1))
                     s1)).
Proof.
  intros payload user db s1 camper. subst s1 camper.
  unfold parent_add_child, camper_committed, camper_of_payload.
  unfold_session. unfold camper_violated.
  destruct (faults db) as [|f1 fs]; simpl.
  - split; [discriminate|]. intros _.
    destruct (parent_camper_violated _ _) eqn:V; simpl;
      (split; [intros e He | intros link Hl]); try discriminate; try reflexivity.
    inversion Hl; subst. split; reflexivity.
  - destruct f1; simpl.
    + split; [intros _; split; reflexivity | discriminate].
    + split; [discriminate|]. intros _.
      destruct fs as [|[|] fs']; simpl;
        try (destruct (parent_camper_violated _ _) eqn:V; simpl);
        (split; [intros e He | intros link Hl]); try discriminate; try reflexivity;
        inversion Hl; subst; split; reflexivity.
Qed.

Lemma parent_add_child_commits_twice_witness :
  store (snd (parent_add_child (mkCamperCreate "Dee" "Lee" None None) sample_parent
                               flaky_family_db))
  = camper_committed (mkCamperCreate "Dee" "Lee" None None) family_store
  /\ rows (parent_campers
             (store (snd (parent_add_child (mkCamperCreate "Dee" "Lee" None None)
                                           sample_parent family_db))))
     = rows (parent_campers family_store) ++ [mkParentCamper 4 2 4].
Proof.
  assert (H1 := parent_add_child_commits_twice
                  (mkCamperCreate "Dee" "Lee" None None) sample_parent flaky_family_db).
  assert (H2 := parent_add_child_commits_twice
                  (mkCamperCreate "Dee" "Lee" None None) sample_parent family_db).
  cbv zeta in H1, H2.
  destruct H1 as [_ H1]. destruct (H1 eq_refl) as [Hfail _].
  destruct H2 as [_ H2]. destruct (H2 eq_refl) as [_ Hok].
  destruct (Hok (mkParentCamper 4 2 4) eq_refl) as [_ Hs].
  split.
  - exact (Hfail OperationalError eq_refl).
  - rewrite Hs. reflexivity.
Defined.

(** ** Ownership enforcement *)

Lemma no_link_filter (p a : Z) (s : Store) :
  no_link p a s ->
  filter (fun pc => (pc_parent_user_id pc =? p) && (pc_camper_id pc =? a))
         (rows (parent_campers s)) = [].
Proof.
  intros H. apply filter_nil_iff. intros pc Hin.
  destruct (pc_parent_user_id pc =? p) eqn:E1; [|reflexivity].
  destruct (pc_camper_id pc =? a) eqn:E2; [|reflexivity].
  apply Z.eqb_eq in E1. apply Z.eqb_eq in E2. exfalso. now apply (H pc Hin).
Qed.

Lemma ensure_parent_owns_camper_refuses (p a : Z) (db : Db) :
  no_link p a (store db) ->
  ensure_parent_owns_camper p a db
  = (Raise (HTTPException 403 "Parent does not own this camper"), db).
Proof.
  intros H. unfold ensure_parent_owns_camper, bind, query, raise, first.
  now rewrite (no_link_filter p a (store db) H).
Qed.

Lemma no_link_not_owned (p a : Z) (s : Store) :
  no_link p a s ->
  mem a (map pc_camper_id
             (filter (fun pc => pc_parent_user_id pc =? p) (rows (parent_campers s))))
  = false.
Proof.
  intros H. unfold mem.
  destruct (existsb _ _) eqn:E; [|reflexivity].
  apply existsb_exists in E. destruct E as (x & Hx & Hax).
  apply in_map_iff in Hx. destruct Hx as (pc & Hpc & Hin).
  apply filter_In in Hin. destruct Hin as [Hin Hp].
  apply Z.eqb_eq in Hp. apply Z.eqb_eq in Hax. subst x.
  exfalso. apply (H pc Hin). auto.
Qed.

(** C4 as stated fails: Quinn owns no camper at all, and the schedule filtered
    on Ann (whom Quinn does not own) is the empty list, not a 403. *)
Lemma schedule_filter_of_childless_parent_not_forbidden :
  no_link (u_id sample_quinn) (c_id ann) family_store
  /\ parent_view_schedule (Some (c_id ann)) None sample_quinn family_db
     = (Ok [], family_db)
  /\ ~ schedule_filter_always_forbidden.
Proof.
  assert (Hno : no_link (u_id sample_quinn) (c_id ann) family_store).
  { intros pc Hin [Hp _]. simpl in Hin.
    repeat (destruct Hin as [<- | Hin]; [simpl in Hp; discriminate|]). contradiction. }
  split; [exact Hno|]. split; [reflexivity|].
  intros Hall.
  destruct (Hall sample_quinn (c_id ann) None family_db Hno) as [detail Hd].
  vm_compute in Hd. discriminate.
Qed.

(** C4, amended: for a parent and a camper without ownership link, creating
    an enrollment for the camper and updating an existing enrollment of the
    camper fail with 403, and so does the schedule view filtered on the camper
    whenever the parent owns at least one camper; a parent who owns no camper
    gets the empty schedule.  None of these calls changes the session. *)
Theorem unowned_camper_is_forbidden :
  forall (user : User) (a : Z) (db : Db),
    no_link (u_id user) a (store db) ->
    (forall payload, ec_camper_id payload = a ->
       Forbidden (fst (parent_enroll payload user db))
       /\ snd (parent_enroll payload user db) = db)
    /\ (forall enr payload,
          In enr (rows (enrollments (store db))) ->
          unique_on e_id (rows (enrollments (store db))) ->
          e_camper_id enr = a ->
          Forbidden (fst (parent_update_enrollment (e_id enr) payload user db))
          /\ snd (parent_update_enrollment (e_id enr) payload user db) = db)
    /\ (forall camp_year,
          (forall pc, In pc (rows (parent_campers (store db))) ->
                      pc_parent_user_id pc = u_id user ->
                      Forbidden (fst (parent_view_schedule (Some a) camp_year user db))
                      /\ snd (parent_view_schedule (Some a) camp_year user db) = db)
          /\ ((forall pc, In pc (rows (parent_campers (store db))) ->
                          pc_parent_user_id pc <> u_id user) ->
              parent_view_schedule (Some a) camp_year user db = (Ok [], db))).
Proof.
  intros user a db Hno. split; [|split].
  - intros payload Ha. unfold parent_enroll, bind.
    rewrite Ha, (ensure_parent_owns_camper_refuses _ _ _ Hno). simpl.
    split; [eexists; reflexivity | reflexivity].
  - intros enr payload Hin Hpk Ha. unfold parent_update_enrollment, bind, query, first.
    rewrite (filter_id_unique e_id _ enr Hpk Hin). simpl.
    rewrite Ha, (ensure_parent_owns_camper_refuses _ _ _ Hno). simpl.
    split; [eexists; reflexivity | reflexivity].
  - intros camp_year. split.
    + intros pc Hin Hp. unfold parent_view_schedule, bind, query, raise.
      destruct (map pc_camper_id _) as [|c cs] eqn:E.
      * exfalso.
        assert (Hf : In pc (filter (fun pc => pc_parent_user_id pc =? u_id user)
                                   (rows (parent_campers (store db)))))
          by (apply filter_In; split; [assumption | now apply Z.eqb_eq]).
        apply (in_map pc_camper_id) in Hf. rewrite E in Hf. contradiction.
      * rewrite <- E, (no_link_not_owned _ _ _ Hno). simpl.
        split; [eexists; reflexivity | reflexivity].
    + intros Hnone. unfold parent_view_schedule, bind, query, ret.
      rewrite filter_nil_iff; [reflexivity|].
      intros pc Hin. apply Z.eqb_neq. now apply Hnone.
Qed.

Lemma unowned_camper_is_forbidden_witness :
  Forbidden (fst (parent_enroll (mkEnrollmentCreate 1 2027) sample_quinn family_db))
  /\ snd (parent_enroll (mkEnrollmentCreate 1 2027) sample_quinn family_db) = family_db
  /\ Forbidden (fst (parent_update_enrollment 1 (mkEnrollmentUpdate "withdrawn" None)
                                              sample_quinn family_db))
  /\ Forbidden (fst (parent_view_schedule (Some 1) None sample_robin family_db))
  /\ parent_view_schedule (Some 1) None sample_quinn family_db = (Ok [], family_db).
Proof.
  assert (Hq : no_link (u_id sample_quinn) 1 (store family_db)).
  { intros pc Hin [Hp _]. simpl in Hin.
    repeat (destruct Hin as [<- | Hin]; [simpl in Hp; discriminate|]). contradiction. }
  assert (Hr : no_link (u_id sample_robin) 1 (store family_db)).
  { intros pc Hin [Hp Hc]. simpl in Hin.
    repeat (destruct Hin as [<- | Hin]; [simpl in Hp, Hc; discriminate|]). contradiction. }
  destruct (unowned_camper_is_forbidden sample_quinn 1 family_db Hq) as (He & Hu & Hs).
  destruct (unowned_camper_is_forbidden sample_robin 1 family_db Hr) as (_ & _ & Hs').
  destruct (He (mkEnrollmentCreate 1 2027) eq_refl) as [He1 He2].
  refine (conj He1 (conj He2 (conj _ (conj _ _)))).
  - apply (Hu ann_enrollment (mkEnrollmentUpdate "withdrawn" None)).
    + simpl. auto.
    + unfold unique_on. simpl. repeat constructor. simpl. tauto.
    + reflexivity.
  - apply (proj1 (Hs' None) (mkParentCamper 3 5 3)).
    + simpl. auto.
    + reflexivity.
  - apply (proj2 (Hs None)). simpl. intros pc Hin.
    repeat (destruct Hin as [<- | Hin]; [simpl; discriminate|]). contradiction.
Defined.

(** ** Roles of the accounts *)

Section Preservation.

Variable I : Store -> Prop.

Lemma preserves_ret {A : Type} (a : A) : preserves I (ret a).
Proof. intros db H. exact H. Qed.

Lemma preserves_raise {A : Type} (e : error) : preserves I (@raise A e).
Proof. intros db H. exact H. Qed.

Lemma preserves_query {A : Type} (q : Store -> A) : preserves I (query q).
Proof. intros db H. exact H. Qed.

Lemma preserves_bind {A B : Type} (m : M A) (k : A -> M B) :
  preserves I m -> (forall a, preserves I (k a)) -> preserves I (bind m k).
Proof.
  intros Hm Hk db H. unfold bind.
  specialize (Hm db H).
  destruct (m db) as [[a | e] db1]; simpl in *; [now apply Hk | assumption].
Qed.

Lemma preserves_commit (violated : Store -> option string) (apply : Store -> Store) :
  (forall s, I s -> I (apply s)) -> preserves I (commit violated apply).
Proof.
  intros Hap db H. unfold commit.
  destruct (faults db) as [|[|] fs]; simpl;
    destruct (violated (store db)); simpl; auto.
Qed.

Lemma preserves_add {A : Type} (tbl : Store -> Table A) (upd : Table A -> Store -> Store)
    (set_id : Z -> A -> A) (violated : A -> Store -> option string) (x : A) :
  (forall t s, I s -> I (upd t s)) ->
  preserves I (add_commit_refresh tbl upd set_id violated x).
Proof.
  intros Hupd. unfold add_commit_refresh.
  apply preserves_bind; [apply preserves_query | intros s].
  apply preserves_bind; [|intros _; apply preserves_ret].
  apply preserves_commit. intros s0. apply Hupd.
Qed.

Lemma preserves_refused {A : Type} (e : error) : preserves I (@refused A e).
Proof.
  intros db H. unfold refused.
  destruct (faults db) as [|[|] fs]; simpl; assumption.
Qed.

Lemma preserves_add_group_event (ev : GroupEvent) :
  (forall t s, I s -> I (with_group_events t s)) ->
  preserves I (add_group_event ev).
Proof.
  intros Hupd. unfold add_group_event.
  destruct (fits 255 (ev_title ev) && fits_opt 255 (ev_location ev)).
  - now apply preserves_add.
  - apply preserves_refused.
Qed.

Lemma preserves_fmap {A B : Type} (f : A -> B) (m : M A) :
  preserves I m -> preserves I (fmap f m).
Proof.
  intros Hm. unfold fmap. apply preserves_bind; [assumption|].
  intros a. apply preserves_ret.
Qed.

End Preservation.

Ltac preserve_step :=
  match goal with
  | |- preserves _ (bind _ _) => apply preserves_bind; [|intros ?]
  | |- preserves _ (fmap _ _) => apply preserves_fmap
  | |- preserves _ (ret _) => apply preserves_ret
  | |- preserves _ (raise _) => apply preserves_raise
  | |- preserves _ (query _) => apply preserves_query
  | |- preserves _ (match ?x with _ => _ end) => destruct x
  end.

Lemma role_invariant_users_only (cfg : Config) : users_only (role_invariant cfg).
Proof. intros s s' E H u Hu. apply H. now rewrite <- E. Qed.

Lemma role_invariant_add_user (cfg : Config) (x : User) :
  u_role x = "parent"%string
  \/ (u_email x = APP_SEED_ADMIN_EMAIL cfg /\ u_role x = "admin"%string) ->
  preserves (role_invariant cfg) (add_user x).
Proof.
  intros Hx db H. unfold add_user, add_commit_refresh, commit, query, bind, ret.
  destruct (faults db) as [|[|] fs]; simpl;
    try match goal with
        | |- context [user_violated ?a ?b] => destruct (user_violated a b)
        end; simpl; auto;
    intros u Hu; simpl in Hu; apply in_app_iff in Hu;
    (destruct Hu as [Hu | [<- | []]]; [now apply H | exact Hx]).
Qed.

Section AccountInvariant.

Variable cfg : Config.
Variable pwd : CryptContext.

Variable I : Store -> Prop.

Hypothesis I_users_only : users_only I.
Hypothesis I_parent :
  forall x, u_role x = "parent"%string -> preserves I (add_user x).
Hypothesis I_admin :
  forall x, u_email x = APP_SEED_ADMIN_EMAIL cfg -> u_role x = "admin"%string ->
            preserves I (add_user x).

Ltac other_table :=
  intros ? ? ?; eapply I_users_only; [|eassumption]; reflexivity.

Lemma get_user_by_token_keeps now tokv : preserves I (get_user_by_token now tokv).
Proof.
  unfold get_user_by_token. repeat preserve_step.
  apply preserves_commit. unfold delete_session_token.
  intros st Hst. eapply I_users_only; [|exact Hst]. reflexivity.
Qed.

Lemma require_auth_keeps now credentials : preserves I (require_auth now credentials).
Proof.
  unfold require_auth. repeat preserve_step.
  apply get_user_by_token_keeps.
Qed.

Lemma protected_keeps {A : Type} role now credentials (handler : User -> M A) :
  (forall u, preserves I (handler u)) ->
  preserves I (protected role now credentials handler).
Proof.
  intros Hh. unfold protected, require_role. repeat preserve_step; auto.
  apply require_auth_keeps.
Qed.

Lemma add_camp_year_keeps x : preserves I (add_camp_year x).
Proof. apply preserves_add. other_table. Qed.

Lemma get_or_create_camp_year_keeps y : preserves I (get_or_create_camp_year y).
Proof.
  unfold get_or_create_camp_year. repeat preserve_step. apply add_camp_year_keeps.
Qed.

Lemma register_parent_keeps payload : preserves I (register_parent pwd payload).
Proof.
  unfold register_parent. repeat preserve_step.
  apply I_parent. reflexivity.
Qed.

Lemma admin_create_parent_keeps payload : preserves I (admin_create_parent pwd payload).
Proof.
  unfold admin_create_parent. repeat preserve_step.
  apply I_parent. reflexivity.
Qed.

Lemma login_keeps now tokv payload : preserves I (login cfg pwd tokv now payload).
Proof.
  unfold login, create_token. repeat preserve_step.
  apply preserves_add. other_table.
Qed.

Lemma parent_add_child_keeps payload user : preserves I (parent_add_child payload user).
Proof.
  unfold parent_add_child. repeat preserve_step; apply preserves_add; other_table.
Qed.

Lemma parent_enroll_keeps payload user : preserves I (parent_enroll payload user).
Proof.
  unfold parent_enroll, ensure_parent_owns_camper. repeat preserve_step.
  - apply get_or_create_camp_year_keeps.
  - apply preserves_add. other_table.
Qed.

Lemma parent_update_enrollment_keeps i payload user :
  preserves I (parent_update_enrollment i payload user).
Proof.
  unfold parent_update_enrollment, ensure_parent_owns_camper. repeat preserve_step.
  apply preserves_commit. unfold update_enrollment.
  intros st Hst. eapply I_users_only; [|exact Hst]. reflexivity.
Qed.

Lemma admin_create_group_keeps payload : preserves I (admin_create_group payload).
Proof.
  unfold admin_create_group. repeat preserve_step.
  - apply get_or_create_camp_year_keeps.
  - apply preserves_add. other_table.
Qed.

Lemma admin_add_group_member_keeps g payload :
  preserves I (admin_add_group_member g payload).
Proof.
  unfold admin_add_group_member. repeat preserve_step.
  apply preserves_add. other_table.
Qed.

Lemma admin_create_event_keeps payload : preserves I (admin_create_event payload).
Proof.
  unfold admin_create_event. repeat preserve_step.
  apply preserves_add_group_event. other_table.
Qed.

Lemma parent_view_schedule_keeps c y user : preserves I (parent_view_schedule c y user).
Proof. unfold parent_view_schedule. repeat preserve_step. Qed.

Lemma parent_list_enrollments_keeps user y : preserves I (parent_list_enrollments user y).
Proof. unfold parent_list_enrollments. repeat preserve_step. Qed.

Lemma app_keeps now tokv credentials req :
  preserves I (app cfg pwd now tokv credentials req).
Proof.
  destruct req; unfold app;
    try (apply protected_keeps; intros u);
    apply preserves_fmap.
  - apply register_parent_keeps.
  - apply login_keeps.
  - unfold me. repeat preserve_step. apply require_auth_keeps.
  - apply admin_create_parent_keeps.
  - apply preserves_add. other_table.
  - apply preserves_query.
  - apply parent_add_child_keeps.
  - apply preserves_query.
  - apply parent_enroll_keeps.
  - apply parent_list_enrollments_keeps.
  - apply parent_update_enrollment_keeps.
  - apply admin_create_group_keeps.
  - apply preserves_query.
  - apply admin_add_group_member_keeps.
  - apply admin_create_event_keeps.
  - apply preserves_query.
  - apply parent_view_schedule_keeps.
Qed.

Lemma seed_keeps : preserves I (seed_admin_and_year cfg pwd).
Proof.
  unfold seed_admin_and_year. repeat preserve_step.
  - apply add_camp_year_keeps.
  - apply I_admin; reflexivity.
Qed.

End AccountInvariant.

Lemma app_roles (cfg : Config) (pwd : CryptContext) now tokv credentials req :
  preserves (role_invariant cfg) (app cfg pwd now tokv credentials req).
Proof.
  apply app_keeps.
  - apply role_invariant_users_only.
  - intros x Hx. apply role_invariant_add_user. now left.
Qed.

Lemma seed_roles (cfg : Config) (pwd : CryptContext) :
  preserves (role_invariant cfg) (seed_admin_and_year cfg pwd).
Proof.
  apply seed_keeps.
  - apply role_invariant_users_only.
  - intros x Hmail Hrole. apply role_invariant_add_user. now right.
Qed.

Lemma created_parent_shape (x : User) (db db' : Db) (u : User) :
  add_user x db = (Ok u, db') ->
  u_role u = u_role x /\ u_is_active u = u_is_active x
  /\ rows (users (store db')) = rows (users (store db)) ++ [u].
Proof.
  unfold add_user, add_commit_refresh, commit, query, bind, ret. intros H.
  repeat (break_match; simpl in *; try discriminate);
    repeat match goal with
           | E : (_, _) = (_, _) |- _ => inversion E; clear E; subst
           end;
    simpl; auto.
Qed.

(** An account with an unused email is stored when the storage engine accepts
    the commit. *)
Lemma add_user_accepted (x : User) (db : Db) :
  (forall y, In y (rows (users (store db))) -> u_email y <> u_email x) ->
  hd false (faults db) = false ->
  exists db', add_user x db = (Ok (set_user_id (next_id (users (store db))) x), db').
Proof.
  intros Hnew Hacc.
  unfold add_user, add_commit_refresh, commit, query, bind, ret,
    user_violated, first_violation. simpl.
  rewrite existsb_none; [|intros y Hy; apply String.eqb_neq; now apply Hnew].
  simpl. destruct (faults db) as [|[|] fs]; simpl in *; try discriminate;
    eexists; reflexivity.
Qed.

(** C10: public registration and the admin's parent creation both store an
    account with role parent and the active flag set: whatever either returns
    is such an account, appended to the accounts, and either does return one,
    carrying the email, name and password hash of the request, whenever the
    email is unused and the storage engine accepts the commit.  With them,
    every operation of the system keeps the property that every account, the
    seeded admin apart, is a parent: it holds of the empty store, the startup
    seeding and every request preserve it, so it holds in every reachable
    session. *)
Theorem accounts_are_parents_except_seeded_admin :
  forall (cfg : Config) (pwd : CryptContext),
    (forall payload db u db',
        register_parent pwd payload db = (Ok u, db') ->
        u_role u = "parent"%string /\ u_is_active u = true
        /\ rows (users (store db')) = rows (users (store db)) ++ [u])
    /\ (forall payload db u db',
           admin_create_parent pwd payload db = (Ok u, db') ->
           u_role u = "parent"%string /\ u_is_active u = true
           /\ rows (users (store db')) = rows (users (store db)) ++ [u])
    /\ (forall payload db,
           (forall x, In x (rows (users (store db))) -> u_email x <> rp_email payload) ->
           accepts_next db ->
           exists db',
             register_parent pwd payload db
             = (Ok (mkUser (next_id (users (store db))) (rp_email payload)
                           (rp_full_name payload)
                           (hash_password pwd (rp_password payload)) "parent" true),
                db'))
    /\ (forall payload db,
           (forall x, In x (rows (users (store db))) -> u_email x <> pcr_email payload) ->
           accepts_next db ->
           exists db',
             admin_create_parent pwd payload db
             = (Ok (mkUser (next_id (users (store db))) (pcr_email payload)
                           (pcr_full_name payload)
                           (hash_password pwd (pcr_password payload)) "parent" true),
                db'))
    /\ role_invariant cfg empty_store
    /\ preserves (role_invariant cfg) (seed_admin_and_year cfg pwd)
    /\ (forall now token_value credentials req,
           preserves (role_invariant cfg) (app cfg pwd now token_value credentials req))
    /\ (forall db, reachable cfg pwd db -> role_invariant cfg (store db)).
Proof.
  intros cfg pwd. split; [|split; [|split; [|split; [|split; [|split; [|split]]]]]].
  - intros payload db u db' H. unfold register_parent, bind, query, raise in H.
    destruct (first _) in H; [discriminate|].
    now apply created_parent_shape in H.
  - intros payload db u db' H. unfold admin_create_parent, bind, query, raise in H.
    destruct (first _) in H; [discriminate|].
    now apply created_parent_shape in H.
  - intros payload db Hnew Hacc. unfold register_parent, bind, query.
    rewrite filter_nil_iff; [|intros x Hx; apply String.eqb_neq; now apply Hnew].
    simpl. apply add_user_accepted; assumption.
  - intros payload db Hnew Hacc. unfold admin_create_parent, bind, query.
    rewrite filter_nil_iff; [|intros x Hx; apply String.eqb_neq; now apply Hnew].
    simpl. apply add_user_accepted; assumption.
  - intros u Hu. simpl in Hu. contradiction.
  - apply seed_roles.
  - intros now token_value credentials req. apply app_roles.
  - intros db Hr. induction Hr as [fs | db now tokv cred req Hr IH | db fs Hr IH].
    + apply seed_roles. intros u Hu. simpl in Hu. contradiction.
    + now apply app_roles.
    + exact IH.
Qed.

Lemma family_roles : role_invariant default_config family_store.
Proof.
  intros u Hu. simpl in Hu.
  repeat (destruct Hu as [<- | Hu]; [simpl; auto|]). contradiction.
Qed.

Lemma family_email_unused (email : string) :
  existsb (fun u => String.eqb (u_email u) email) (rows (users family_store)) = false ->
  forall x, In x (rows (users (store family_db))) -> u_email x <> email.
Proof.
  intros H x Hx. apply String.eqb_neq.
  exact (existsb_false_forall _ _ H x Hx).
Qed.

Lemma accounts_are_parents_witness :
  (exists db',
      register_parent sample_pwd (mkRegisterParentRequest "sam@example.org" "secret9" "Sam")
                      family_db
      = (Ok (mkUser 6 "sam@example.org" "Sam" "bcrypt$secret9" "parent" true), db')
      /\ rows (users (store db'))
         = rows (users family_store)
           ++ [mkUser 6 "sam@example.org" "Sam" "bcrypt$secret9" "parent" true])
  /\ (exists db',
         admin_create_parent sample_pwd (mkParentCreate "tess@example.org" "secret8" "Tess")
                             family_db
         = (Ok (mkUser 6 "tess@example.org" "Tess" "bcrypt$secret8" "parent" true), db')
         /\ rows (users (store db'))
            = rows (users family_store)
              ++ [mkUser 6 "tess@example.org" "Tess" "bcrypt$secret8" "parent" true])
  /\ role_invariant default_config
       (store (snd (app default_config sample_pwd 200 "unused" (Some "tok-admin"%string)
                        (PostAdminParents (mkParentCreate "tess@example.org" "secret8" "Tess"))
                        family_db))).
Proof.
  destruct (accounts_are_parents_except_seeded_admin default_config sample_pwd)
    as (Hreg & Hadm & Hreg_ok & Hadm_ok & _ & _ & Happ & _).
  split; [|split].
  - destruct (Hreg_ok (mkRegisterParentRequest "sam@example.org" "secret9" "Sam") family_db
                      (family_email_unused "sam@example.org" eq_refl) eq_refl)
      as [db' H].
    exists db'. split; [exact H|].
    exact (proj2 (proj2 (Hreg _ _ _ _ H))).
  - destruct (Hadm_ok (mkParentCreate "tess@example.org" "secret8" "Tess") family_db
                      (family_email_unused "tess@example.org" eq_refl) eq_refl)
      as [db' H].
    exists db'. split; [exact H|].
    exact (proj2 (proj2 (Hadm _ _ _ _ H))).
  - apply Happ. exact family_roles.
Defined.

(** ** The schedule view: ordering *)

Section OrderBy.

Context {A : Type} (key : A -> Z).

Let le_key (x y : A) : Prop := key x <= key y.

Lemma insert_asc_In (x y : A) (l : list A) :
  In y (insert_asc key x l) -> y = x \/ In y l.
Proof.
  induction l as [|z l IH]; simpl.
  - intros [<- | []]. now left.
  - destruct (key x <? key z); simpl.
    + intros [<- | H]; auto.
    + intros [<- | H]; auto. destruct (IH H); auto.
Qed.

Lemma insert_asc_sorted (x : A) (l : list A) :
  StronglySorted le_key l -> StronglySorted le_key (insert_asc key x l).
Proof.
  induction 1 as [|z l Hs IH Hall]; simpl.
  - constructor; constructor.
  - destruct (key x <? key z) eqn:E.
    + apply Z.ltb_lt in E. constructor; [now constructor|].
      constructor; [unfold le_key; lia|].
      rewrite Forall_forall in *. intros y Hy. specialize (Hall y Hy).
      unfold le_key in *. lia.
    + apply Z.ltb_ge in E. constructor; [assumption|].
      rewrite Forall_forall in *. intros y Hy.
      destruct (insert_asc_In _ _ _ Hy) as [-> | Hy']; [exact E | now apply Hall].
Qed.

Lemma order_by_asc_sorted (l : list A) : StronglySorted le_key (order_by_asc key l).
Proof.
  induction l as [|x l IH]; simpl; [constructor | now apply insert_asc_sorted].
Qed.

End OrderBy.

Lemma StronglySorted_map {A B : Type} (f : A -> B) (R : B -> B -> Prop) (l : list A) :
  StronglySorted (fun x y => R (f x) (f y)) l -> StronglySorted R (map f l).
Proof.
  induction 1 as [|x l Hs IH Hall]; simpl; constructor; [assumption|].
  rewrite Forall_forall in *. intros y Hy.
  apply in_map_iff in Hy. destruct Hy as (z & <- & Hz). now apply Hall.
Qed.






Lemma parent_view_schedule_reads_only camper_id camp_year user db :
  snd (parent_view_schedule camper_id camp_year user db) = db.
Proof.
  unfold parent_view_schedule, bind, query, ret, raise.
  destruct (map pc_camper_id _) as [|c cs]; [reflexivity|].
  destruct camper_id as [cid|]; [destruct (negb _)|]; reflexivity.
Qed.

(** ** The schedule view: joins, dictionaries and permutations *)

Lemma mem_true_iff (x : Z) (l : list Z) : mem x l = true <-> In x l.
Proof.
  unfold mem. rewrite existsb_exists. split.
  - intros (y & Hy & E). apply Z.eqb_eq in E. now subst.
  - intros H. exists x. split; [assumption | apply Z.eqb_refl].
Qed.

Lemma NoDup_map_filter {A K : Type} (f : A -> K) (p : A -> bool) (l : list A) :
  NoDup (map f l) -> NoDup (map f (filter p l)).
Proof.
  induction l as [|x l IH]; simpl; intros H; [constructor|].
  inversion H as [|? ? Hnotin Hnd]; subst.
  destruct (p x); simpl; [|now apply IH].
  constructor; [|now apply IH].
  intros Hin. apply Hnotin. apply in_map_iff in Hin. destruct Hin as (y & E & Hy).
  apply filter_In in Hy. rewrite <- E. apply in_map. tauto.
Qed.


(** *** Joins along foreign keys *)

Lemma join_cons {A B : Type} (on : A -> B -> bool) (a : A) (l : list A) (r : list B) :
  join on (a :: l) r = map (pair a) (filter (on a) r) ++ join on l r.
Proof. reflexivity. Qed.

Lemma join_In {A B : Type} (on : A -> B -> bool) (l : list A) (r : list B) (a : A) (b : B) :
  In (a, b) (join on l r) -> In a l /\ In b r /\ on a b = true.
Proof.
  unfold join. intros H. apply in_flat_map in H. destruct H as (a' & Ha' & H).
  apply in_map_iff in H. destruct H as (b' & E & Hb'). inversion E; subst.
  apply filter_In in Hb'. tauto.
Qed.

(** When every left row has exactly one partner the join keeps the left rows
    as they are. *)
Lemma join_total {A B : Type} (on : A -> B -> bool) (l : list A) (r : list B) :
  (forall a, In a l -> exists b, filter (on a) r = [b]) ->
  map fst (join on l r) = l.
Proof.
  induction l as [|a l IH]; intros H; [reflexivity|].
  rewrite join_cons, map_app, IH by (intros a' Ha'; apply H; now right).
  destruct (H a (or_introl eq_refl)) as [b ->]. reflexivity.
Qed.

Lemma events_joined_wf (s : Store) :
  wf_store s -> map event_of (events_joined s) = rows (group_events s).
Proof.
  intros Hwf. unfold events_joined.
  assert (E : forall l : list (GroupEvent * Group * CampYear),
             map event_of l = map fst (map fst l))
    by (intros l; rewrite map_map; reflexivity).
  rewrite E, join_total, join_total; [reflexivity | |].
  - intros ev Hev.
    destruct (fk_group_events_group s Hwf ev Hev) as (g & Hg & Hid).
    exists g. rewrite <- Hid. apply filter_id_unique; [apply (pk_groups s Hwf) | assumption].
  - intros [ev g] Heg. apply join_In in Heg. destruct Heg as (_ & Hg & _).
    destruct (fk_groups_camp_year s Hwf g Hg) as (cyr & Hcy & Hid).
    exists cyr. simpl. rewrite <- Hid.
    apply filter_id_unique; [apply (pk_camp_years s Hwf) | assumption].
Qed.

Lemma map_filter_comm {A B : Type} (f : A -> B) (p : B -> bool) (l : list A) :
  map f (filter (fun x => p (f x)) l) = filter p (map f l).
Proof.
  induction l as [|x l IH]; simpl; [reflexivity|].
  destruct (p (f x)); simpl; now rewrite IH.
Qed.

Lemma map_insert_asc {A B : Type} (f : A -> B) (key : B -> Z) (x : A) (l : list A) :
  map f (insert_asc (fun a => key (f a)) x l) = insert_asc key (f x) (map f l).
Proof.
  induction l as [|y l IH]; simpl; [reflexivity|].
  destruct (key (f x) <? key (f y)); simpl; [reflexivity | now rewrite IH].
Qed.

Lemma map_order_by_asc {A B : Type} (f : A -> B) (key : B -> Z) (l : list A) :
  map f (order_by_asc (fun a => key (f a)) l) = order_by_asc key (map f l).
Proof.
  induction l as [|x l IH]; simpl; [reflexivity|].
  now rewrite map_insert_asc, IH.
Qed.


(** *** Dictionaries *)






(** *** The group ids of a list of memberships *)






(** ** The schedule view: the two-camper family *)

Section Family.

Variable s : Store.
Variables (A B : Camper) (G1 G2 : Group) (E1 E2 : GroupEvent) (p : Z).

Hypothesis Hwf : wf_store s.
Hypothesis HA : In A (rows (campers s)).
Hypothesis HB : In B (rows (campers s)).
Hypothesis HAB : c_id A <> c_id B.
Hypothesis HG1 : In G1 (rows (groups s)).
Hypothesis HG2 : In G2 (rows (groups s)).
Hypothesis HG12 : g_id G1 <> g_id G2.
Hypothesis Hown : forall c, owns s p c <-> c = c_id A \/ c = c_id B.
Hypothesis HmemA : forall g, is_member s (c_id A) g <-> g = g_id G1.
Hypothesis HmemB : forall g, is_member s (c_id B) g <-> g = g_id G1 \/ g = g_id G2.
Hypothesis Hev1 :
  forall ev, In ev (rows (group_events s)) /\ ev_group_id ev = g_id G1 <-> ev = E1.
Hypothesis Hev2 :
  forall ev, In ev (rows (group_events s)) /\ ev_group_id ev = g_id G2 <-> ev = E2.
Hypothesis Hstart : ev_start_time E1 < ev_start_time E2.

Let camper_ids : list Z :=
  map pc_camper_id (filter (fun pc => pc_parent_user_id pc =? p) (rows (parent_campers s))).

Let memberships : list GroupMembership :=
  filter (fun m => mem (gm_camper_id m) camper_ids) (rows (group_memberships s)).










End Family.


Lemma family_store_wf : wf_store family_store.
Proof.
  constructor; unfold unique_on; simpl;
    try (repeat constructor; simpl; intuition discriminate).
  - intros g [<- | [<- | []]]; exists year_2026; simpl; auto.
  - intros ev [<- | [<- | []]]; [exists hawks | exists otters]; simpl; auto.
Qed.






(** * Further properties of the handlers *)

(** ** Insertions *)

Section AddCommitRefresh.

Context {A : Type} (tbl : Store -> Table A) (upd : Table A -> Store -> Store)
        (set_id : Z -> A -> A) (violated : A -> Store -> option string).

Lemma add_commit_refresh_ok (x : A) (db : Db) :
  accepts_next db ->
  violated (set_id (next_id (tbl (store db))) x) (store db) = None ->
  add_commit_refresh tbl upd set_id violated x db
  = (Ok (set_id (next_id (tbl (store db))) x),
     mkDb (upd (appended tbl (set_id (next_id (tbl (store db))) x) (store db)) (store db))
          (tl (faults db))).
Proof.
  unfold accepts_next, add_commit_refresh, commit, query, bind, ret, appended.
  intros Hf Hv. simpl. rewrite Hv.
  destruct (faults db) as [|[|] fs]; simpl in *; try discriminate; reflexivity.
Qed.

Lemma add_commit_refresh_inv (x y : A) (db db' : Db) :
  add_commit_refresh tbl upd set_id violated x db = (Ok y, db') ->
  y = set_id (next_id (tbl (store db))) x
  /\ violated y (store db) = None
  /\ store db' = upd (appended tbl y (store db)) (store db).
Proof.
  unfold add_commit_refresh, commit, query, bind, ret, appended. simpl.
  destruct (faults db) as [|[|] fs]; simpl;
    try destruct (violated _ (store db)) eqn:V; simpl; intros H; inversion H; subst;
    simpl; auto.
Qed.

Lemma add_commit_refresh_raise (x : A) (e : error) (db db' : Db) :
  add_commit_refresh tbl upd set_id violated x db = (Raise e, db') ->
  store db' = store db.
Proof.
  unfold add_commit_refresh, commit, query, bind, ret. simpl.
  destruct (faults db) as [|[|] fs]; simpl;
    try destruct (violated _ (store db)) eqn:V; simpl; intros H; inversion H; subst;
    reflexivity.
Qed.

End AddCommitRefresh.

Lemma filter_app_last {A : Type} (p : A -> bool) (l : list A) (x : A) :
  filter p (l ++ [x]) = filter p l ++ (if p x then [x] else []).
Proof. rewrite filter_app. reflexivity. Qed.

Lemma first_violation_none_cons (ok : bool) (name : string) (cs : list (bool * string)) :
  first_violation ((ok, name) :: cs) = None <-> ok = true /\ first_violation cs = None.
Proof.
  simpl. destruct ok; split; try tauto; try discriminate. intros [H _]. discriminate.
Qed.

Lemma unique_on_inj {A K : Type} (key : A -> K) (l : list A) (x y : A) :
  unique_on key l -> In x l -> In y l -> key x = key y -> x = y.
Proof.
  unfold unique_on. induction l as [|z l IH]; simpl; intros Hnd Hx Hy E; [contradiction|].
  inversion Hnd as [|? ? Hnotin Hnd']; subst.
  destruct Hx as [-> | Hx], Hy as [-> | Hy]; auto.
  - exfalso. apply Hnotin. rewrite E. now apply in_map.
  - exfalso. apply Hnotin. rewrite <- E. now apply in_map.
Qed.

Lemma add_group_event_ok_inv (x ev : GroupEvent) (db db' : Db) :
  add_group_event x db = (Ok ev, db') ->
  fits 255 (ev_title x) && fits_opt 255 (ev_location x) = true
  /\ add_commit_refresh group_events with_group_events set_group_event_id
       group_event_violated x db = (Ok ev, db').
Proof.
  unfold add_group_event.
  destruct (fits 255 (ev_title x) && fits_opt 255 (ev_location x)); [auto|].
  unfold refused. destruct (faults db) as [|[|] fs]; discriminate.
Qed.

(** ** Authentication and routing *)

Lemma require_auth_raises (now : Z) (credentials : option string) (db db1 : Db) (e : error) :
  require_auth now credentials db = (Raise e, db1) ->
  (exists detail, e = HTTPException 401 detail) \/ e = OperationalError.
Proof.
  unfold require_auth, get_user_by_token, bind, query, ret, raise, commit, first.
  intros H.
  repeat (break_match; simpl in *; try discriminate);
    repeat match goal with
           | E : (_, _) = (_, _) |- _ => inversion E; clear E; subst
           end;
    eauto.
Qed.

(** X1: a route that depends on [require_auth] does not run its handler when
    the bearer token fails to resolve: the answer and the session are those
    of [require_auth], the failure being a 401 (or the storage error of the
    clean-up commit); without credentials, or with the empty token, the
    answer is 401 and the session is left as it was. *)
Theorem unresolved_token_stops_the_request :
  forall cfg pwd now token_value credentials req db,
    public_route req = false ->
    (forall e db1,
        require_auth now credentials db = (Raise e, db1) ->
        app cfg pwd now token_value credentials req db = (Raise e, db1)
        /\ ((exists detail, e = HTTPException 401 detail) \/ e = OperationalError))
    /\ (credentials = None \/ credentials = Some ""%string ->
        app cfg pwd now token_value credentials req db
        = (Raise (HTTPException 401 "Not authenticated"), db)).
Proof.
  intros cfg pwd now token_value credentials req db Hpub.
  assert (Hstop : forall e db1,
             require_auth now credentials db = (Raise e, db1) ->
             app cfg pwd now token_value credentials req db = (Raise e, db1)).
  { intros e db1 Hauth.
    destruct req; try discriminate Hpub; unfold app, protected, fmap, bind;
      rewrite Hauth; reflexivity. }
  split.
  - intros e db1 Hauth. split; [now apply Hstop | now apply require_auth_raises in Hauth].
  - intros [-> | ->]; apply Hstop; reflexivity.
Qed.

Lemma unresolved_token_witness :
  app default_config sample_pwd 200 "unused" None (GetParentSchedule None None) family_db
  = (Raise (HTTPException 401 "Not authenticated"), family_db)
  /\ fst (app default_config sample_pwd 200 "unused" (Some "tok-stale"%string)
              (PostAdminCampers (mkCamperCreate "Dee" "Lee" None None)) family_db)
     = Raise (HTTPException 401 "Invalid or expired token").
Proof.
  destruct (unresolved_token_stops_the_request default_config sample_pwd 200 "unused"
              None (GetParentSchedule None None) family_db eq_refl) as [_ Hnone].
  destruct (unresolved_token_stops_the_request default_config sample_pwd 200 "unused"
              (Some "tok-stale"%string)
              (PostAdminCampers (mkCamperCreate "Dee" "Lee" None None)) family_db eq_refl)
    as [Hstop _].
  split.
  - apply Hnone. now left.
  - destruct (Hstop (HTTPException 401 "Invalid or expired token")
                    (snd (require_auth 200 (Some "tok-stale"%string) family_db)) eq_refl)
      as [-> _].
    reflexivity.
Defined.

(** X2: on a route that declares a role, an authenticated account with any
    other role is answered 403, naming the required role, and the handler
    does not run: the session is the one [require_auth] left. *)
Theorem wrong_role_is_forbidden :
  forall cfg pwd now token_value credentials req db role account db1,
    required_role req = Some role ->
    require_auth now credentials db = (Ok account, db1) ->
    u_role account <> role ->
    app cfg pwd now token_value credentials req db
    = (Raise (HTTPException 403 ("Requires role '" ++ role ++ "'")), db1).
Proof.
  intros cfg pwd now token_value credentials req db role account db1 Hreq Hauth Hrole.
  destruct req; simpl in Hreq; inversion Hreq; subst role;
    unfold app, protected, bind; rewrite Hauth;
    rewrite (require_role_mismatch _ account db1 Hrole); reflexivity.
Qed.

Lemma wrong_role_is_forbidden_witness :
  app default_config sample_pwd 200 "unused" (Some "tok-live"%string)
      (PostAdminGroups (mkGroupCreate 2027 "Foxes" None)) family_db
  = (Raise (HTTPException 403 "Requires role 'admin'"), family_db).
Proof.
  apply (wrong_role_is_forbidden default_config sample_pwd 200 "unused"%string
           (Some "tok-live"%string) (PostAdminGroups (mkGroupCreate 2027 "Foxes" None))
           family_db "admin"%string sample_parent family_db).
  - reflexivity.
  - reflexivity.
  - simpl. discriminate.
Defined.

(** X3: [login] gives one and the same answer, 401 "Invalid credentials",
    when no active account has the email (unknown or deactivated) and when
    the password does not verify; it stores no token in either case. *)
Theorem login_failures_are_indistinguishable :
  forall cfg pwd token_value now payload db,
    ((forall u, In u (rows (users (store db))) -> u_email u = lr_email payload ->
                u_is_active u = false)
     \/ (exists u, unique_on u_email (rows (users (store db)))
                   /\ In u (rows (users (store db)))
                   /\ u_email u = lr_email payload
                   /\ verify_password pwd (lr_password payload) (u_password_hash u) = false)) ->
    login cfg pwd token_value now payload db
    = (Raise (HTTPException 401 "Invalid credentials"), db).
Proof.
  intros cfg pwd token_value now payload db [Hnone | (u & Huq & Hin & Hmail & Hver)];
    unfold login, bind, query, raise, first.
  - rewrite filter_nil_iff; [reflexivity|].
    intros u Hu. destruct (String.eqb (u_email u) (lr_email payload)) eqn:E; [|reflexivity].
    apply String.eqb_eq in E. now rewrite (Hnone u Hu E).
  - rewrite filter_andb, <- Hmail.
    rewrite (filter_unique u_email String.eqb string_eqb_iff _ u Huq Hin). simpl.
    destruct (Bool.eqb (u_is_active u) true); simpl; [|reflexivity].
    now rewrite Hver.
Qed.

Lemma sample_emails_unique : unique_on u_email (rows (users family_store)).
Proof. unfold unique_on; simpl. repeat constructor; simpl; intuition discriminate. Qed.

Lemma login_failures_witness :
  login default_config sample_pwd "t1" 200 (mkLoginRequest "nobody@example.org" "x") family_db
  = (Raise (HTTPException 401 "Invalid credentials"), family_db)
  /\ login default_config sample_pwd "t1" 200 (mkLoginRequest "old@example.org" "secret2")
           family_db
     = (Raise (HTTPException 401 "Invalid credentials"), family_db)
  /\ login default_config sample_pwd "t1" 200 (mkLoginRequest "pat@example.org" "wrong")
           family_db
     = (Raise (HTTPException 401 "Invalid credentials"), family_db).
Proof.
  split; [|split]; apply login_failures_are_indistinguishable.
  - left. simpl. intros u Hin E.
    repeat (destruct Hin as [<- | Hin]; [simpl in E; discriminate|]). contradiction.
  - left. simpl. intros u Hin E.
    repeat (destruct Hin as [<- | Hin]; [simpl in E; try discriminate; reflexivity|]).
    contradiction.
  - right. exists sample_parent. split; [exact sample_emails_unique|].
    split; [simpl; auto|]. split; reflexivity.
Defined.

(** X4: a successful [login] stores a token that expires [TOKEN_TTL_MINUTES]
    after the login and, until that instant included, resolves to the
    account that logged in; past that instant it resolves to no account. *)
Theorem login_token_resolves_until_expiry :
  forall cfg pwd token_value now payload db u,
    unique_on u_id (rows (users (store db))) ->
    unique_on u_email (rows (users (store db))) ->
    In u (rows (users (store db))) ->
    u_email u = lr_email payload -> u_is_active u = true ->
    verify_password pwd (lr_password payload) (u_password_hash u) = true ->
    (forall t, In t (rows (session_tokens (store db))) -> t_token t <> token_value) ->
    token_value <> ""%string ->
    accepts_next db ->
    let expires := now + minutes (TOKEN_TTL_MINUTES cfg) in
    exists db',
      login cfg pwd token_value now payload db
      = (Ok (mkTokenResponse token_value "bearer" expires), db')
      /\ (forall now', now' <= expires ->
                       require_auth now' (Some token_value) db' = (Ok u, db'))
      /\ (forall now' account, expires < now' ->
                       fst (require_auth now' (Some token_value) db') <> Ok account).
Proof.
  intros cfg pwd token_value now payload db u Hpk Huq Hin Hmail Hact Hver Hfresh Hne Hacc
         expires.
  set (tok := mkSessionToken (next_id (session_tokens (store db))) token_value (u_id u)
                             expires).
  assert (Hviol : session_token_violated tok (store db) = None).
  { unfold session_token_violated, first_violation. simpl.
    rewrite (has_id_true u_id _ _ u Hin eq_refl).
    destruct (existsb _ _) eqn:E; [|reflexivity].
    apply existsb_exists in E. destruct E as (t & Ht & Et).
    apply String.eqb_eq in Et. exfalso. now apply (Hfresh t Ht). }
  pose proof (add_commit_refresh_ok session_tokens with_session_tokens set_token_id
                session_token_violated
                (mkSessionToken 0 token_value (u_id u) expires) db Hacc Hviol) as Hadd.
  set (db' := mkDb (with_session_tokens (appended session_tokens tok (store db)) (store db))
                   (tl (faults db))).
  exists db'.
  assert (Hlogin : login cfg pwd token_value now payload db
                   = (Ok (mkTokenResponse token_value "bearer" expires), db')).
  { unfold login, bind, query, first.
    rewrite filter_andb, <- Hmail.
    rewrite (filter_unique u_email String.eqb string_eqb_iff _ u Huq Hin). simpl.
    rewrite Hact. simpl. rewrite Hver. simpl.
    unfold create_token. fold expires. rewrite Hadd. reflexivity. }
  assert (Hfind : filter (fun t => String.eqb (t_token t) token_value)
                         (rows (session_tokens (store db'))) = [tok]).
  { simpl. rewrite filter_app_last. simpl. rewrite String.eqb_refl.
    rewrite absent_token_filter by assumption. reflexivity. }
  assert (Hnonempty : String.eqb token_value "" = false) by now apply String.eqb_neq.
  split; [exact Hlogin|]. split.
  - intros now' Hle. unfold require_auth, get_user_by_token, bind, query, ret, first.
    rewrite Hnonempty, Hfind. simpl.
    rewrite (proj2 (Z.ltb_ge _ _) Hle).
    change (users (store db')) with (users (store db)).
    change (t_user_id tok) with (u_id u).
    rewrite filter_andb, (filter_id_unique u_id _ u Hpk Hin). simpl.
    now rewrite Hact.
  - intros now' account Hlt. unfold require_auth, get_user_by_token, bind, query, ret,
      raise, commit, first.
    rewrite Hnonempty, Hfind. simpl.
    rewrite (proj2 (Z.ltb_lt _ _) Hlt).
    destruct (tl (faults db)) as [|[|] fs]; simpl; discriminate.
Qed.

Lemma login_token_resolves_witness :
  exists db',
    login default_config sample_pwd "tok-new" 1000 (mkLoginRequest "pat@example.org" "secret1")
          family_db
    = (Ok (mkTokenResponse "tok-new" "bearer" 43200001000), db')
    /\ require_auth 43200001000 (Some "tok-new"%string) db' = (Ok sample_parent, db')
    /\ fst (require_auth 43200001001 (Some "tok-new"%string) db') <> Ok sample_parent.
Proof.
  destruct (login_token_resolves_until_expiry default_config sample_pwd "tok-new"%string 1000
              (mkLoginRequest "pat@example.org" "secret1") family_db sample_parent)
    as (db' & Hlogin & Hlive & Hdead).
  - unfold unique_on; simpl. repeat constructor; simpl; intuition discriminate.
  - exact sample_emails_unique.
  - simpl. auto.
  - reflexivity.
  - reflexivity.
  - reflexivity.
  - simpl. intros t Hin.
    repeat (destruct Hin as [<- | Hin]; [simpl; discriminate|]). contradiction.
  - discriminate.
  - reflexivity.
  - exists db'. split; [exact Hlogin|]. split.
    + apply Hlive. simpl. unfold minutes. simpl. lia.
    + apply Hdead. simpl. unfold minutes. simpl. lia.
Defined.

(** X5: resolving a token removes at most the one record it found expired: a
    session with another token value, or not yet expired, survives every
    resolution, no record is ever added, and no other table changes. *)
Theorem resolve_spares_other_sessions :
  forall now tokv db,
    unique_on t_id (rows (session_tokens (store db))) ->
    (forall t, In t (rows (session_tokens (store db))) ->
               t_token t <> tokv \/ now <= t_expires_at t ->
               In t (rows (session_tokens (store (snd (get_user_by_token now tokv db))))))
    /\ (forall t, In t (rows (session_tokens (store (snd (get_user_by_token now tokv db)))))
                  -> In t (rows (session_tokens (store db))))
    /\ with_session_tokens (session_tokens (store db))
                           (store (snd (get_user_by_token now tokv db)))
       = store db.
Proof.
  intros now tokv db Hpk.
  unfold get_user_by_token, bind, query, ret, commit.
  destruct (first _) as [tok|] eqn:Hfirst; simpl; [|destruct (store db); auto].
  destruct (t_expires_at tok <? now) eqn:Hexp; simpl; [|destruct (store db); auto].
  apply first_filter_sound in Hfirst. destruct Hfirst as [Htok Hval].
  apply String.eqb_eq in Hval. apply Z.ltb_lt in Hexp.
  destruct (faults db) as [|[|] fs]; simpl; try (destruct (store db); now auto).
  - split; [|split].
    + intros t Ht Hkeep. apply filter_In. split; [assumption|].
      apply negb_true_iff, Z.eqb_neq. intros E.
      assert (t = tok) by (eapply unique_on_inj; eauto). subst t.
      destruct Hkeep; [contradiction | lia].
    + intros t Ht. apply filter_In in Ht. tauto.
    + destruct (store db); reflexivity.
  - split; [|split].
    + intros t Ht Hkeep. apply filter_In. split; [assumption|].
      apply negb_true_iff, Z.eqb_neq. intros E.
      assert (t = tok) by (eapply unique_on_inj; eauto). subst t.
      destruct Hkeep; [contradiction | lia].
    + intros t Ht. apply filter_In in Ht. tauto.
    + destruct (store db); reflexivity.
Qed.

Lemma resolve_spares_witness :
  In live_token
     (rows (session_tokens (store (snd (get_user_by_token 200 "tok-stale" family_db)))))
  /\ In admin_token
        (rows (session_tokens (store (snd (get_user_by_token 200 "tok-stale" family_db))))).
Proof.
  destruct (resolve_spares_other_sessions 200 "tok-stale" family_db) as (Hkeep & _ & _).
  - unfold unique_on; simpl. repeat constructor; simpl; intuition discriminate.
  - split; apply Hkeep; simpl; auto; left; discriminate.
Defined.

(** ** Accounts and camp years *)

Lemma add_user_inv (x u : User) (db db' : Db) :
  add_user x db = (Ok u, db') ->
  u_email u = u_email x
  /\ rows (users (store db')) = rows (users (store db)) ++ [u].
Proof.
  unfold add_user. intros H. apply add_commit_refresh_inv in H.
  destruct H as (-> & _ & ->). simpl. auto.
Qed.

Lemma register_parent_taken pwd payload db u :
  In u (rows (users (store db))) -> u_email u = rp_email payload ->
  register_parent pwd payload db
  = (Raise (HTTPException 400 "Email already registered"), db).
Proof.
  intros Hin Hmail. unfold register_parent, bind, query, raise.
  destruct (first_filter_some (fun x => String.eqb (u_email x) (rp_email payload)) _ u Hin)
    as [u' ->]; [now apply String.eqb_eq | reflexivity].
Qed.

Lemma admin_create_parent_taken pwd payload db u :
  In u (rows (users (store db))) -> u_email u = pcr_email payload ->
  admin_create_parent pwd payload db
  = (Raise (HTTPException 400 "Email already exists"), db).
Proof.
  intros Hin Hmail. unfold admin_create_parent, bind, query, raise.
  destruct (first_filter_some (fun x => String.eqb (u_email x) (pcr_email payload)) _ u Hin)
    as [u' ->]; [now apply String.eqb_eq | reflexivity].
Qed.

(** No request and no restart removes or rewrites an account. *)
Lemma account_is_kept (cfg : Config) (pwd : CryptContext) (u : User) (db db' : Db) :
  later cfg pwd db db' ->
  In u (rows (users (store db))) -> In u (rows (users (store db'))).
Proof.
  assert (Honly : users_only (fun s => In u (rows (users s))))
    by (intros s s' E H; now rewrite E).
  assert (Hadd : forall x, preserves (fun s => In u (rows (users s))) (add_user x)).
  { intros x db0 H. unfold add_user, add_commit_refresh, commit, query, bind, ret.
    destruct (faults db0) as [|[|] fs]; simpl;
      try match goal with
          | |- context [user_violated ?a ?b] => destruct (user_violated a b)
          end; simpl; auto; apply in_app_iff; now left. }
  intros Hlater Hin.
  induction Hlater as [|db1 now tokv cred req _ IH|db1 _ IH|db1 fs _ IH].
  - exact Hin.
  - apply (app_keeps cfg pwd (fun s => In u (rows (users s))) Honly
                     (fun x _ => Hadd x)); exact IH.
  - apply (seed_keeps cfg pwd (fun s => In u (rows (users s))) Honly
                      (fun x _ _ => Hadd x)); exact IH.
  - exact IH.
Qed.

(** X6: an email is taken for good.  Once an account holds an email, by
    public registration or by the admin's creation, the account stays stored
    through every later request, restart and change of the storage engine,
    and every later attempt to register or create an account with that same
    email is refused with 400 and stores nothing. *)
Theorem email_is_taken_for_good :
  forall cfg pwd db u db',
    ((exists payload, register_parent pwd payload db = (Ok u, db'))
     \/ (exists payload, admin_create_parent pwd payload db = (Ok u, db'))) ->
    forall db'',
      later cfg pwd db' db'' ->
      In u (rows (users (store db'')))
      /\ (forall payload, rp_email payload = u_email u ->
            register_parent pwd payload db''
            = (Raise (HTTPException 400 "Email already registered"), db''))
      /\ (forall payload, pcr_email payload = u_email u ->
            admin_create_parent pwd payload db''
            = (Raise (HTTPException 400 "Email already exists"), db'')).
Proof.
  intros cfg pwd db u db' H db'' Hlater.
  assert (Hin' : In u (rows (users (store db')))).
  { destruct H as [[payload H] | [payload H]];
      [unfold register_parent in H | unfold admin_create_parent in H];
      unfold bind, query, raise in H;
      destruct (first _) in H; try discriminate;
      apply add_user_inv in H; destruct H as [_ ->];
      apply in_app_iff; right; now left. }
  assert (Hin : In u (rows (users (store db''))))
    by exact (account_is_kept cfg pwd u db' db'' Hlater Hin').
  split; [exact Hin|]. split; intros payload E.
  - now apply (register_parent_taken pwd payload db'' u).
  - now apply (admin_create_parent_taken pwd payload db'' u).
Qed.

Lemma email_is_taken_witness :
  exists u db',
    register_parent sample_pwd (mkRegisterParentRequest "sam@example.org" "secret9" "Sam")
                    family_db = (Ok u, db')
    /\ register_parent sample_pwd
         (mkRegisterParentRequest "sam@example.org" "other-secret" "Samuel") db'
       = (Raise (HTTPException 400 "Email already registered"), db')
    /\ admin_create_parent sample_pwd (mkParentCreate "sam@example.org" "secret0" "S")
         (snd (app default_config sample_pwd 200 "tok-new" (Some "tok-admin"%string)
                   (PostAdminCampers (mkCamperCreate "Dee" "Doe" None None)) db'))
       = (Raise (HTTPException 400 "Email already exists"),
          snd (app default_config sample_pwd 200 "tok-new" (Some "tok-admin"%string)
                   (PostAdminCampers (mkCamperCreate "Dee" "Doe" None None)) db')).
Proof.
  exists (mkUser 6 "sam@example.org" "Sam" "bcrypt$secret9" "parent" true).
  exists (snd (register_parent sample_pwd
                 (mkRegisterParentRequest "sam@example.org" "secret9" "Sam") family_db)).
  assert (H : register_parent sample_pwd
                (mkRegisterParentRequest "sam@example.org" "secret9" "Sam") family_db
              = (Ok (mkUser 6 "sam@example.org" "Sam" "bcrypt$secret9" "parent" true),
                 snd (register_parent sample_pwd
                        (mkRegisterParentRequest "sam@example.org" "secret9" "Sam")
                        family_db)))
    by reflexivity.
  destruct (email_is_taken_for_good default_config sample_pwd family_db _ _
              (or_introl (ex_intro _ _ H)) _ (later_now _ _ _))
    as (_ & Hreg & _).
  destruct (email_is_taken_for_good default_config sample_pwd family_db _ _
              (or_introl (ex_intro _ _ H)) _
              (later_request _ _ _ _ 200 "tok-new"%string (Some "tok-admin"%string)
                 (PostAdminCampers (mkCamperCreate "Dee" "Doe" None None))
                 (later_now _ _ _)))
    as (_ & _ & Hadm).
  exact (conj H
          (conj (Hreg (mkRegisterParentRequest "sam@example.org" "other-secret" "Samuel")
                      eq_refl)
                (Hadm (mkParentCreate "sam@example.org" "secret0" "S") eq_refl))).
Defined.

Lemma first_none_nil {A : Type} (l : list A) : first l = None -> l = [].
Proof. destruct l; [reflexivity | discriminate]. Qed.

Lemma unique_on_snoc {A K : Type} (key : A -> K) (l : list A) (x : A) :
  unique_on key l -> ~ In (key x) (map key l) -> unique_on key (l ++ [x]).
Proof.
  unfold unique_on. intros Hnd Hnotin. rewrite map_app. simpl.
  apply NoDup_app; [assumption | repeat constructor; simpl; tauto |].
  intros k Hk [<- | []]. contradiction.
Qed.

Lemma get_or_create_camp_year_found (y : Z) (db : Db) (cyr : CampYear) :
  first (filter (fun c => cy_year c =? y) (rows (camp_years (store db)))) = Some cyr ->
  get_or_create_camp_year y db = (Ok cyr, db).
Proof. intros H. unfold get_or_create_camp_year, bind, query, ret. now rewrite H. Qed.

Lemma get_or_create_camp_year_first (y : Z) (db db' : Db) (cyr : CampYear) :
  get_or_create_camp_year y db = (Ok cyr, db') ->
  first (filter (fun c => cy_year c =? y) (rows (camp_years (store db')))) = Some cyr
  /\ (db' = db
      \/ (filter (fun c => cy_year c =? y) (rows (camp_years (store db))) = []
          /\ cyr = mkCampYear (next_id (camp_years (store db))) y false
          /\ store db' = with_camp_years (appended camp_years cyr (store db)) (store db))).
Proof.
  unfold get_or_create_camp_year, bind, query, ret.
  destruct (first _) as [c|] eqn:Hfirst; intros H.
  - inversion H; subst. auto.
  - apply first_none_nil in Hfirst.
    unfold add_camp_year in H. apply add_commit_refresh_inv in H.
    destruct H as (-> & _ & Hs). simpl in *. split.
    + rewrite Hs. simpl. rewrite filter_app_last, Hfirst. simpl.
      now rewrite Z.eqb_refl.
    + right. auto.
Qed.

(** X7: [get_or_create_camp_year] is idempotent and keeps one row per year.
    The row it returns carries the requested year and is stored; asking
    again returns the same row without writing; a year already present
    leaves the session as it was; a created year is inactive and is the
    only new row; distinct years stay distinct. *)
Theorem get_or_create_camp_year_idempotent :
  forall y db cyr db',
    get_or_create_camp_year y db = (Ok cyr, db') ->
    cy_year cyr = y
    /\ In cyr (rows (camp_years (store db')))
    /\ get_or_create_camp_year y db' = (Ok cyr, db')
    /\ ((exists c, In c (rows (camp_years (store db))) /\ cy_year c = y) -> db' = db)
    /\ ((forall c, In c (rows (camp_years (store db))) -> cy_year c <> y) ->
        cy_is_active cyr = false
        /\ rows (camp_years (store db')) = rows (camp_years (store db)) ++ [cyr])
    /\ (unique_on cy_year (rows (camp_years (store db))) ->
        unique_on cy_year (rows (camp_years (store db')))).
Proof.
  intros y db cyr db' H.
  destruct (get_or_create_camp_year_first y db db' cyr H) as [Hfirst Hcase].
  pose proof (first_filter_sound _ _ _ Hfirst) as [Hin Hy]. apply Z.eqb_eq in Hy.
  split; [exact Hy|]. split; [exact Hin|].
  split; [now apply get_or_create_camp_year_found|].
  destruct Hcase as [-> | (Hnil & Hc & Hs)].
  - split; [reflexivity|]. split; [|auto].
    intros Hnone. exfalso. now apply (Hnone cyr Hin).
  - split; [|split].
    + intros (c & Hc1 & Hc2). exfalso.
      assert (Hf : In c (filter (fun c => cy_year c =? y) (rows (camp_years (store db)))))
        by (apply filter_In; split; [assumption | now apply Z.eqb_eq]).
      rewrite Hnil in Hf. contradiction.
    + intros _. rewrite Hs, Hc. simpl. auto.
    + intros Hu. rewrite Hs. simpl. apply unique_on_snoc; [assumption|].
      intros Hk. apply in_map_iff in Hk. destruct Hk as (c & Ec & Hc').
      assert (Hf : In c (filter (fun c => cy_year c =? y) (rows (camp_years (store db))))).
      { apply filter_In. split; [assumption|]. apply Z.eqb_eq. now rewrite Ec. }
      rewrite Hnil in Hf. contradiction.
Qed.

Lemma get_or_create_camp_year_witness :
  get_or_create_camp_year 2026 family_db = (Ok year_2026, family_db)
  /\ exists db',
       get_or_create_camp_year 2027 family_db = (Ok (mkCampYear 2 2027 false), db')
       /\ get_or_create_camp_year 2027 db' = (Ok (mkCampYear 2 2027 false), db')
       /\ rows (camp_years (store db')) = [year_2026; mkCampYear 2 2027 false].
Proof.
  split; [reflexivity|].
  exists (snd (get_or_create_camp_year 2027 family_db)).
  assert (H : get_or_create_camp_year 2027 family_db
              = (Ok (mkCampYear 2 2027 false),
                 snd (get_or_create_camp_year 2027 family_db))) by reflexivity.
  destruct (get_or_create_camp_year_idempotent _ _ _ _ H) as (_ & _ & Hagain & _ & Hnew & _).
  refine (conj H (conj Hagain _)).
  apply Hnew. simpl. intros c [<- | []]. simpl. discriminate.
Defined.

(** ** Ownership check, enrollments and group members *)

Lemma owns_filter (p c : Z) (s : Store) :
  owns s p c <->
  exists pc, first (filter (fun pc => (pc_parent_user_id pc =? p) && (pc_camper_id pc =? c))
                           (rows (parent_campers s))) = Some pc.
Proof.
  split.
  - intros (pc & Hin & Hp & Hc).
    apply (first_filter_some _ _ pc Hin).
    now rewrite (proj2 (Z.eqb_eq _ _) Hp), (proj2 (Z.eqb_eq _ _) Hc).
  - intros (pc & H). apply first_filter_sound in H. destruct H as [Hin H].
    apply andb_true_iff in H. destruct H as [Hp Hc].
    apply Z.eqb_eq in Hp. apply Z.eqb_eq in Hc. now exists pc.
Qed.

Lemma ensure_parent_owns_camper_passes (p c : Z) (db : Db) :
  owns (store db) p c -> ensure_parent_owns_camper p c db = (Ok tt, db).
Proof.
  intros H. apply owns_filter in H. destruct H as [pc H].
  unfold ensure_parent_owns_camper, bind, query, ret. now rewrite H.
Qed.

Lemma ensure_parent_owns_camper_ok_inv (p c : Z) (db db0 : Db) :
  ensure_parent_owns_camper p c db = (Ok tt, db0) -> owns (store db) p c /\ db0 = db.
Proof.
  unfold ensure_parent_owns_camper, bind, query, ret, raise.
  destruct (first _) as [pc|] eqn:E; intros H; inversion H; subst.
  split; [|reflexivity]. apply owns_filter. now exists pc.
Qed.

(** X8: [ensure_parent_owns_camper] passes exactly when an ownership link
    joins the parent to the camper, fails with 403 otherwise, and never
    writes. *)
Theorem ensure_parent_owns_camper_iff :
  forall p c db,
    snd (ensure_parent_owns_camper p c db) = db
    /\ (fst (ensure_parent_owns_camper p c db) = Ok tt <-> owns (store db) p c)
    /\ (~ owns (store db) p c ->
        fst (ensure_parent_owns_camper p c db)
        = Raise (HTTPException 403 "Parent does not own this camper")).
Proof.
  intros p c db.
  assert (Hcase : owns (store db) p c \/ no_link p c (store db)).
  { destruct (first (filter (fun pc => (pc_parent_user_id pc =? p) && (pc_camper_id pc =? c))
                            (rows (parent_campers (store db))))) as [pc|] eqn:E.
    - left. apply owns_filter. now exists pc.
    - right. intros pc Hin [Hp Hc]. apply first_none_nil in E.
      assert (Hf : In pc (filter (fun pc => (pc_parent_user_id pc =? p)
                                            && (pc_camper_id pc =? c))
                                 (rows (parent_campers (store db))))).
      { apply filter_In. split; [assumption|].
        now rewrite (proj2 (Z.eqb_eq _ _) Hp), (proj2 (Z.eqb_eq _ _) Hc). }
      rewrite E in Hf. contradiction. }
  destruct Hcase as [Ho | Hn].
  - rewrite (ensure_parent_owns_camper_passes p c db Ho). simpl.
    split; [reflexivity|]. split; [tauto | contradiction].
  - rewrite (ensure_parent_owns_camper_refuses p c db Hn). simpl.
    split; [reflexivity|]. split; [|reflexivity].
    split; [discriminate|]. intros (pc & Hin & Hp & Hc). exfalso. now apply (Hn pc Hin).
Qed.

Lemma parent_enroll_existing payload user db cyr e :
  owns (store db) (u_id user) (ec_camper_id payload) ->
  first (filter (fun c => cy_year c =? ec_camp_year payload) (rows (camp_years (store db))))
  = Some cyr ->
  In e (rows (enrollments (store db))) ->
  e_camp_year_id e = cy_id cyr -> e_camper_id e = ec_camper_id payload ->
  parent_enroll payload user db
  = (Raise (HTTPException 400 "Already enrolled for this camp year"), db).
Proof.
  intros Ho Hcy Hin Hy Hc. unfold parent_enroll, bind.
  rewrite (ensure_parent_owns_camper_passes _ _ _ Ho).
  rewrite (get_or_create_camp_year_found _ _ _ Hcy).
  unfold query, raise.
  destruct (first_filter_some
              (fun e => (e_camp_year_id e =? cy_id cyr)
                        && (e_camper_id e =? ec_camper_id payload)) _ e Hin) as [e' ->];
    [|reflexivity].
  now rewrite Hy, Hc, !Z.eqb_refl.
Qed.

(** X9: a camper is enrolled at most once per camp year through
    [parent_enroll].  After a successful enrollment, the same request, by
    any parent owning the camper, is refused with 400 and stores nothing. *)
Theorem parent_enroll_twice_is_refused :
  forall payload user db enr db',
    parent_enroll payload user db = (Ok enr, db') ->
    forall user2,
      owns (store db') (u_id user2) (ec_camper_id payload) ->
      parent_enroll payload user2 db'
      = (Raise (HTTPException 400 "Already enrolled for this camp year"), db').
Proof.
  intros payload user db enr db' H user2 Ho.
  unfold parent_enroll, bind in H.
  destruct (ensure_parent_owns_camper _ _ db) as [[[]|e0] db0] eqn:E0; [|discriminate].
  destruct (get_or_create_camp_year _ db0) as [[cyr|e1] db1] eqn:E1; [|discriminate].
  apply get_or_create_camp_year_first in E1. destruct E1 as [Hfirst _].
  unfold query, raise in H.
  destruct (first _) in H; [discriminate|].
  unfold add_enrollment in H. apply add_commit_refresh_inv in H.
  destruct H as (Henr & _ & Hs).
  apply (parent_enroll_existing payload user2 db' cyr enr Ho).
  - rewrite Hs. exact Hfirst.
  - rewrite Hs. simpl. apply in_app_iff. right. now left.
  - rewrite Henr. reflexivity.
  - rewrite Henr. reflexivity.
Qed.

Lemma parent_enroll_twice_witness :
  exists enr db',
    parent_enroll (mkEnrollmentCreate 2 2027) sample_parent family_db = (Ok enr, db')
    /\ parent_enroll (mkEnrollmentCreate 2 2027) sample_parent db'
       = (Raise (HTTPException 400 "Already enrolled for this camp year"), db').
Proof.
  exists (mkEnrollment 2 2 2 "pending" None).
  exists (snd (parent_enroll (mkEnrollmentCreate 2 2027) sample_parent family_db)).
  assert (H : parent_enroll (mkEnrollmentCreate 2 2027) sample_parent family_db
              = (Ok (mkEnrollment 2 2 2 "pending" None),
                 snd (parent_enroll (mkEnrollmentCreate 2 2027) sample_parent family_db)))
    by reflexivity.
  split; [exact H|].
  apply (parent_enroll_twice_is_refused _ _ _ _ _ H sample_parent).
  exists (mkParentCamper 2 2 2). simpl. auto.
Defined.

Lemma map_update_key {K : Type} (key : Enrollment -> K) (f : Enrollment -> Enrollment)
    (p : Enrollment -> bool) (l : list Enrollment) :
  (forall e, key (f e) = key e) ->
  map key (map (fun e => if p e then f e else e) l) = map key l.
Proof.
  intros Hk. rewrite map_map. apply map_ext. intros e. destruct (p e); auto.
Qed.

(** X10: [parent_update_enrollment] answers 404 for an unknown id without
    writing.  For an enrollment of a camper the caller owns it replaces
    status and notes of that row, keeps its id, camp year and camper, leaves
    every other enrollment and every other table as they were, and returns
    the updated row. *)
Theorem parent_update_enrollment_effect :
  forall i payload user db,
    ((forall e, In e (rows (enrollments (store db))) -> e_id e <> i) ->
     parent_update_enrollment i payload user db
     = (Raise (HTTPException 404 "Enrollment not found"), db))
    /\ (forall enr,
          unique_on e_id (rows (enrollments (store db))) ->
          In enr (rows (enrollments (store db))) -> e_id enr = i ->
          owns (store db) (u_id user) (e_camper_id enr) ->
          accepts_next db ->
          let enr' := mkEnrollment i (e_camp_year_id enr) (e_camper_id enr)
                                   (eu_status payload) (eu_notes payload) in
          let db' := snd (parent_update_enrollment i payload user db) in
          fst (parent_update_enrollment i payload user db) = Ok enr'
          /\ In enr' (rows (enrollments (store db')))
          /\ (forall e, e_id e <> i ->
                (In e (rows (enrollments (store db')))
                 <-> In e (rows (enrollments (store db)))))
          /\ map e_id (rows (enrollments (store db')))
             = map e_id (rows (enrollments (store db)))
          /\ map (fun e => (e_camp_year_id e, e_camper_id e)) (rows (enrollments (store db')))
             = map (fun e => (e_camp_year_id e, e_camper_id e))
                   (rows (enrollments (store db)))
          /\ with_enrollments (enrollments (store db)) (store db') = store db).
Proof.
  intros i payload user db. split.
  - intros Hnone. unfold parent_update_enrollment, bind, query, raise.
    rewrite filter_nil_iff; [reflexivity|].
    intros e He. apply Z.eqb_neq. now apply Hnone.
  - intros enr Hpk Hin Hid Ho Hacc enr' db'. subst db'. subst i.
    assert (Hrun : parent_update_enrollment (e_id enr) payload user db
                   = (Ok enr',
                      mkDb (update_enrollment enr (eu_status payload) (eu_notes payload)
                                              (store db))
                           (tl (faults db)))).
    { unfold parent_update_enrollment, bind, query, first.
      rewrite (filter_id_unique e_id _ enr Hpk Hin). simpl.
      rewrite (ensure_parent_owns_camper_passes _ _ _ Ho).
      unfold commit, ret. unfold accepts_next in Hacc.
      destruct (faults db) as [|[|] fs]; simpl in *; try discriminate; reflexivity. }
    rewrite Hrun. simpl. split; [reflexivity|]. split; [|split; [|split; [|split]]].
    + apply in_map_iff. exists enr. rewrite Z.eqb_refl. auto.
    + intros e Hne. rewrite in_map_iff. split.
      * intros (e0 & E & He0). destruct (e_id e0 =? e_id enr) eqn:Eid.
        -- subst e. simpl in Hne. apply Z.eqb_eq in Eid. congruence.
        -- now subst e0.
      * intros He. exists e. rewrite (proj2 (Z.eqb_neq _ _) Hne). auto.
    + apply (map_update_key e_id
               (fun e => mkEnrollment (e_id e) (e_camp_year_id e) (e_camper_id e)
                                      (eu_status payload) (eu_notes payload))
               (fun e => e_id e =? e_id enr)).
      reflexivity.
    + apply (map_update_key (fun e => (e_camp_year_id e, e_camper_id e))
               (fun e => mkEnrollment (e_id e) (e_camp_year_id e) (e_camper_id e)
                                      (eu_status payload) (eu_notes payload))
               (fun e => e_id e =? e_id enr)).
      reflexivity.
    + destruct (store db). reflexivity.
Qed.

Lemma parent_update_enrollment_witness :
  parent_update_enrollment 7 (mkEnrollmentUpdate "admitted" None) sample_parent family_db
  = (Raise (HTTPException 404 "Enrollment not found"), family_db)
  /\ fst (parent_update_enrollment 1 (mkEnrollmentUpdate "admitted" (Some "ok"%string))
                                   sample_parent family_db)
     = Ok (mkEnrollment 1 1 1 "admitted" (Some "ok"%string))
  /\ In (mkEnrollment 1 1 1 "admitted" (Some "ok"%string))
        (rows (enrollments
                 (store (snd (parent_update_enrollment 1
                                (mkEnrollmentUpdate "admitted" (Some "ok"%string))
                                sample_parent family_db))))).
Proof.
  destruct (parent_update_enrollment_effect 7 (mkEnrollmentUpdate "admitted" None)
              sample_parent family_db) as [Hnf _].
  destruct (parent_update_enrollment_effect 1
              (mkEnrollmentUpdate "admitted" (Some "ok"%string)) sample_parent family_db)
    as [_ Hok].
  assert (Hu : unique_on e_id (rows (enrollments (store family_db))))
    by (unfold unique_on; simpl; repeat constructor; simpl; tauto).
  assert (Ho : owns (store family_db) (u_id sample_parent) (e_camper_id ann_enrollment))
    by (exists (mkParentCamper 1 2 1); simpl; auto).
  assert (H := Hok ann_enrollment Hu (or_introl eq_refl) eq_refl Ho eq_refl).
  cbv zeta in H. destruct H as (H1 & H2 & _).
  refine (conj (Hnf _) (conj H1 H2)).
  simpl. intros e [<- | []]. simpl. discriminate.
Defined.

Lemma ensure_parent_owns_camper_witness :
  fst (ensure_parent_owns_camper 2 1 family_db) = Ok tt
  /\ fst (ensure_parent_owns_camper 4 1 family_db)
     = Raise (HTTPException 403 "Parent does not own this camper").
Proof.
  destruct (ensure_parent_owns_camper_iff 2 1 family_db) as (_ & Hiff & _).
  destruct (ensure_parent_owns_camper_iff 4 1 family_db) as (_ & _ & Hno).
  split.
  - apply Hiff. exists (mkParentCamper 1 2 1). simpl. auto.
  - apply Hno. intros (pc & Hin & Hp & Hc). simpl in Hin.
    repeat (destruct Hin as [<- | Hin]; [simpl in Hp; discriminate|]). contradiction.
Defined.

(** X11: [admin_add_group_member] checks the group, then the camper, then
    the pair: an unknown group gives 404 "Group not found" whatever the
    camper; a known group with an unknown camper gives 404 "Camper not
    found"; a pair already stored gives 400; none of these writes.
    Otherwise the membership is appended, and adding it again gives 400. *)
Theorem admin_add_group_member_contract :
  forall g payload db,
    ((forall x, In x (rows (groups (store db))) -> g_id x <> g) ->
     admin_add_group_member g payload db
     = (Raise (HTTPException 404 "Group not found"), db))
    /\ (forall grp, In grp (rows (groups (store db))) -> g_id grp = g ->
          ((forall c, In c (rows (campers (store db))) -> c_id c <> gmc_camper_id payload) ->
           admin_add_group_member g payload db
           = (Raise (HTTPException 404 "Camper not found"), db))
          /\ (forall c, In c (rows (campers (store db))) -> c_id c = gmc_camper_id payload ->
                (is_member (store db) (gmc_camper_id payload) g ->
                 admin_add_group_member g payload db
                 = (Raise (HTTPException 400 "Camper already in group"), db))
                /\ (~ is_member (store db) (gmc_camper_id payload) g ->
                    accepts_next db ->
                    let m := mkGroupMembership (next_id (group_memberships (store db))) g
                                               (gmc_camper_id payload) in
                    let db' := snd (admin_add_group_member g payload db) in
                    fst (admin_add_group_member g payload db) = Ok m
                    /\ rows (group_memberships (store db'))
                       = rows (group_memberships (store db)) ++ [m]
                    /\ admin_add_group_member g payload db'
                       = (Raise (HTTPException 400 "Camper already in group"), db')))).
Proof.
  intros g payload db. split.
  - intros Hnone. unfold admin_add_group_member, bind, query, raise.
    rewrite filter_nil_iff; [reflexivity|].
    intros x Hx. apply Z.eqb_neq. now apply Hnone.
  - intros grp Hgrp Hg.
    assert (Hfg : forall s, groups s = groups (store db) ->
                   exists x, first (filter (fun x => g_id x =? g) (rows (groups s)))
                             = Some x).
    { intros s ->. apply (first_filter_some _ _ grp Hgrp). now apply Z.eqb_eq. }
    assert (Hdup : forall db0,
               groups (store db0) = groups (store db) ->
               campers (store db0) = campers (store db) ->
               forall c, In c (rows (campers (store db))) ->
                         c_id c = gmc_camper_id payload ->
               is_member (store db0) (gmc_camper_id payload) g ->
               admin_add_group_member g payload db0
               = (Raise (HTTPException 400 "Camper already in group"), db0)).
    { intros db0 Eg Ec c Hc Hcid (m & Hm & Hmc & Hmg).
      unfold admin_add_group_member, bind, query, raise.
      destruct (Hfg (store db0) Eg) as [x ->]. rewrite Ec.
      destruct (first_filter_some (fun c => c_id c =? gmc_camper_id payload) _ c Hc)
        as [c' ->]; [now apply Z.eqb_eq|].
      destruct (first_filter_some
                  (fun m => (gm_group_id m =? g) && (gm_camper_id m =? gmc_camper_id payload))
                  _ m Hm) as [m' ->]; [|reflexivity].
      now rewrite Hmc, Hmg, !Z.eqb_refl. }
    split.
    + intros Hnone. unfold admin_add_group_member, bind, query, raise.
      destruct (Hfg (store db) eq_refl) as [x ->].
      rewrite filter_nil_iff; [reflexivity|].
      intros c Hc. apply Z.eqb_neq. now apply Hnone.
    + intros c Hc Hcid. split.
      * now apply (Hdup db eq_refl eq_refl c).
      * intros Hnot Hacc m db'. subst db'.
        assert (Hnil : filter (fun m => (gm_group_id m =? g)
                                        && (gm_camper_id m =? gmc_camper_id payload))
                              (rows (group_memberships (store db))) = []).
        { apply filter_nil_iff. intros m0 Hm0.
          destruct ((gm_group_id m0 =? g) && (gm_camper_id m0 =? gmc_camper_id payload))
            eqn:E; [|reflexivity].
          apply andb_true_iff in E. destruct E as [E1 E2].
          apply Z.eqb_eq in E1. apply Z.eqb_eq in E2.
          exfalso. apply Hnot. now exists m0. }
        assert (Hviol : group_membership_violated m (store db) = None).
        { unfold group_membership_violated, first_violation. subst m. simpl.
          rewrite (has_id_true g_id _ _ grp Hgrp Hg), (has_id_true c_id _ _ c Hc Hcid).
          destruct (existsb _ _) eqn:E; [|reflexivity].
          apply existsb_exists in E. destruct E as (m0 & Hm0 & E).
          assert (Hf : In m0 (filter (fun m => (gm_group_id m =? g)
                                               && (gm_camper_id m =? gmc_camper_id payload))
                                     (rows (group_memberships (store db)))))
            by (apply filter_In; auto).
          rewrite Hnil in Hf. contradiction. }
        assert (Hrun : admin_add_group_member g payload db
                       = (Ok m, mkDb (with_group_memberships
                                        (appended group_memberships m (store db)) (store db))
                                     (tl (faults db)))).
        { unfold admin_add_group_member, bind, query, first.
          destruct (Hfg (store db) eq_refl) as [x Hx]. unfold first in Hx. rewrite Hx.
          destruct (first_filter_some (fun c => c_id c =? gmc_camper_id payload) _ c Hc)
            as [c' Hc']; [now apply Z.eqb_eq|]. unfold first in Hc'. rewrite Hc'.
          rewrite Hnil. simpl. unfold add_group_membership.
          now rewrite (add_commit_refresh_ok group_memberships with_group_memberships
                         set_group_membership_id group_membership_violated
                         (mkGroupMembership 0 g (gmc_camper_id payload)) db Hacc Hviol). }
        rewrite Hrun. simpl. split; [reflexivity|]. split; [reflexivity|].
        apply (Hdup (mkDb (with_group_memberships
                             (appended group_memberships m (store db)) (store db))
                          (tl (faults db)))
                    eq_refl eq_refl c Hc Hcid).
        exists m. simpl. split; [|auto]. apply in_app_iff. right. now left.
Qed.

Lemma admin_add_group_member_witness :
  admin_add_group_member 9 (mkGroupMembershipCreate 1) family_db
  = (Raise (HTTPException 404 "Group not found"), family_db)
  /\ admin_add_group_member 2 (mkGroupMembershipCreate 9) family_db
     = (Raise (HTTPException 404 "Camper not found"), family_db)
  /\ admin_add_group_member 1 (mkGroupMembershipCreate 1) family_db
     = (Raise (HTTPException 400 "Camper already in group"), family_db)
  /\ fst (admin_add_group_member 2 (mkGroupMembershipCreate 1) family_db)
     = Ok (mkGroupMembership 4 2 1).
Proof.
  destruct (admin_add_group_member_contract 9 (mkGroupMembershipCreate 1) family_db)
    as [Hnog _].
  destruct (admin_add_group_member_contract 2 (mkGroupMembershipCreate 9) family_db)
    as [_ Hnoc].
  destruct (admin_add_group_member_contract 1 (mkGroupMembershipCreate 1) family_db)
    as [_ Hdup].
  destruct (admin_add_group_member_contract 2 (mkGroupMembershipCreate 1) family_db)
    as [_ Hnew].
  destruct (Hnoc hawks) as [Hnoc' _]; [simpl; auto | reflexivity|].
  destruct (Hdup otters) as [_ Hdup']; [simpl; auto | reflexivity|].
  destruct (Hdup' ann) as [Hdup'' _]; [simpl; auto | reflexivity|].
  destruct (Hnew hawks) as [_ Hnew']; [simpl; auto | reflexivity|].
  destruct (Hnew' ann) as [_ Hnew'']; [simpl; auto | reflexivity|].
  split; [|split; [|split]].
  - apply Hnog. simpl. intros x [<- | [<- | []]]; simpl; discriminate.
  - apply Hnoc'. simpl. intros c [<- | [<- | [<- | []]]]; simpl; discriminate.
  - apply Hdup''. exists (mkGroupMembership 1 1 1). simpl. auto.
  - assert (H : ~ is_member (store family_db) 1 2).
    { intros (m & Hin & Hc & Hg). simpl in Hin.
      repeat (destruct Hin as [<- | Hin]; [simpl in *; lia|]). contradiction. }
    assert (H' := Hnew'' H eq_refl). cbv zeta in H'. exact (proj1 H').
Defined.

(** ** Listings *)

Section OrderByFacts.

Context {A : Type} (key : A -> Z).

Lemma insert_asc_perm (x : A) (l : list A) : Permutation (insert_asc key x l) (x :: l).
Proof.
  induction l as [|y l IH]; simpl; [reflexivity|].
  destruct (key x <? key y); [reflexivity|].
  rewrite IH. apply perm_swap.
Qed.

Lemma order_by_asc_perm (l : list A) : Permutation (order_by_asc key l) l.
Proof.
  induction l as [|x l IH]; simpl; [constructor|].
  rewrite insert_asc_perm. now constructor.
Qed.

Lemma insert_desc_perm (x : A) (l : list A) : Permutation (insert_desc key x l) (x :: l).
Proof.
  induction l as [|y l IH]; simpl; [reflexivity|].
  destruct (key y <? key x); [reflexivity|].
  rewrite IH. apply perm_swap.
Qed.

Lemma order_by_desc_perm (l : list A) : Permutation (order_by_desc key l) l.
Proof.
  induction l as [|x l IH]; simpl; [constructor|].
  rewrite insert_desc_perm. now constructor.
Qed.

Lemma insert_desc_sorted (x : A) (l : list A) :
  StronglySorted (fun a b => key b <= key a) l ->
  StronglySorted (fun a b => key b <= key a) (insert_desc key x l).
Proof.
  induction 1 as [|z l Hs IH Hall]; simpl.
  - constructor; constructor.
  - destruct (key z <? key x) eqn:E.
    + apply Z.ltb_lt in E. constructor; [now constructor|].
      constructor; [lia|].
      rewrite Forall_forall in *. intros y Hy. specialize (Hall y Hy). simpl in *. lia.
    + apply Z.ltb_ge in E. constructor; [assumption|].
      rewrite Forall_forall in *. intros y Hy.
      apply (Permutation_in _ (insert_desc_perm x l)) in Hy.
      destruct Hy as [<- | Hy]; [exact E | now apply Hall].
Qed.

Lemma order_by_desc_sorted (l : list A) :
  StronglySorted (fun a b => key b <= key a) (order_by_desc key l).
Proof.
  induction l as [|x l IH]; simpl; [constructor | now apply insert_desc_sorted].
Qed.

(** A row whose key exceeds all others, appended last, is listed first. *)
Lemma order_by_desc_newest (l : list A) (x : A) :
  (forall y, In y l -> key y < key x) ->
  order_by_desc key (l ++ [x]) = x :: order_by_desc key l.
Proof.
  induction l as [|y l IH]; simpl; intros H; [reflexivity|].
  rewrite IH by (intros z Hz; apply H; now right). simpl.
  rewrite (proj2 (Z.ltb_ge _ _)); [reflexivity|].
  specialize (H y (or_introl eq_refl)). lia.
Qed.

End OrderByFacts.

(** X12: [admin_list_campers] returns every stored camper exactly once, by
    descending id, and does not write. *)
Theorem admin_list_campers_lists_all :
  forall db,
    exists l,
      admin_list_campers db = (Ok l, db)
      /\ Permutation l (rows (campers (store db)))
      /\ StronglySorted (fun a b => c_id b <= c_id a) l.
Proof.
  intros db. exists (order_by_desc c_id (rows (campers (store db)))).
  split; [reflexivity|]. split; [apply order_by_desc_perm | apply order_by_desc_sorted].
Qed.

(** X13: a camper created by [admin_create_camper] gets the next id of the
    sequence and the fields of the request, and heads the admin's listing
    right after, the earlier campers following. *)
Theorem admin_created_camper_is_listed_first :
  forall payload db,
    accepts_next db ->
    (forall c, In c (rows (campers (store db))) -> c_id c < next_id (campers (store db))) ->
    let camper := camper_of_payload (next_id (campers (store db))) payload in
    exists db' rest,
      admin_create_camper payload db = (Ok camper, db')
      /\ admin_list_campers db' = (Ok (camper :: rest), db')
      /\ admin_list_campers db = (Ok rest, db).
Proof.
  intros payload db Hacc Hfresh camper.
  exists (mkDb (with_campers (appended campers camper (store db)) (store db))
               (tl (faults db))).
  exists (order_by_desc c_id (rows (campers (store db)))).
  split; [|split; [|reflexivity]].
  - unfold admin_create_camper, add_camper.
    now rewrite (add_commit_refresh_ok campers with_campers set_camper_id camper_violated
                   _ db Hacc eq_refl).
  - unfold admin_list_campers, query. simpl.
    now rewrite (order_by_desc_newest c_id _ camper Hfresh).
Qed.

Lemma admin_created_camper_witness :
  exists db',
    admin_create_camper (mkCamperCreate "Dee" "Lee" None None) family_db
    = (Ok (mkCamper 4 "Dee" "Lee" None None), db')
    /\ admin_list_campers db' = (Ok [mkCamper 4 "Dee" "Lee" None None; cy; bob; ann], db').
Proof.
  destruct (admin_created_camper_is_listed_first (mkCamperCreate "Dee" "Lee" None None)
              family_db) as (db' & rest & Hc & Hl & Hr).
  - reflexivity.
  - simpl. intros c Hin.
    repeat (destruct Hin as [<- | Hin]; [simpl; lia|]). contradiction.
  - exists db'. split; [exact Hc|].
    assert (E : rest = [cy; bob; ann]) by (inversion Hr; reflexivity).
    now rewrite <- E.
Defined.

(** X14: [parent_list_children] returns exactly the caller's ownership
    links, each once, by descending id, and does not write. *)
Theorem parent_list_children_lists_own_links :
  forall user db,
    exists l,
      parent_list_children user db = (Ok l, db)
      /\ (forall pc, In pc l <->
                     In pc (rows (parent_campers (store db)))
                     /\ pc_parent_user_id pc = u_id user)
      /\ Permutation l (filter (fun pc => pc_parent_user_id pc =? u_id user)
                               (rows (parent_campers (store db))))
      /\ StronglySorted (fun a b => pc_id b <= pc_id a) l.
Proof.
  intros user db.
  exists (order_by_desc pc_id (filter (fun pc => pc_parent_user_id pc =? u_id user)
                                      (rows (parent_campers (store db))))).
  split; [reflexivity|]. split; [|split].
  - intros pc. split.
    + intros H. apply (Permutation_in _ (order_by_desc_perm pc_id _)) in H.
      apply filter_In in H. destruct H as [H E]. apply Z.eqb_eq in E. auto.
    + intros [H E]. apply (Permutation_in _ (Permutation_sym (order_by_desc_perm pc_id _))).
      apply filter_In. split; [assumption | now apply Z.eqb_eq].
  - apply order_by_desc_perm.
  - apply order_by_desc_sorted.
Qed.

Lemma parent_list_children_witness :
  parent_list_children sample_parent family_db
  = (Ok [mkParentCamper 2 2 2; mkParentCamper 1 2 1], family_db)
  /\ ~ In (mkParentCamper 3 5 3) [mkParentCamper 2 2 2; mkParentCamper 1 2 1].
Proof.
  destruct (parent_list_children_lists_own_links sample_parent family_db)
    as (l & Hl & Hiff & _).
  assert (E : l = [mkParentCamper 2 2 2; mkParentCamper 1 2 1])
    by (inversion Hl; reflexivity).
  subst l. split; [exact Hl|].
  intros Hin. apply Hiff in Hin. destruct Hin as [_ Hp]. simpl in Hp. discriminate.
Defined.

(** X15: [parent_list_enrollments] never shows an enrollment of a camper the
    caller does not own: every listed row is a stored enrollment of an owned
    camper, and with a camp-year filter it belongs to that year; an unknown
    year gives the empty list; the call does not write. *)
Theorem parent_list_enrollments_shows_own_only :
  forall user camp_year db,
    exists l,
      parent_list_enrollments user camp_year db = (Ok l, db)
      /\ (forall e, In e l ->
            In e (rows (enrollments (store db)))
            /\ owns (store db) (u_id user) (e_camper_id e)
            /\ (forall y, camp_year = Some y ->
                  exists cyr, In cyr (rows (camp_years (store db)))
                              /\ cy_year cyr = y /\ e_camp_year_id e = cy_id cyr))
      /\ (forall y, camp_year = Some y ->
            (forall cyr, In cyr (rows (camp_years (store db))) -> cy_year cyr <> y) ->
            l = [])
      /\ StronglySorted (fun a b => e_id b <= e_id a) l.
Proof.
  intros user camp_year db.
  set (q := filter (fun r : Enrollment * Camper * ParentCamper =>
                      pc_parent_user_id (snd r) =? u_id user)
                   (join (fun ec pc => pc_camper_id pc =? c_id (snd ec))
                         (join (fun e c => c_id c =? e_camper_id e)
                               (rows (enrollments (store db))) (rows (campers (store db))))
                         (rows (parent_campers (store db))))).
  assert (Hq : forall r, In r q ->
                 In (fst (fst r)) (rows (enrollments (store db)))
                 /\ owns (store db) (u_id user) (e_camper_id (fst (fst r)))).
  { intros [[e c] pc] Hr. apply filter_In in Hr. destruct Hr as [Hr Hp]. simpl in *.
    apply Z.eqb_eq in Hp.
    apply join_In in Hr. destruct Hr as (Hec & Hpc & Hon1). simpl in Hon1.
    apply join_In in Hec. destruct Hec as (He & Hc & Hon2).
    apply Z.eqb_eq in Hon1. apply Z.eqb_eq in Hon2.
    split; [assumption|]. exists pc. repeat split; auto. congruence. }
  assert (Hsorted : forall q' : list (Enrollment * Camper * ParentCamper),
             StronglySorted (fun a b => e_id b <= e_id a)
               (map (fun r => fst (fst r)) (order_by_desc (fun r => e_id (fst (fst r))) q'))).
  { intros q'. apply StronglySorted_map.
    apply (order_by_desc_sorted (fun r : Enrollment * Camper * ParentCamper =>
                                   e_id (fst (fst r)))). }
  unfold parent_list_enrollments, bind, query. simpl. fold q.
  destruct camp_year as [y|].
  - destruct (first (filter (fun c => cy_year c =? y) (rows (camp_years (store db)))))
      as [cyr|] eqn:Hcy.
    + eexists. split; [reflexivity|]. split; [|split].
      * intros e He. apply in_map_iff in He. destruct He as (r & <- & Hr).
        apply (Permutation_in _ (order_by_desc_perm _ _)) in Hr.
        apply filter_In in Hr. destruct Hr as [Hr Hy]. apply Z.eqb_eq in Hy.
        destruct (Hq r Hr) as [H1 H2]. split; [assumption|]. split; [assumption|].
        intros y' Ey. inversion Ey; subst y'.
        apply first_filter_sound in Hcy. destruct Hcy as [Hin Hyr].
        apply Z.eqb_eq in Hyr. now exists cyr.
      * intros y' Ey Hnone. inversion Ey; subst y'.
        apply first_filter_sound in Hcy. destruct Hcy as [Hin Hyr].
        apply Z.eqb_eq in Hyr. exfalso. now apply (Hnone cyr Hin).
      * apply Hsorted.
    + exists []. split; [reflexivity|]. split; [|split].
      * intros e [].
      * reflexivity.
      * constructor.
  - eexists. split; [reflexivity|]. split; [|split].
    + intros e He. apply in_map_iff in He. destruct He as (r & <- & Hr).
      apply (Permutation_in _ (order_by_desc_perm _ _)) in Hr.
      destruct (Hq r Hr) as [H1 H2]. split; [assumption|]. split; [assumption|].
      intros y Ey. discriminate.
    + intros y Ey. discriminate.
    + apply Hsorted.
Qed.

Lemma parent_list_enrollments_witness :
  parent_list_enrollments sample_parent None family_db = (Ok [ann_enrollment], family_db)
  /\ parent_list_enrollments sample_robin None family_db = (Ok [], family_db)
  /\ parent_list_enrollments sample_parent (Some 2031) family_db = (Ok [], family_db)
  /\ owns family_store 2 (e_camper_id ann_enrollment).
Proof.
  destruct (parent_list_enrollments_shows_own_only sample_parent None family_db)
    as (l & Hl & Hown & _).
  assert (E : l = [ann_enrollment]) by (inversion Hl; reflexivity). subst l.
  refine (conj Hl (conj eq_refl (conj eq_refl _))).
  apply (Hown ann_enrollment). now left.
Defined.

(** ** Event listing and the reach of the schedule view *)

Lemma events_joined_sound (s : Store) (r : GroupEvent * Group * CampYear) :
  In r (events_joined s) ->
  In (event_of r) (rows (group_events s))
  /\ In (snd (fst r)) (rows (groups s))
  /\ In (snd r) (rows (camp_years s))
  /\ g_id (snd (fst r)) = ev_group_id (event_of r)
  /\ cy_id (snd r) = g_camp_year_id (snd (fst r)).
Proof.
  destruct r as [[ev g] c]. unfold events_joined, event_of. simpl. intros H.
  apply join_In in H. destruct H as (Heg & Hc & Hon2). simpl in Hon2.
  apply join_In in Heg. destruct Heg as (Hev & Hg & Hon1).
  apply Z.eqb_eq in Hon1. apply Z.eqb_eq in Hon2. auto.
Qed.

Lemma filter_camp_year_sound camp_year q r :
  In r (filter_camp_year camp_year q) ->
  In r q /\ (forall y, camp_year = Some y -> cy_year (snd r) = y).
Proof.
  destruct camp_year as [y|]; simpl; intros H.
  - apply filter_In in H. destruct H as [H E]. apply Z.eqb_eq in E.
    split; [assumption|]. intros y' Ey. now inversion Ey; subst.
  - split; [assumption|]. discriminate.
Qed.

(** An event is of camp year [y] when its group belongs to a camp year
    numbered [y]. *)
Lemma admin_list_events_run group_id camp_year db :
  admin_list_events group_id camp_year db
  = (Ok (map event_of
           (order_by_asc (fun r => ev_start_time (event_of r))
              (match group_id with
               | Some g => filter (fun r => ev_group_id (event_of r) =? g)
                                  (filter_camp_year camp_year (events_joined (store db)))
               | None => filter_camp_year camp_year (events_joined (store db))
               end))), db).
Proof. reflexivity. Qed.

(** X16: [admin_list_events] lists stored events by ascending start time,
    only events of the requested group and of groups of the requested camp
    year when such filters are given, and does not write; on a well-formed
    store and without a camp-year filter it lists every event of the
    requested group (every event, without group filter) exactly once. *)
Theorem admin_list_events_contract :
  forall group_id camp_year db,
    exists l,
      admin_list_events group_id camp_year db = (Ok l, db)
      /\ StronglySorted (fun a b => ev_start_time a <= ev_start_time b) l
      /\ (forall ev, In ev l ->
            In ev (rows (group_events (store db)))
            /\ (forall g, group_id = Some g -> ev_group_id ev = g)
            /\ (forall y, camp_year = Some y ->
                  exists grp cyr,
                    In grp (rows (groups (store db)))
                    /\ In cyr (rows (camp_years (store db)))
                    /\ g_id grp = ev_group_id ev
                    /\ cy_id cyr = g_camp_year_id grp /\ cy_year cyr = y))
      /\ (wf_store (store db) -> camp_year = None ->
          Permutation l
            (filter (fun ev => match group_id with
                               | Some g => ev_group_id ev =? g
                               | None => true
                               end)
                    (rows (group_events (store db))))).
Proof.
  intros group_id camp_year db. eexists. split; [apply admin_list_events_run|].
  split; [|split].
  - apply StronglySorted_map.
    apply (order_by_asc_sorted (fun r => ev_start_time (event_of r))).
  - intros ev Hev. apply in_map_iff in Hev. destruct Hev as (r & <- & Hr).
    apply (Permutation_in _ (order_by_asc_perm _ _)) in Hr.
    assert (Hr' : In r (filter_camp_year camp_year (events_joined (store db)))
                  /\ (forall g, group_id = Some g -> ev_group_id (event_of r) = g)).
    { destruct group_id as [g|].
      - apply filter_In in Hr. destruct Hr as [Hr E]. apply Z.eqb_eq in E.
        split; [assumption|]. intros g' Eg. now inversion Eg; subst.
      - split; [assumption | discriminate]. }
    destruct Hr' as [Hr' Hg]. apply filter_camp_year_sound in Hr'.
    destruct Hr' as [Hj Hy]. apply events_joined_sound in Hj.
    destruct Hj as (H1 & H2 & H3 & H4 & H5).
    split; [assumption|]. split; [assumption|].
    intros y Ey. exists (snd (fst r)), (snd r). repeat split; auto.
  - intros Hwf ->. simpl.
    rewrite (map_order_by_asc event_of ev_start_time), order_by_asc_perm.
    destruct group_id as [g|].
    + rewrite (map_filter_comm event_of (fun ev => ev_group_id ev =? g)).
      now rewrite events_joined_wf.
    + rewrite events_joined_wf by assumption.
      clear. induction (rows (group_events (store db))) as [|x l IH]; simpl; auto.
Qed.

Lemma admin_list_events_witness :
  admin_list_events None None family_db = (Ok [swim; hike], family_db)
  /\ admin_list_events (Some 2) (Some 2026) family_db = (Ok [hike], family_db)
  /\ admin_list_events None (Some 2027) family_db = (Ok [], family_db)
  /\ Permutation [swim; hike] (rows (group_events family_store)).
Proof.
  destruct (admin_list_events_contract None None family_db) as (l & Hl & _ & _ & Hperm).
  assert (E : l = [swim; hike]) by (inversion Hl; reflexivity). subst l.
  refine (conj Hl (conj eq_refl (conj eq_refl _))).
  apply (Hperm family_store_wf eq_refl).
Defined.

(** *** Dictionaries hold what was put in *)

Lemma dict_get_In {V : Type} (d : dict V) (k : Z) (v : V) :
  dict_get d k = Some v -> In (k, v) d.
Proof.
  induction d as [|[k' v'] d IH]; simpl; [discriminate|].
  destruct (k' =? k) eqn:E.
  - apply Z.eqb_eq in E. intros H. inversion H; subst. now left.
  - intros H. right. now apply IH.
Qed.

Lemma dict_set_In {V : Type} (d : dict V) (k k' : Z) (v v' : V) :
  In (k', v') (dict_set d k v) -> (k', v') = (k, v) \/ In (k', v') d.
Proof.
  induction d as [|[k0 v0] d IH]; simpl.
  - intros [H | []]. left. now symmetry.
  - destruct (k0 =? k); simpl.
    + intros [H | H]; [left; now symmetry | right; now right].
    + intros [H | H]; [right; now left|].
      destruct (IH H); [now left | right; now right].
Qed.

Lemma dict_of_sound {V : Type} (key : V -> Z) (l : list V) (k : Z) (v : V) :
  In (k, v) (dict_of key l) -> In v l /\ key v = k.
Proof.
  unfold dict_of.
  assert (H : forall (d : dict V),
             (forall k v, In (k, v) d -> In v l /\ key v = k) ->
             forall l', incl l' l ->
             forall k v, In (k, v) (fold_left (fun d x => dict_set d (key x) x) l' d) ->
                         In v l /\ key v = k).
  { intros d Hd l'. revert d Hd. induction l' as [|x l' IH]; simpl; intros d Hd Hincl k0 v0.
    - apply Hd.
    - apply IH; [|intros z Hz; apply Hincl; now right].
      intros k1 v1 H1. apply dict_set_In in H1. destruct H1 as [E | H1].
      + inversion E; subst. split; [apply Hincl; now left | reflexivity].
      + now apply Hd. }
  apply (H [] (fun _ _ F => match F with end) l (incl_refl l)).
Qed.

Lemma set_add_In (g x : Z) (xs : list Z) : In g (set_add x xs) -> g = x \/ In g xs.
Proof.
  unfold set_add. destruct (mem x xs); [auto|].
  intros H. apply in_app_iff in H. destruct H as [H | [H | []]]; auto.
Qed.

(** Every group recorded for a camper in [camper_groups] comes from one of
    the memberships. *)
Lemma camper_groups_of_sound (ms : list GroupMembership) (c g : Z) (gids : list Z) :
  In (c, gids) (camper_groups_of ms) -> In g gids ->
  exists m, In m ms /\ gm_camper_id m = c /\ gm_group_id m = g.
Proof.
  unfold camper_groups_of.
  assert (H : forall (d : dict (list Z)),
             (forall c gids g, In (c, gids) d -> In g gids ->
                exists m, In m ms /\ gm_camper_id m = c /\ gm_group_id m = g) ->
             forall l', incl l' ms ->
             forall c gids g,
               In (c, gids)
                  (fold_left (fun d m => setdefault_add d (gm_camper_id m) (gm_group_id m))
                             l' d) ->
               In g gids ->
               exists m, In m ms /\ gm_camper_id m = c /\ gm_group_id m = g).
  { intros d Hd l'. revert d Hd.
    induction l' as [|x l' IH]; simpl; intros d Hd Hincl c0 gids0 g0.
    - apply Hd.
    - apply IH; [|intros z Hz; apply Hincl; now right].
      intros c1 gids1 g1 H1 Hg1. unfold setdefault_add in H1.
      destruct (dict_get d (gm_camper_id x)) as [xs|] eqn:Eget;
        apply dict_set_In in H1; destruct H1 as [E | H1].
      + inversion E; subst. apply set_add_In in Hg1. destruct Hg1 as [-> | Hg1].
        * exists x. split; [apply Hincl; now left | auto].
        * apply dict_get_In in Eget. now apply (Hd _ _ _ Eget).
      + now apply (Hd c1 gids1 g1).
      + inversion E; subst. apply set_add_In in Hg1. destruct Hg1 as [-> | []].
        exists x. split; [apply Hincl; now left | auto].
      + now apply (Hd c1 gids1 g1). }
  intros Hin Hg.
  apply (H [] (fun _ _ _ F => match F with end) ms (incl_refl ms) c gids g Hin Hg).
Qed.

Lemma schedule_events_sound group_ids camp_year s ev :
  In ev (schedule_events group_ids camp_year s) ->
  In ev (rows (group_events s))
  /\ mem (ev_group_id ev) group_ids = true
  /\ exists grp cyr,
       In grp (rows (groups s)) /\ In cyr (rows (camp_years s))
       /\ g_id grp = ev_group_id ev /\ cy_id cyr = g_camp_year_id grp
       /\ (forall y, camp_year = Some y -> cy_year cyr = y).
Proof.
  unfold schedule_events. intros H. apply in_map_iff in H. destruct H as (r & <- & Hr).
  apply (Permutation_in _ (order_by_asc_perm _ _)) in Hr.
  apply filter_camp_year_sound in Hr. destruct Hr as [Hr Hy].
  apply filter_In in Hr. destruct Hr as [Hr Hmem].
  apply events_joined_sound in Hr. destruct Hr as (H1 & H2 & H3 & H4 & H5).
  split; [assumption|]. split; [assumption|].
  exists (snd (fst r)), (snd r). repeat split; auto.
Qed.

(** Every row of the schedule body joins a stored camper of the working
    set, a stored group the camper is a member of, and a stored event of
    that group. *)
Lemma schedule_items_sound camper_ids camp_year s it :
  In it (schedule_items camper_ids camp_year s) ->
  exists camper grp ev,
    it = schedule_item (c_id camper) camper grp ev
    /\ In camper (rows (campers s)) /\ mem (c_id camper) camper_ids = true
    /\ In grp (rows (groups s)) /\ In ev (rows (group_events s))
    /\ ev_group_id ev = g_id grp
    /\ is_member s (c_id camper) (g_id grp)
    /\ (forall y, camp_year = Some y ->
          exists grp' cyr,
            In grp' (rows (groups s)) /\ In cyr (rows (camp_years s))
            /\ g_id grp' = g_id grp /\ cy_id cyr = g_camp_year_id grp'
            /\ cy_year cyr = y).
Proof.
  unfold schedule_items.
  set (ms := filter (fun m => mem (gm_camper_id m) camper_ids) (rows (group_memberships s))).
  destruct ms as [|m0 ms0] eqn:Ems; [intros []|]. rewrite <- Ems. clear Ems m0 ms0.
  unfold schedule_output. intros H.
  apply in_flat_map in H. destruct H as (ev & Hev & H).
  apply in_flat_map in H. destruct H as ([cid gids] & Hkv & H). simpl in H.
  destruct (mem (ev_group_id ev) gids) eqn:Hmem; [|contradiction].
  destruct (dict_get _ cid) as [camper|] eqn:Hc; [|contradiction].
  destruct (dict_get _ (ev_group_id ev)) as [grp|] eqn:Hg; [|contradiction].
  destruct H as [<- | []].
  apply dict_get_In, dict_of_sound in Hc. destruct Hc as [Hc Hcid].
  apply filter_In in Hc. destruct Hc as [Hc Hcmem].
  apply dict_get_In, dict_of_sound in Hg. destruct Hg as [Hg Hgid].
  apply filter_In in Hg. destruct Hg as [Hg _].
  apply schedule_events_sound in Hev.
  destruct Hev as (Hev & _ & grp' & cyr & Hg' & Hcy & Egrp & Ecy & Hy).
  apply mem_true_iff in Hmem.
  destruct (camper_groups_of_sound ms cid (ev_group_id ev) gids Hkv Hmem)
    as (m & Hm & Emc & Emg).
  apply filter_In in Hm. destruct Hm as [Hm _].
  subst cid.
  exists camper, grp, ev. repeat split; auto.
  - exists m. repeat split; auto. congruence.
  - intros y Ey. exists grp', cyr. repeat split; auto. congruence.
Qed.

(** X17: the schedule view never reaches beyond the caller's campers.
    Every row it returns is about a camper the caller owns (the filtered
    camper when a camper filter is given), a group that camper is a member
    of, and a stored event of that group whose fields the row copies; with
    a camp-year filter the group is of that camp year; the call does not
    write. *)
Theorem schedule_shows_own_campers_only :
  forall camper_id camp_year user db items db',
    parent_view_schedule camper_id camp_year user db = (Ok items, db') ->
    db' = db
    /\ forall it, In it items ->
         owns (store db) (u_id user) (psi_camper_id it)
         /\ (forall c, camper_id = Some c -> psi_camper_id it = c)
         /\ is_member (store db) (psi_camper_id it) (psi_group_id it)
         /\ (exists camper,
               In camper (rows (campers (store db)))
               /\ c_id camper = psi_camper_id it
               /\ psi_camper_name it
                  = (c_first_name camper ++ " " ++ c_last_name camper)%string)
         /\ (exists ev,
               In ev (rows (group_events (store db)))
               /\ ev_group_id ev = psi_group_id it /\ ev_id ev = psi_event_id it
               /\ ev_title ev = psi_title it /\ ev_start_time ev = psi_start_time it
               /\ ev_end_time ev = psi_end_time it /\ ev_location ev = psi_location it)
         /\ (forall y, camp_year = Some y ->
               exists grp cyr,
                 In grp (rows (groups (store db))) /\ In cyr (rows (camp_years (store db)))
                 /\ g_id grp = psi_group_id it /\ cy_id cyr = g_camp_year_id grp
                 /\ cy_year cyr = y).
Proof.
  intros camper_id camp_year user db items db' H.
  split; [rewrite <- (parent_view_schedule_reads_only camper_id camp_year user db);
          now rewrite H|].
  assert (Howned : forall c,
             mem c (map pc_camper_id
                        (filter (fun pc => pc_parent_user_id pc =? u_id user)
                                (rows (parent_campers (store db))))) = true ->
             owns (store db) (u_id user) c).
  { intros c Hc. apply mem_true_iff, in_map_iff in Hc. destruct Hc as (pc & E & Hpc).
    apply filter_In in Hpc. destruct Hpc as [Hpc Hp]. apply Z.eqb_eq in Hp.
    now exists pc. }
  assert (Hitems : exists cids,
             items = schedule_items cids camp_year (store db)
             /\ (forall c, mem c cids = true ->
                    owns (store db) (u_id user) c
                    /\ (forall c', camper_id = Some c' -> c = c'))
             \/ items = []).
  { unfold parent_view_schedule, bind, query, ret, raise in H.
    destruct (map pc_camper_id _) as [|c0 cs] eqn:E.
    - exists []. right. now inversion H.
    - rewrite <- E in *. destruct camper_id as [cid|].
      + destruct (mem cid _) eqn:Hm; simpl in H; [|discriminate].
        exists [cid]. left. split; [now inversion H|].
        intros c Hc. apply mem_true_iff in Hc. destruct Hc as [<- | []].
        split; [now apply Howned|]. intros c' Ec. now inversion Ec.
      + exists (map pc_camper_id
                    (filter (fun pc => pc_parent_user_id pc =? u_id user)
                            (rows (parent_campers (store db))))).
        left. split; [now inversion H|].
        intros c Hc. split; [now apply Howned | discriminate]. }
  destruct Hitems as (cids & [[-> Hcids] | ->]); [|intros it []].
  intros it Hit. apply schedule_items_sound in Hit.
  destruct Hit as (camper & grp & ev & -> & Hc & Hmem & Hg & Hev & Eg & Hmember & Hy).
  destruct (Hcids _ Hmem) as [Hown Hfilter]. simpl.
  split; [assumption|]. split; [assumption|]. split; [assumption|].
  split; [now exists camper|]. split; [|assumption].
  exists ev. repeat split; auto.
Qed.

Lemma schedule_shows_own_witness :
  parent_view_schedule (Some 2) (Some 2026) sample_parent family_db
  = (Ok [schedule_item 2 bob otters swim; schedule_item 2 bob hawks hike], family_db)
  /\ owns family_store 2 (psi_camper_id (schedule_item 2 bob hawks hike))
  /\ is_member family_store 2 (psi_group_id (schedule_item 2 bob hawks hike)).
Proof.
  assert (Hrun : parent_view_schedule (Some 2) (Some 2026) sample_parent family_db
                 = (Ok [schedule_item 2 bob otters swim; schedule_item 2 bob hawks hike],
                    family_db)) by reflexivity.
  destruct (schedule_shows_own_campers_only _ _ _ _ _ _ Hrun) as [_ Hall].
  destruct (Hall (schedule_item 2 bob hawks hike) (or_intror (or_introl eq_refl)))
    as (Hown & _ & Hmember & _).
  exact (conj Hrun (conj Hown Hmember)).
Defined.

(** ** Consistency of the store *)

Lemma preserves_add_checked {A : Type} (I : Store -> Prop)
    (tbl : Store -> Table A) (upd : Table A -> Store -> Store)
    (set_id : Z -> A -> A) (violated : A -> Store -> option string) (x : A) :
  (forall s, I s -> violated (set_id (next_id (tbl s)) x) s = None ->
             I (upd (appended tbl (set_id (next_id (tbl s)) x) s) s)) ->
  preserves I (add_commit_refresh tbl upd set_id violated x).
Proof.
  intros Hstep db HI. unfold add_commit_refresh, commit, query, bind, ret. simpl.
  destruct (faults db) as [|[|] fs]; simpl; auto;
    destruct (violated _ (store db)) eqn:V; simpl; auto; now apply Hstep.
Qed.

Lemma pk_snoc {A : Type} (key : A -> Z) (t : Table A) (x : A) :
  unique_on key (rows t) -> fresh_table key t -> key x = next_id t ->
  unique_on key (rows t ++ [x]).
Proof.
  intros Hu Hf Hk. apply unique_on_snoc; [assumption|].
  intros Hin. apply in_map_iff in Hin. destruct Hin as (y & E & Hy).
  specialize (Hf y Hy). lia.
Qed.

Lemma fresh_snoc {A : Type} (key : A -> Z) (t : Table A) (x : A) :
  fresh_table key t -> key x = next_id t ->
  fresh_table key (mkTable (rows t ++ [x]) (next_id t + 1)).
Proof.
  intros Hf Hk y Hy. simpl in *. apply in_app_iff in Hy.
  destruct Hy as [Hy | [<- | []]]; [specialize (Hf y Hy)|]; lia.
Qed.

Lemma uq_snoc {A K : Type} (key : A -> K) (test : A -> bool) (l : list A) (x : A) :
  (forall y, key y = key x -> test y = true) ->
  unique_on key l -> existsb test l = false -> unique_on key (l ++ [x]).
Proof.
  intros Htest Hu He. apply unique_on_snoc; [assumption|].
  intros Hin. apply in_map_iff in Hin. destruct Hin as (y & E & Hy).
  specialize (Htest y E). rewrite (existsb_false_forall _ _ He y Hy) in Htest.
  discriminate.
Qed.

Lemma has_id_exists {A : Type} (key : A -> Z) (i : Z) (l : list A) :
  has_id key i l = true -> exists x, In x l /\ key x = i.
Proof.
  unfold has_id. intros H. apply existsb_exists in H. destruct H as (x & Hx & E).
  apply Z.eqb_eq in E. now exists x.
Qed.

Lemma fk_extend {A B : Type} (P : A -> B -> Prop) (l : list A) (r : list B) (y : B) :
  (forall a, In a l -> exists b, In b r /\ P a b) ->
  forall a, In a l -> exists b, In b (r ++ [y]) /\ P a b.
Proof.
  intros H a Ha. destruct (H a Ha) as (b & Hb & HP). exists b.
  split; [apply in_app_iff; now left | assumption].
Qed.

Ltac split_violation H :=
  unfold first_violation in H;
  repeat match type of H with
         | (if ?b then _ else _) = None =>
             let E := fresh "Hcheck" in destruct b eqn:E; [|discriminate H]
         end.

Ltac consistent_frame :=
  match goal with
  | Hc : consistent _ |- consistent _ =>
      let Hwf := fresh "Hwf" in
      let Hfr := fresh "Hfr" in
      destruct Hc as [Hwf Hfr]; destruct Hwf; destruct Hfr;
      split; constructor; simpl; try assumption
  end.

Lemma add_user_consistent x : preserves consistent (add_user x).
Proof.
  apply preserves_add_checked. intros s Hc Hv.
  unfold user_violated in Hv. simpl in Hv. split_violation Hv.
  apply negb_true_iff in Hcheck.
  consistent_frame.
  - now apply pk_snoc.
  - apply (uq_snoc u_email _ _ _ (fun y E => proj2 (String.eqb_eq _ _) E));
      assumption.
  - now apply fresh_snoc.
Qed.

Ltac pair_test :=
  let y := fresh "y" in
  let E := fresh "E" in
  intros y E; inversion E as [[E1 E2]];
  rewrite ?E1, ?E2, ?Z.eqb_refl, ?String.eqb_refl; reflexivity.

Ltac snoc_cases H :=
  apply in_app_iff in H; destruct H as [H | [<- | []]].

Lemma add_session_token_consistent x :
  preserves consistent
    (add_commit_refresh session_tokens with_session_tokens set_token_id
                        session_token_violated x).
Proof.
  apply preserves_add_checked. intros s Hc Hv.
  unfold session_token_violated in Hv. simpl in Hv. split_violation Hv.
  apply negb_true_iff in Hcheck.
  consistent_frame.
  - now apply pk_snoc.
  - apply (uq_snoc t_token _ _ _ (fun y E => proj2 (String.eqb_eq _ _) E));
      assumption.
  - now apply fresh_snoc.
Qed.

Lemma add_camper_consistent x : preserves consistent (add_camper x).
Proof.
  apply preserves_add_checked. intros s Hc _.
  consistent_frame.
  - now apply pk_snoc.
  - now apply fresh_snoc.
Qed.

Lemma add_parent_camper_consistent x : preserves consistent (add_parent_camper x).
Proof.
  apply preserves_add_checked. intros s Hc Hv.
  unfold parent_camper_violated in Hv. simpl in Hv. split_violation Hv.
  apply negb_true_iff in Hcheck.
  consistent_frame.
  - now apply pk_snoc.
  - apply (uq_snoc (fun pc => (pc_parent_user_id pc, pc_camper_id pc))
                   (fun y => (pc_parent_user_id y =? pc_parent_user_id x)
                             && (pc_camper_id y =? pc_camper_id x)));
      [pair_test | assumption | assumption].
  - now apply fresh_snoc.
Qed.

Lemma add_camp_year_consistent x : preserves consistent (add_camp_year x).
Proof.
  apply preserves_add_checked. intros s Hc Hv.
  unfold camp_year_violated in Hv. simpl in Hv. split_violation Hv.
  apply negb_true_iff in Hcheck.
  consistent_frame.
  - now apply pk_snoc.
  - apply (uq_snoc cy_year _ _ _ (fun y E => proj2 (Z.eqb_eq _ _) E)); assumption.
  - now apply fk_extend.
  - now apply fresh_snoc.
Qed.

Lemma add_enrollment_consistent x : preserves consistent (add_enrollment x).
Proof.
  apply preserves_add_checked. intros s Hc Hv.
  unfold enrollment_violated in Hv. simpl in Hv. split_violation Hv.
  apply negb_true_iff in Hcheck.
  consistent_frame.
  - now apply pk_snoc.
  - apply (uq_snoc (fun e => (e_camp_year_id e, e_camper_id e))
                   (fun y => (e_camp_year_id y =? e_camp_year_id x)
                             && (e_camper_id y =? e_camper_id x)));
      [pair_test | assumption | assumption].
  - now apply fresh_snoc.
Qed.

Lemma add_group_consistent x : preserves consistent (add_group x).
Proof.
  apply preserves_add_checked. intros s Hc Hv.
  unfold group_violated in Hv. simpl in Hv. split_violation Hv.
  apply negb_true_iff in Hcheck. apply has_id_exists in Hcheck0.
  consistent_frame.
  - now apply pk_snoc.
  - apply (uq_snoc (fun g => (g_camp_year_id g, g_name g))
                   (fun y => (g_camp_year_id y =? g_camp_year_id x)
                             && String.eqb (g_name y) (g_name x)));
      [pair_test | assumption | assumption].
  - intros g Hg. snoc_cases Hg; [auto|]. exact Hcheck0.
  - now apply fk_extend.
  - now apply fresh_snoc.
Qed.

Lemma add_group_membership_consistent x : preserves consistent (add_group_membership x).
Proof.
  apply preserves_add_checked. intros s Hc Hv.
  unfold group_membership_violated in Hv. simpl in Hv. split_violation Hv.
  apply negb_true_iff in Hcheck.
  consistent_frame.
  - now apply pk_snoc.
  - apply (uq_snoc (fun m => (gm_group_id m, gm_camper_id m))
                   (fun y => (gm_group_id y =? gm_group_id x)
                             && (gm_camper_id y =? gm_camper_id x)));
      [pair_test | assumption | assumption].
  - now apply fresh_snoc.
Qed.

Lemma add_group_event_consistent x : preserves consistent (add_group_event x).
Proof.
  unfold add_group_event.
  destruct (fits 255 (ev_title x) && fits_opt 255 (ev_location x));
    [|apply preserves_refused].
  apply preserves_add_checked. intros s Hc Hv.
  unfold group_event_violated in Hv. simpl in Hv. split_violation Hv.
  apply has_id_exists in Hcheck.
  consistent_frame.
  - now apply pk_snoc.
  - intros ev Hev. snoc_cases Hev; [auto|]. exact Hcheck.
  - now apply fresh_snoc.
Qed.

Lemma delete_session_token_consistent tok s :
  consistent s -> consistent (delete_session_token tok s).
Proof.
  intros Hc. unfold delete_session_token. consistent_frame.
  - now apply NoDup_map_filter.
  - now apply NoDup_map_filter.
  - intros t Ht. simpl in *. apply filter_In in Ht. destruct Ht as [Ht _]. auto.
Qed.

Lemma update_enrollment_consistent enr status notes s :
  consistent s -> consistent (update_enrollment enr status notes s).
Proof.
  intros Hc. unfold update_enrollment. consistent_frame.
  - unfold unique_on.
    now rewrite (map_update_key e_id
                   (fun e => mkEnrollment (e_id e) (e_camp_year_id e) (e_camper_id e)
                                          status notes)
                   (fun e => e_id e =? e_id enr)).
  - unfold unique_on.
    now rewrite (map_update_key (fun e => (e_camp_year_id e, e_camper_id e))
                   (fun e => mkEnrollment (e_id e) (e_camp_year_id e) (e_camper_id e)
                                          status notes)
                   (fun e => e_id e =? e_id enr)).
  - intros e He. simpl in *. apply in_map_iff in He. destruct He as (e0 & <- & He0).
    destruct (e_id e0 =? e_id enr); simpl; auto.
Qed.

Section Consistency.

Variable cfg : Config.
Variable pwd : CryptContext.

Lemma get_user_by_token_consistent now tokv :
  preserves consistent (get_user_by_token now tokv).
Proof.
  unfold get_user_by_token. repeat preserve_step.
  apply preserves_commit. intros st. apply delete_session_token_consistent.
Qed.

Lemma require_auth_consistent now credentials :
  preserves consistent (require_auth now credentials).
Proof.
  unfold require_auth. repeat preserve_step. apply get_user_by_token_consistent.
Qed.

Lemma protected_consistent {A : Type} role now credentials (handler : User -> M A) :
  (forall u, preserves consistent (handler u)) ->
  preserves consistent (protected role now credentials handler).
Proof.
  intros Hh. unfold protected, require_role. repeat preserve_step; auto.
  apply require_auth_consistent.
Qed.

Lemma get_or_create_camp_year_consistent y :
  preserves consistent (get_or_create_camp_year y).
Proof.
  unfold get_or_create_camp_year. repeat preserve_step. apply add_camp_year_consistent.
Qed.

Lemma app_consistent now tokv credentials req :
  preserves consistent (app cfg pwd now tokv credentials req).
Proof.
  destruct req; unfold app;
    try (apply protected_consistent; intros u);
    apply preserves_fmap.
  - unfold register_parent. repeat preserve_step. apply add_user_consistent.
  - unfold login, create_token. repeat preserve_step. apply add_session_token_consistent.
  - unfold me. repeat preserve_step. apply require_auth_consistent.
  - unfold admin_create_parent. repeat preserve_step. apply add_user_consistent.
  - apply add_camper_consistent.
  - apply preserves_query.
  - unfold parent_add_child. repeat preserve_step;
      [apply add_camper_consistent | apply add_parent_camper_consistent].
  - apply preserves_query.
  - unfold parent_enroll, ensure_parent_owns_camper. repeat preserve_step;
      [apply get_or_create_camp_year_consistent | apply add_enrollment_consistent].
  - unfold parent_list_enrollments. repeat preserve_step.
  - unfold parent_update_enrollment, ensure_parent_owns_camper. repeat preserve_step.
    apply preserves_commit. intros st. apply update_enrollment_consistent.
  - unfold admin_create_group. repeat preserve_step;
      [apply get_or_create_camp_year_consistent | apply add_group_consistent].
  - apply preserves_query.
  - unfold admin_add_group_member. repeat preserve_step.
    apply add_group_membership_consistent.
  - unfold admin_create_event. repeat preserve_step. apply add_group_event_consistent.
  - apply preserves_query.
  - unfold parent_view_schedule. repeat preserve_step.
Qed.

Lemma seed_consistent : preserves consistent (seed_admin_and_year cfg pwd).
Proof.
  unfold seed_admin_and_year. repeat preserve_step;
    [apply add_camp_year_consistent | apply add_user_consistent].
Qed.

End Consistency.

Lemma empty_store_consistent : consistent empty_store.
Proof.
  split; constructor; unfold unique_on, fresh_table; simpl;
    try constructor; intros ? [].
Qed.

(** Every session the system can reach has a consistent store. *)
Lemma reachable_consistent (cfg : Config) (pwd : CryptContext) (db : Db) :
  reachable cfg pwd db -> consistent (store db).
Proof.
  intros Hr. induction Hr as [fs | db now tokv cred req Hr IH | db fs Hr IH].
  - apply (seed_consistent cfg pwd (mkDb empty_store fs)). exact empty_store_consistent.
  - now apply app_consistent.
  - exact IH.
Qed.

Lemma family_store_consistent : consistent family_store.
Proof.
  split; [exact family_store_wf|].
  constructor; intros x Hin; simpl in Hin;
    repeat (destruct Hin as [<- | Hin]; [simpl; lia|]); contradiction.
Qed.

(** ** Referential integrity *)

Ltac refs_frame :=
  match goal with
  | Hr : references_resolve _ |- references_resolve _ =>
      destruct Hr; constructor; simpl; try assumption
  end.

Ltac new_row_refs :=
  let a := fresh "a" in
  let Ha := fresh "Ha" in
  intros a Ha; snoc_cases Ha; [auto | assumption].

Lemma add_user_refs x : preserves references_resolve (add_user x).
Proof.
  apply preserves_add_checked. intros s Hr _. refs_frame; now apply fk_extend.
Qed.

Lemma add_session_token_refs x :
  preserves references_resolve
    (add_commit_refresh session_tokens with_session_tokens set_token_id
                        session_token_violated x).
Proof.
  apply preserves_add_checked. intros s Hr Hv.
  unfold session_token_violated in Hv. simpl in Hv. split_violation Hv.
  apply has_id_exists in Hcheck0.
  refs_frame. new_row_refs.
Qed.

Lemma add_camper_refs x : preserves references_resolve (add_camper x).
Proof.
  apply preserves_add_checked. intros s Hr _. refs_frame; now apply fk_extend.
Qed.

Lemma add_parent_camper_refs x : preserves references_resolve (add_parent_camper x).
Proof.
  apply preserves_add_checked. intros s Hr Hv.
  unfold parent_camper_violated in Hv. simpl in Hv. split_violation Hv.
  apply has_id_exists in Hcheck0. apply has_id_exists in Hcheck1.
  refs_frame; new_row_refs.
Qed.

Lemma add_camp_year_refs x : preserves references_resolve (add_camp_year x).
Proof.
  apply preserves_add_checked. intros s Hr _. refs_frame; now apply fk_extend.
Qed.

Lemma add_enrollment_refs x : preserves references_resolve (add_enrollment x).
Proof.
  apply preserves_add_checked. intros s Hr Hv.
  unfold enrollment_violated in Hv. simpl in Hv. split_violation Hv.
  apply has_id_exists in Hcheck0. apply has_id_exists in Hcheck1.
  refs_frame; new_row_refs.
Qed.

Lemma add_group_refs x : preserves references_resolve (add_group x).
Proof.
  apply preserves_add_checked. intros s Hr _. refs_frame; now apply fk_extend.
Qed.

Lemma add_group_membership_refs x :
  preserves references_resolve (add_group_membership x).
Proof.
  apply preserves_add_checked. intros s Hr Hv.
  unfold group_membership_violated in Hv. simpl in Hv. split_violation Hv.
  apply has_id_exists in Hcheck0. apply has_id_exists in Hcheck1.
  refs_frame; new_row_refs.
Qed.

Lemma add_group_event_refs x : preserves references_resolve (add_group_event x).
Proof.
  unfold add_group_event.
  destruct (fits 255 (ev_title x) && fits_opt 255 (ev_location x));
    [|apply preserves_refused].
  apply preserves_add_checked. intros s Hr _. refs_frame.
Qed.

Lemma delete_session_token_refs tok s :
  references_resolve s -> references_resolve (delete_session_token tok s).
Proof.
  intros Hr. unfold delete_session_token. refs_frame.
  intros t Ht. apply filter_In in Ht. destruct Ht as [Ht _]. auto.
Qed.

Lemma update_enrollment_refs enr status notes s :
  references_resolve s -> references_resolve (update_enrollment enr status notes s).
Proof.
  intros Hr. unfold update_enrollment. refs_frame.
  - intros e He. apply in_map_iff in He. destruct He as (e0 & <- & He0).
    destruct (e_id e0 =? e_id enr); simpl; auto.
  - intros e He. apply in_map_iff in He. destruct He as (e0 & <- & He0).
    destruct (e_id e0 =? e_id enr); simpl; auto.
Qed.

Section References.

Variable cfg : Config.
Variable pwd : CryptContext.

Lemma require_auth_refs now credentials :
  preserves references_resolve (require_auth now credentials).
Proof.
  unfold require_auth, get_user_by_token. repeat preserve_step.
  apply preserves_commit. intros st. apply delete_session_token_refs.
Qed.

Lemma protected_refs {A : Type} role now credentials (handler : User -> M A) :
  (forall u, preserves references_resolve (handler u)) ->
  preserves references_resolve (protected role now credentials handler).
Proof.
  intros Hh. unfold protected, require_role. repeat preserve_step; auto.
  apply require_auth_refs.
Qed.

Lemma get_or_create_camp_year_refs y :
  preserves references_resolve (get_or_create_camp_year y).
Proof.
  unfold get_or_create_camp_year. repeat preserve_step. apply add_camp_year_refs.
Qed.

Lemma app_refs now tokv credentials req :
  preserves references_resolve (app cfg pwd now tokv credentials req).
Proof.
  destruct req; unfold app;
    try (apply protected_refs; intros u);
    apply preserves_fmap.
  - unfold register_parent. repeat preserve_step. apply add_user_refs.
  - unfold login, create_token. repeat preserve_step. apply add_session_token_refs.
  - unfold me. repeat preserve_step. apply require_auth_refs.
  - unfold admin_create_parent. repeat preserve_step. apply add_user_refs.
  - apply add_camper_refs.
  - apply preserves_query.
  - unfold parent_add_child. repeat preserve_step;
      [apply add_camper_refs | apply add_parent_camper_refs].
  - apply preserves_query.
  - unfold parent_enroll, ensure_parent_owns_camper. repeat preserve_step;
      [apply get_or_create_camp_year_refs | apply add_enrollment_refs].
  - unfold parent_list_enrollments. repeat preserve_step.
  - unfold parent_update_enrollment, ensure_parent_owns_camper. repeat preserve_step.
    apply preserves_commit. intros st. apply update_enrollment_refs.
  - unfold admin_create_group. repeat preserve_step;
      [apply get_or_create_camp_year_refs | apply add_group_refs].
  - apply preserves_query.
  - unfold admin_add_group_member. repeat preserve_step.
    apply add_group_membership_refs.
  - unfold admin_create_event. repeat preserve_step. apply add_group_event_refs.
  - apply preserves_query.
  - unfold parent_view_schedule. repeat preserve_step.
Qed.

Lemma seed_refs : preserves references_resolve (seed_admin_and_year cfg pwd).
Proof.
  unfold seed_admin_and_year. repeat preserve_step;
    [apply add_camp_year_refs | apply add_user_refs].
Qed.

End References.

Lemma empty_store_refs : references_resolve empty_store.
Proof. constructor; simpl; intros ? []. Qed.

(** In every session the system can reach, every reference resolves. *)
Lemma reachable_refs (cfg : Config) (pwd : CryptContext) (db : Db) :
  reachable cfg pwd db -> references_resolve (store db).
Proof.
  intros Hr. induction Hr as [fs | db now tokv cred req Hr IH | db fs Hr IH].
  - apply (seed_refs cfg pwd (mkDb empty_store fs)). exact empty_store_refs.
  - now apply app_refs.
  - exact IH.
Qed.

Lemma family_store_refs : references_resolve family_store.
Proof.
  constructor; intros x Hin; simpl in Hin;
    repeat (destruct Hin as [<- | Hin];
            [first [ exists sample_admin; simpl; now auto 8
                   | exists sample_parent; simpl; now auto 8
                   | exists sample_dormant; simpl; now auto 8
                   | exists sample_robin; simpl; now auto 8
                   | exists ann; simpl; now auto 8
                   | exists bob; simpl; now auto 8
                   | exists cy; simpl; now auto 8
                   | exists year_2026; simpl; now auto 8
                   | exists otters; simpl; now auto 8
                   | exists hawks; simpl; now auto 8 ]|]);
    contradiction.
Qed.

(** ** Integrity errors *)

Lemma bind_raise_inv {A B : Type} (m : M A) (k : A -> M B) (db : Db) (e : error) :
  fst (bind m k db) = Raise e ->
  fst (m db) = Raise e \/ exists a db1, m db = (Ok a, db1) /\ fst (k a db1) = Raise e.
Proof.
  unfold bind. destruct (m db) as [[a|e'] db1]; simpl; intros H.
  - right. now exists a, db1.
  - left. now inversion H.
Qed.

Lemma fmap_raise_inv {A B : Type} (f : A -> B) (m : M A) (db : Db) (e : error) :
  fst (fmap f m db) = Raise e -> fst (m db) = Raise e.
Proof.
  unfold fmap. intros H. apply bind_raise_inv in H.
  destruct H as [H | (a & db1 & _ & H)]; [exact H | discriminate].
Qed.

Lemma commit_integrity (violated : Store -> option string) (apply : Store -> Store)
    (db : Db) (c : string) :
  fst (commit violated apply db) = Raise (IntegrityError c) -> violated (store db) = Some c.
Proof.
  unfold commit.
  destruct (faults db) as [|[|] fs]; simpl; try discriminate;
    destruct (violated (store db)); simpl; intros H; now inversion H.
Qed.

Lemma add_integrity {A : Type} (tbl : Store -> Table A) (upd : Table A -> Store -> Store)
    (set_id : Z -> A -> A) (violated : A -> Store -> option string) (x : A) (db : Db)
    (c : string) :
  fst (add_commit_refresh tbl upd set_id violated x db) = Raise (IntegrityError c) ->
  violated (set_id (next_id (tbl (store db))) x) (store db) = Some c.
Proof.
  unfold add_commit_refresh. intros H. apply bind_raise_inv in H.
  destruct H as [H | (s & db1 & Hq & H)]; [discriminate|].
  unfold query in Hq. inversion Hq; subst. clear Hq.
  apply bind_raise_inv in H. destruct H as [H | (u & db2 & _ & H)]; [|discriminate].
  now apply commit_integrity in H.
Qed.

Lemma existsb_filter_nil {A : Type} (p : A -> bool) (l : list A) :
  filter p l = [] -> existsb p l = false.
Proof.
  induction l as [|y l IH]; simpl; [reflexivity|].
  destruct (p y); [discriminate | exact IH].
Qed.

Lemma first_none_existsb {A : Type} (p : A -> bool) (l : list A) :
  first (filter p l) = None -> existsb p l = false.
Proof. intros H. apply existsb_filter_nil. now apply first_none_nil. Qed.

(** *** Resolving the caller *)

Lemma require_auth_ok (now : Z) (credentials : option string) (db db1 : Db) (u : User) :
  require_auth now credentials db = (Ok u, db1) ->
  db1 = db /\ In u (rows (users (store db))).
Proof.
  unfold require_auth. destruct credentials as [tokv|]; [|discriminate].
  destruct (String.eqb tokv _); [discriminate|].
  unfold get_user_by_token, commit, query, ret, raise, bind.
  destruct (first _) as [tok|]; [|discriminate].
  destruct (t_expires_at tok <? now).
  - destruct (faults db) as [|[|] fs]; discriminate.
  - destruct (first _) as [u'|] eqn:E; [|discriminate].
    intros H. inversion H; subst. split; [reflexivity|].
    now apply first_filter_sound in E.
Qed.

Lemma require_auth_integrity (now : Z) (credentials : option string) (db : Db)
    (c : string) :
  fst (require_auth now credentials db) <> Raise (IntegrityError c).
Proof.
  unfold require_auth. destruct credentials as [tokv|]; [|discriminate].
  destruct (String.eqb tokv _); [discriminate|].
  unfold get_user_by_token, commit, query, ret, raise, bind.
  destruct (first _) as [tok|]; [|discriminate].
  destruct (t_expires_at tok <? now).
  - destruct (faults db) as [|[|] fs]; discriminate.
  - destruct (first _) as [u'|]; discriminate.
Qed.

Lemma protected_integrity {A : Type} (role : string) (now : Z)
    (credentials : option string) (handler : User -> M A) (db : Db) (c : string) :
  fst (protected role now credentials handler db) = Raise (IntegrityError c) ->
  exists user, In user (rows (users (store db)))
               /\ fst (handler user db) = Raise (IntegrityError c).
Proof.
  unfold protected. intros H. apply bind_raise_inv in H.
  destruct H as [H | (u & db1 & Hu & H)]; [now apply require_auth_integrity in H|].
  apply require_auth_ok in Hu. destruct Hu as [-> Hin].
  apply bind_raise_inv in H. unfold require_role in H.
  destruct (negb _) in H.
  - destruct H as [H | (u' & db2 & Hr & _)]; discriminate.
  - destruct H as [H | (u' & db2 & Hr & H)]; [discriminate|].
    unfold ret in Hr. inversion Hr; subst. now exists u'.
Qed.

(** *** The handlers that look up before they write *)

Lemma register_parent_integrity pwd payload db c :
  fst (register_parent pwd payload db) <> Raise (IntegrityError c).
Proof.
  unfold register_parent, bind, query, raise.
  destruct (first _) eqn:E; [discriminate|]. intros H.
  unfold add_user in H. apply add_integrity in H.
  unfold user_violated in H. simpl in H.
  rewrite (first_none_existsb _ _ E) in H. discriminate.
Qed.

Lemma admin_create_parent_integrity pwd payload db c :
  fst (admin_create_parent pwd payload db) <> Raise (IntegrityError c).
Proof.
  unfold admin_create_parent, bind, query, raise.
  destruct (first _) eqn:E; [discriminate|]. intros H.
  unfold add_user in H. apply add_integrity in H.
  unfold user_violated in H. simpl in H.
  rewrite (first_none_existsb _ _ E) in H. discriminate.
Qed.

Lemma get_or_create_camp_year_integrity y db c :
  fst (get_or_create_camp_year y db) <> Raise (IntegrityError c).
Proof.
  unfold get_or_create_camp_year, bind, query, ret.
  destruct (first _) eqn:E; [discriminate|]. intros H.
  unfold add_camp_year in H. apply add_integrity in H.
  unfold camp_year_violated in H. simpl in H.
  rewrite (first_none_existsb _ _ E) in H. discriminate.
Qed.

Lemma admin_create_camper_integrity payload db c :
  fst (admin_create_camper payload db) <> Raise (IntegrityError c).
Proof.
  unfold admin_create_camper, add_camper. intros H.
  apply add_integrity in H. discriminate.
Qed.

Lemma parent_add_child_integrity payload user db c :
  consistent (store db) -> references_resolve (store db) ->
  In user (rows (users (store db))) ->
  fst (parent_add_child payload user db) <> Raise (IntegrityError c).
Proof.
  intros [_ Hfresh] Hrefs Huser H. unfold parent_add_child in H.
  apply bind_raise_inv in H. destruct H as [H | (camper & db1 & Hc & H)].
  - unfold add_camper in H. apply add_integrity in H. discriminate.
  - unfold add_camper in Hc. apply add_commit_refresh_inv in Hc.
    destruct Hc as (Ecamper & _ & Hs).
    unfold add_parent_camper in H. apply add_integrity in H.
    unfold parent_camper_violated in H. simpl in H. rewrite Hs in H. simpl in H.
    assert (Eid : c_id camper = next_id (campers (store db)))
      by (rewrite Ecamper; reflexivity).
    assert (Hnew : existsb (fun x => (pc_parent_user_id x =? u_id user)
                                     && (pc_camper_id x =? c_id camper))
                           (rows (parent_campers (store db))) = false).
    { apply existsb_none. intros pc Hpc.
      destruct (ref_link_camper _ Hrefs pc Hpc) as (c0 & Hc0 & Ec0).
      assert (Hlt := fresh_campers _ Hfresh c0 Hc0).
      apply andb_false_iff. right. apply Z.eqb_neq. lia. }
    rewrite Hnew in H. simpl in H.
    rewrite (has_id_true u_id _ _ user Huser eq_refl) in H.
    rewrite (has_id_true c_id (c_id camper) (rows (campers (store db)) ++ [camper]) camper)
      in H; [discriminate | apply in_snoc | reflexivity].
Qed.

Lemma parent_enroll_integrity payload user db c :
  references_resolve (store db) ->
  fst (parent_enroll payload user db) <> Raise (IntegrityError c).
Proof.
  intros Hrefs H. unfold parent_enroll in H.
  apply bind_raise_inv in H. destruct H as [H | ([] & db0 & Hown & H)].
  - unfold ensure_parent_owns_camper, bind, query, raise, ret in H.
    destruct (first _) in H; discriminate.
  - apply ensure_parent_owns_camper_ok_inv in Hown. destruct Hown as [Hown ->].
    destruct Hown as (pc & Hpc & _ & Epc).
    destruct (ref_link_camper _ Hrefs pc Hpc) as (c0 & Hc0 & Ec0).
    apply bind_raise_inv in H. destruct H as [H | (cyr & db1 & Hcy & H)];
      [now apply get_or_create_camp_year_integrity in H|].
    apply get_or_create_camp_year_first in Hcy. destruct Hcy as [Hfirst Hdb1].
    apply first_filter_sound in Hfirst. destruct Hfirst as [Hcyr _].
    assert (Hcampers : rows (campers (store db1)) = rows (campers (store db)))
      by (destruct Hdb1 as [-> | (_ & _ & ->)]; reflexivity).
    unfold bind, query, raise in H.
    destruct (first _) eqn:E in H; [discriminate|].
    unfold add_enrollment in H. apply add_integrity in H.
    unfold enrollment_violated in H. simpl in H.
    rewrite (first_none_existsb _ _ E) in H. simpl in H.
    rewrite (has_id_true cy_id _ _ cyr Hcyr eq_refl) in H.
    rewrite Hcampers in H.
    rewrite (has_id_true c_id _ _ c0 Hc0) in H; [discriminate|].
    now rewrite Ec0.
Qed.

Lemma parent_update_enrollment_integrity i payload user db c :
  fst (parent_update_enrollment i payload user db) <> Raise (IntegrityError c).
Proof.
  unfold parent_update_enrollment, ensure_parent_owns_camper, commit, query, raise, ret,
    bind.
  destruct (first _); [|discriminate].
  destruct (first _); [|discriminate].
  destruct (faults db) as [|[|] fs]; discriminate.
Qed.

Lemma admin_add_group_member_integrity g payload db c :
  fst (admin_add_group_member g payload db) <> Raise (IntegrityError c).
Proof.
  unfold admin_add_group_member, bind, query, raise.
  destruct (first _) eqn:Eg; [|discriminate].
  apply first_filter_sound in Eg. destruct Eg as [Hg Eg]. apply Z.eqb_eq in Eg.
  destruct (first _) eqn:Ec; [|discriminate].
  apply first_filter_sound in Ec. destruct Ec as [Hc Ec]. apply Z.eqb_eq in Ec.
  destruct (first _) eqn:Em; [discriminate|]. intros H.
  unfold add_group_membership in H. apply add_integrity in H.
  unfold group_membership_violated in H. simpl in H.
  rewrite (first_none_existsb _ _ Em) in H. simpl in H.
  rewrite (has_id_true g_id _ _ _ Hg Eg), (has_id_true c_id _ _ _ Hc Ec) in H.
  discriminate.
Qed.

Lemma admin_create_event_integrity payload db c :
  fst (admin_create_event payload db) <> Raise (IntegrityError c).
Proof.
  unfold admin_create_event, bind, query, raise.
  destruct (first _) eqn:Eg; [|discriminate].
  apply first_filter_sound in Eg. destruct Eg as [Hg Eg]. apply Z.eqb_eq in Eg.
  destruct (datetime_leb _ _) as [[|]|]; try discriminate.
  unfold add_group_event. destruct (fits 255 _ && fits_opt 255 _).
  - intros H. apply add_integrity in H.
    unfold group_event_violated in H. simpl in H.
    rewrite (has_id_true g_id _ _ _ Hg Eg) in H. discriminate.
  - unfold refused. destruct (faults db) as [|[|] fs]; discriminate.
Qed.

(** *** The two writes without a look-up *)

Lemma login_integrity cfg pwd token_value now payload db c :
  fst (login cfg pwd token_value now payload db) = Raise (IntegrityError c) ->
  c = "uq_session_token"%string
  /\ exists t, In t (rows (session_tokens (store db))) /\ t_token t = token_value.
Proof.
  unfold login. intros H. apply bind_raise_inv in H.
  destruct H as [H | (user & db1 & Hq & H)]; [discriminate|].
  unfold query in Hq. injection Hq as Euser Edb. subst db1.
  destruct user as [u|]; [|discriminate]. rename Euser into Eu.
  apply first_filter_sound in Eu. destruct Eu as [Hu _].
  destruct (negb _); [discriminate|].
  apply bind_raise_inv in H. destruct H as [H | (tok & db2 & _ & H)]; [|discriminate].
  unfold create_token in H. apply add_integrity in H.
  unfold session_token_violated in H. simpl in H.
  destruct (existsb _ (rows (session_tokens (store db)))) eqn:Et; simpl in H.
  - inversion H. split; [reflexivity|].
    apply existsb_exists in Et. destruct Et as (t & Ht & Et).
    apply String.eqb_eq in Et. now exists t.
  - rewrite (has_id_true u_id _ _ u Hu eq_refl) in H. discriminate.
Qed.

Lemma admin_create_group_integrity payload db c :
  consistent (store db) ->
  fst (admin_create_group payload db) = Raise (IntegrityError c) ->
  c = "uq_group_year_name"%string
  /\ exists cyr g,
       In cyr (rows (camp_years (store db))) /\ cy_year cyr = gc_camp_year payload
       /\ In g (rows (groups (store db))) /\ g_camp_year_id g = cy_id cyr
       /\ g_name g = gc_name payload.
Proof.
  intros [Hwf Hfresh] H. unfold admin_create_group in H.
  apply bind_raise_inv in H. destruct H as [H | (cyr & db1 & Hcy & H)];
    [now apply get_or_create_camp_year_integrity in H|].
  apply get_or_create_camp_year_first in Hcy. destruct Hcy as [Hfirst Hdb1].
  apply first_filter_sound in Hfirst. destruct Hfirst as [Hcyr Ey]. apply Z.eqb_eq in Ey.
  unfold add_group in H. apply add_integrity in H.
  unfold group_violated in H. simpl in H.
  destruct (existsb _ (rows (groups (store db1)))) eqn:Eg; simpl in H.
  - inversion H. split; [reflexivity|].
    apply existsb_exists in Eg. destruct Eg as (g & Hg & Eg).
    apply andb_true_iff in Eg. destruct Eg as [Egy Egn].
    apply Z.eqb_eq in Egy. apply String.eqb_eq in Egn.
    destruct Hdb1 as [-> | (_ & Ecyr & Hs)].
    + now exists cyr, g.
    + exfalso. rewrite Hs in Hg. simpl in Hg.
      destruct (fk_groups_camp_year _ Hwf g Hg) as (c0 & Hc0 & Ec0).
      assert (Hlt := fresh_camp_years _ Hfresh c0 Hc0).
      rewrite Ecyr in Egy. simpl in Egy. lia.
  - rewrite (has_id_true cy_id _ _ cyr Hcyr eq_refl) in H. discriminate.
Qed.

(** X18: integrity errors come from the two unguarded writes only.  With
    requests served one after the other, in every session the system can
    reach, and in every session whose store is consistent with all
    references resolving, a request ends in an
    [IntegrityError] (an answer 500) only when it creates a group whose name
    is already taken in its camp year, the constraint being
    [uq_group_year_name], or when the token value drawn for a login is
    already stored, the constraint being [uq_session_token].  Every other
    write is preceded by the look-ups of its handler, which keep the unique
    constraints and the foreign keys from ever being violated. *)
Theorem integrity_errors_come_from_unguarded_writes :
  forall cfg pwd db now token_value credentials req c,
    reachable cfg pwd db \/ (consistent (store db) /\ references_resolve (store db)) ->
    fst (app cfg pwd now token_value credentials req db) = Raise (IntegrityError c) ->
    unguarded_duplicate req token_value c (store db).
Proof.
  intros cfg pwd db now token_value credentials req c Hdb H.
  assert (Hinv : consistent (store db) /\ references_resolve (store db)).
  { destruct Hdb as [Hr | Hinv]; [|exact Hinv].
    split; [exact (reachable_consistent _ _ _ Hr) | exact (reachable_refs _ _ _ Hr)]. }
  destruct Hinv as [Hcons Hrefs]. clear Hdb.
  destruct req; unfold app in H;
    try (apply protected_integrity in H; destruct H as (user & Huser & H));
    try apply fmap_raise_inv in H.
  - now apply register_parent_integrity in H.
  - right. apply login_integrity in H. destruct H as (-> & t & Ht & Et).
    now exists payload, t.
  - apply bind_raise_inv in H. destruct H as [H | (u & db1 & _ & H)];
      [now apply require_auth_integrity in H | discriminate].
  - now apply admin_create_parent_integrity in H.
  - now apply admin_create_camper_integrity in H.
  - discriminate.
  - now apply parent_add_child_integrity in H.
  - discriminate.
  - now apply parent_enroll_integrity in H.
  - unfold parent_list_enrollments, bind, query, ret in H.
    destruct camp_year; [destruct (first _) in H|]; discriminate.
  - now apply parent_update_enrollment_integrity in H.
  - left. apply admin_create_group_integrity in H; [|exact Hcons].
    destruct H as (-> & cyr & g & H). now exists payload, cyr, g.
  - discriminate.
  - now apply admin_add_group_member_integrity in H.
  - now apply admin_create_event_integrity in H.
  - rewrite admin_list_events_run in H. discriminate.
  - unfold parent_view_schedule, bind, query, raise, ret in H.
    repeat (break_match; simpl in *; try discriminate).
Qed.

Lemma integrity_errors_witness :
  fst (app default_config sample_pwd 200 "unused" (Some "tok-admin"%string)
           (PostAdminGroups (mkGroupCreate 2026 "Otters" None)) family_db)
  = Raise (IntegrityError "uq_group_year_name")
  /\ unguarded_duplicate (PostAdminGroups (mkGroupCreate 2026 "Otters" None)) "unused"
                         "uq_group_year_name" family_store.
Proof.
  split; [reflexivity|].
  apply (integrity_errors_come_from_unguarded_writes
           default_config sample_pwd family_db 200 "unused"%string
           (Some "tok-admin"%string)
           (PostAdminGroups (mkGroupCreate 2026 "Otters" None))
           "uq_group_year_name"%string
           (or_intror (conj family_store_consistent family_store_refs))).
  reflexivity.
Defined.

(** ** The schedule view leaves nothing out *)









(** ** Writes seen by later reads *)

Lemma join_In_intro {A B : Type} (on : A -> B -> bool) (l : list A) (r : list B)
    (a : A) (b : B) :
  In a l -> In b r -> on a b = true -> In (a, b) (join on l r).
Proof.
  intros Ha Hb Hon. unfold join. apply in_flat_map. exists a. split; [assumption|].
  apply in_map. apply filter_In. auto.
Qed.

(** X21: a child added by [parent_add_child] belongs to the caller from then
    on: the camper row carries the fields of the request, the ownership
    check passes for the caller, the child appears in the caller's listing,
    and every earlier ownership is kept. *)
Theorem added_child_belongs_to_the_parent :
  forall payload user db link db',
    parent_add_child payload user db = (Ok link, db') ->
    pc_parent_user_id link = u_id user
    /\ In (camper_of_payload (pc_camper_id link) payload) (rows (campers (store db')))
    /\ owns (store db') (u_id user) (pc_camper_id link)
    /\ ensure_parent_owns_camper (u_id user) (pc_camper_id link) db' = (Ok tt, db')
    /\ (exists l, parent_list_children user db' = (Ok l, db') /\ In link l)
    /\ (forall p c, owns (store db) p c -> owns (store db') p c).
Proof.
  intros payload user db link db' H.
  unfold parent_add_child, bind in H.
  destruct (add_camper _ db) as [[c|e] db1] eqn:E1; [|discriminate].
  unfold add_camper in E1. apply add_commit_refresh_inv in E1.
  destruct E1 as (Ec & _ & Hs1).
  unfold add_parent_camper in H. apply add_commit_refresh_inv in H.
  destruct H as (El & _ & Hs).
  assert (Hlink : In link (rows (parent_campers (store db')))).
  { rewrite Hs. simpl. apply in_snoc. }
  assert (Hp : pc_parent_user_id link = u_id user) by (rewrite El; reflexivity).
  assert (Hc : pc_camper_id link = c_id c) by (rewrite El; reflexivity).
  assert (Hown : owns (store db') (u_id user) (pc_camper_id link))
    by (exists link; auto).
  split; [exact Hp|]. split; [|split; [exact Hown|split; [|split]]].
  - rewrite Hs, Hs1, Hc, Ec. simpl. apply in_snoc.
  - now apply ensure_parent_owns_camper_passes.
  - eexists. split; [reflexivity|].
    apply (Permutation_in _ (Permutation_sym (order_by_desc_perm _ _))).
    apply filter_In. split; [exact Hlink | now apply Z.eqb_eq].
  - intros p c0 (pc & Hpc & Hpp & Hpc0). exists pc. split; [|auto].
    rewrite Hs, Hs1. simpl. apply in_app_iff. now left.
Qed.

Lemma added_child_witness :
  exists link db',
    parent_add_child (mkCamperCreate "Dee" "Lee" None None) sample_quinn family_db
    = (Ok link, db')
    /\ ensure_parent_owns_camper 4 4 db' = (Ok tt, db')
    /\ In (mkCamper 4 "Dee" "Lee" None None) (rows (campers (store db'))).
Proof.
  exists (mkParentCamper 4 4 4).
  exists (snd (parent_add_child (mkCamperCreate "Dee" "Lee" None None) sample_quinn
                                family_db)).
  assert (H : parent_add_child (mkCamperCreate "Dee" "Lee" None None) sample_quinn family_db
              = (Ok (mkParentCamper 4 4 4),
                 snd (parent_add_child (mkCamperCreate "Dee" "Lee" None None) sample_quinn
                                       family_db))) by reflexivity.
  destruct (added_child_belongs_to_the_parent _ _ _ _ _ H) as (_ & Hc & _ & He & _).
  exact (conj H (conj He Hc)).
Defined.

(** X22: an enrollment made by [parent_enroll] shows up in the caller's
    listing right after, without filter and with the filter on its camp
    year. *)
Theorem enrollment_is_listed_after_enroll :
  forall payload user db enr db',
    parent_enroll payload user db = (Ok enr, db') ->
    forall camp_year,
      camp_year = None \/ camp_year = Some (ec_camp_year payload) ->
      exists l, parent_list_enrollments user camp_year db' = (Ok l, db') /\ In enr l.
Proof.
  intros payload user db enr db' H camp_year Hfilter.
  unfold parent_enroll, bind in H.
  destruct (ensure_parent_owns_camper _ _ db) as [[[]|e0] db0] eqn:E0; [|discriminate].
  apply ensure_parent_owns_camper_ok_inv in E0.
  destruct E0 as [(pc & Hpc & Hpp & Hpcc) ->].
  destruct (get_or_create_camp_year _ db) as [[cyr|e1] db1] eqn:E1; [|discriminate].
  apply get_or_create_camp_year_first in E1. destruct E1 as [Hfirst Hcase].
  assert (Hlinks : parent_campers (store db1) = parent_campers (store db)).
  { destruct Hcase as [-> | (_ & _ & ->)]; reflexivity. }
  unfold query, raise in H. destruct (first _) in H; [discriminate|].
  unfold add_enrollment in H. apply add_commit_refresh_inv in H.
  destruct H as (Eenr & Hv & Hs).
  unfold enrollment_violated in Hv. simpl in Hv. split_violation Hv.
  apply has_id_exists in Hcheck1. destruct Hcheck1 as (c & Hc & Ecid).
  rewrite Eenr in Ecid. simpl in Ecid.
  set (q := filter (fun r : Enrollment * Camper * ParentCamper =>
                      pc_parent_user_id (snd r) =? u_id user)
                   (join (fun ec pc => pc_camper_id pc =? c_id (snd ec))
                         (join (fun e c => c_id c =? e_camper_id e)
                               (rows (enrollments (store db'))) (rows (campers (store db'))))
                         (rows (parent_campers (store db'))))).
  assert (Hq : In (enr, c, pc) q).
  { apply filter_In. split; [|simpl; now apply Z.eqb_eq].
    apply join_In_intro.
    - apply join_In_intro.
      + rewrite Hs. simpl. apply in_snoc.
      + rewrite Hs. exact Hc.
      + apply Z.eqb_eq. rewrite Eenr. simpl. exact Ecid.
    - rewrite Hs. simpl. rewrite Hlinks. exact Hpc.
    - simpl. apply Z.eqb_eq. congruence. }
  unfold parent_list_enrollments, bind, query. simpl. fold q.
  destruct Hfilter as [-> | ->].
  - eexists. split; [reflexivity|].
    apply in_map_iff. exists (enr, c, pc). split; [reflexivity|].
    now apply (Permutation_in _ (Permutation_sym (order_by_desc_perm _ _))).
  - assert (Hfirst' : first (filter (fun c => cy_year c =? ec_camp_year payload)
                                    (rows (camp_years (store db')))) = Some cyr)
      by (rewrite Hs; exact Hfirst).
    rewrite Hfirst'.
    eexists. split; [reflexivity|].
    apply in_map_iff. exists (enr, c, pc). split; [reflexivity|].
    apply (Permutation_in _ (Permutation_sym (order_by_desc_perm _ _))).
    apply filter_In. split; [exact Hq|].
    simpl. apply Z.eqb_eq. rewrite Eenr. reflexivity.
Qed.

Lemma enrollment_is_listed_witness :
  exists db',
    parent_enroll (mkEnrollmentCreate 2 2027) sample_parent family_db
    = (Ok (mkEnrollment 2 2 2 "pending" None), db')
    /\ parent_list_enrollments sample_parent (Some 2027) db'
       = (Ok [mkEnrollment 2 2 2 "pending" None], db').
Proof.
  exists (snd (parent_enroll (mkEnrollmentCreate 2 2027) sample_parent family_db)).
  assert (H : parent_enroll (mkEnrollmentCreate 2 2027) sample_parent family_db
              = (Ok (mkEnrollment 2 2 2 "pending" None),
                 snd (parent_enroll (mkEnrollmentCreate 2 2027) sample_parent family_db)))
    by reflexivity.
  destruct (enrollment_is_listed_after_enroll _ _ _ _ _ H (Some 2027) (or_intror eq_refl))
    as (l & Hl & _).
  split; [exact H|]. rewrite Hl. f_equal. inversion Hl. reflexivity.
Defined.

(** X23: an event created by [admin_create_event] on a well-formed store is
    returned by [admin_list_events] right after, without filter and with
    the filter on its group. *)
Theorem event_is_listed_after_creation :
  forall payload db ev db',
    wf_store (store db) ->
    admin_create_event payload db = (Ok ev, db') ->
    forall group_id,
      group_id = None \/ group_id = Some (gec_group_id payload) ->
      exists l, admin_list_events group_id None db' = (Ok l, db') /\ In ev l.
Proof.
  intros payload db ev db' Hwf H group_id Hfilter.
  unfold admin_create_event, bind, query, raise in H.
  destruct (first _) as [g|] eqn:Hg in H; [|discriminate].
  apply first_filter_sound in Hg. destruct Hg as [Hg Egid]. apply Z.eqb_eq in Egid.
  destruct (datetime_leb _ _) as [[|]|] in H; try discriminate.
  apply add_group_event_ok_inv in H. destruct H as [_ H].
  apply add_commit_refresh_inv in H.
  destruct H as (Eev & _ & Hs).
  destruct (fk_groups_camp_year _ Hwf g Hg) as (cyr & Hcy & Ecy).
  assert (Hj : In (ev, g, cyr) (events_joined (store db'))).
  { unfold events_joined. rewrite Hs. simpl. apply join_In_intro.
    - apply join_In_intro; [apply in_snoc | exact Hg |].
      apply Z.eqb_eq. rewrite Eev. simpl. exact Egid.
    - exact Hcy.
    - simpl. now apply Z.eqb_eq. }
  eexists. split; [apply admin_list_events_run|].
  apply in_map_iff. exists (ev, g, cyr). split; [reflexivity|].
  apply (Permutation_in _ (Permutation_sym (order_by_asc_perm _ _))).
  destruct Hfilter as [-> | ->]; simpl; [exact Hj|].
  apply filter_In. split; [exact Hj|].
  unfold event_of. simpl. apply Z.eqb_eq. rewrite Eev. reflexivity.
Qed.

Lemma event_is_listed_witness :
  exists db',
    admin_create_event
      (mkGroupEventCreate 1 "Yoga" None None (Aware 28800000000) (Aware 32400000000))
      family_db
    = (Ok (mkGroupEvent 3 1 "Yoga" None None 28800000000 32400000000), db')
    /\ admin_list_events (Some 1) None db'
       = (Ok [mkGroupEvent 3 1 "Yoga" None None 28800000000 32400000000; swim], db').
Proof.
  exists (snd (admin_create_event
                 (mkGroupEventCreate 1 "Yoga" None None (Aware 28800000000) (Aware 32400000000)) family_db)).
  assert (H : admin_create_event
                (mkGroupEventCreate 1 "Yoga" None None (Aware 28800000000) (Aware 32400000000)) family_db
              = (Ok (mkGroupEvent 3 1 "Yoga" None None 28800000000 32400000000),
                 snd (admin_create_event
                        (mkGroupEventCreate 1 "Yoga" None None (Aware 28800000000) (Aware 32400000000))
                        family_db))) by reflexivity.
  destruct (event_is_listed_after_creation
              (mkGroupEventCreate 1 "Yoga" None None (Aware 28800000000) (Aware 32400000000)) family_db
              _ _ family_store_wf H (Some 1) (or_intror eq_refl)) as (l & Hl & _).
  split; [exact H|]. rewrite Hl. f_equal. inversion Hl. reflexivity.
Defined.

(** X24: the startup seeding is idempotent and never overwrites.  After a
    successful seeding the seed camp year and an account with the seed
    admin email are stored, and seeding again changes nothing; accounts
    present before are kept; an account already holding the seed email is
    left as it is, otherwise the admin account is created with role admin,
    active, and the hash of the seed password. *)
Theorem seeding_is_idempotent :
  forall cfg pwd db db1,
    seed_admin_and_year cfg pwd db = (Ok tt, db1) ->
    seed_admin_and_year cfg pwd db1 = (Ok tt, db1)
    /\ (exists cyr, In cyr (rows (camp_years (store db1)))
                    /\ cy_year cyr = APP_SEED_CAMP_YEAR cfg)
    /\ (exists u, In u (rows (users (store db1)))
                  /\ u_email u = APP_SEED_ADMIN_EMAIL cfg)
    /\ (forall u, In u (rows (users (store db))) -> In u (rows (users (store db1))))
    /\ ((exists u, In u (rows (users (store db)))
                   /\ u_email u = APP_SEED_ADMIN_EMAIL cfg) ->
        users (store db1) = users (store db))
    /\ ((forall u, In u (rows (users (store db))) ->
                   u_email u <> APP_SEED_ADMIN_EMAIL cfg) ->
        rows (users (store db1))
        = rows (users (store db))
          ++ [mkUser (next_id (users (store db))) (APP_SEED_ADMIN_EMAIL cfg)
                     "Default Admin" (hash_password pwd (APP_SEED_ADMIN_PASSWORD cfg))
                     "admin" true]).
Proof.
  intros cfg pwd db db1 H.
  unfold seed_admin_and_year in H. unfold bind at 1 2 in H. unfold query at 1 in H.
  (* the camp year *)
  assert (Hyear : exists db0,
             first (filter (fun c => cy_year c =? APP_SEED_CAMP_YEAR cfg)
                           (rows (camp_years (store db0)))) <> None
             /\ users (store db0) = users (store db)
             /\ (bind (query (fun s =>
                         first (filter (fun u => String.eqb (u_email u)
                                                            (APP_SEED_ADMIN_EMAIL cfg))
                                       (rows (users s)))))
                      (fun admin =>
                         match admin with
                         | Some _ => ret tt
                         | None =>
                             bind (add_user
                                     (mkUser 0 (APP_SEED_ADMIN_EMAIL cfg) "Default Admin"
                                        (hash_password pwd (APP_SEED_ADMIN_PASSWORD cfg))
                                        "admin" true))
                                  (fun _ => ret tt)
                         end)) db0 = (Ok tt, db1)).
  { destruct (first (filter (fun c => cy_year c =? APP_SEED_CAMP_YEAR cfg)
                            (rows (camp_years (store db))))) as [c|] eqn:Ey.
    - exists db. rewrite Ey. split; [discriminate|]. split; [reflexivity|]. exact H.
    - unfold bind at 1 in H.
      destruct (add_camp_year _ db) as [[c|e] db0] eqn:Eadd; [|discriminate].
      exists db0. unfold add_camp_year in Eadd. apply add_commit_refresh_inv in Eadd.
      destruct Eadd as (Ec & _ & Hs). split; [|split; [now rewrite Hs | exact H]].
      rewrite Hs. simpl. rewrite filter_app_last. rewrite Ec. simpl.
      rewrite Z.eqb_refl. destruct (filter _ _); discriminate. }
  clear H. destruct Hyear as (db0 & Hy0 & Hu0 & H).
  unfold bind at 1 in H. unfold query in H. rewrite Hu0 in H.
  destruct (first (filter (fun u => String.eqb (u_email u) (APP_SEED_ADMIN_EMAIL cfg))
                          (rows (users (store db))))) as [a|] eqn:Ea.
  - inversion H; subst db1. clear H.
    assert (Hagain : seed_admin_and_year cfg pwd db0 = (Ok tt, db0)).
    { unfold seed_admin_and_year, bind, query, ret.
      destruct (first (filter (fun c => cy_year c =? APP_SEED_CAMP_YEAR cfg) _));
        [|contradiction].
      now rewrite Hu0, Ea. }
    apply first_filter_sound in Ea. destruct Ea as [Ha Ema]. apply String.eqb_eq in Ema.
    split; [exact Hagain|]. split; [|split; [|split; [|split]]].
    + destruct (first _) as [c|] eqn:Ec in Hy0; [|contradiction].
      apply first_filter_sound in Ec. destruct Ec as [Hc Ecy]. apply Z.eqb_eq in Ecy.
      now exists c.
    + exists a. rewrite Hu0. auto.
    + intros u Hu. now rewrite Hu0.
    + intros _. exact Hu0.
    + intros Hnone. exfalso. now apply (Hnone a Ha).
  - apply first_none_nil in Ea. unfold bind in H.
    destruct (add_user _ db0) as [[u|e] db2] eqn:Eadd; [|discriminate].
    inversion H; subst db2. clear H.
    unfold add_user in Eadd. apply add_commit_refresh_inv in Eadd.
    destruct Eadd as (Eu & _ & Hs). rewrite Hu0 in Eu.
    assert (Hrows : rows (users (store db1)) = rows (users (store db)) ++ [u])
      by (rewrite Hs; simpl; now rewrite Hu0).
    assert (Hagain : seed_admin_and_year cfg pwd db1 = (Ok tt, db1)).
    { unfold seed_admin_and_year, bind, query, ret.
      replace (camp_years (store db1)) with (camp_years (store db0))
        by (rewrite Hs; reflexivity).
      destruct (first (filter (fun c => cy_year c =? APP_SEED_CAMP_YEAR cfg) _));
        [|contradiction].
      rewrite Hrows, filter_app_last, Ea, Eu. simpl. now rewrite String.eqb_refl. }
    split; [exact Hagain|]. split; [|split; [|split; [|split]]].
    + destruct (first _) as [c|] eqn:Ec in Hy0; [|contradiction].
      apply first_filter_sound in Ec. destruct Ec as [Hc Ecy]. apply Z.eqb_eq in Ecy.
      exists c. split; [|assumption]. rewrite Hs. exact Hc.
    + exists u. split; [rewrite Hrows; apply in_snoc | now rewrite Eu].
    + intros u0 Hu0'. rewrite Hrows. apply in_app_iff. now left.
    + intros (u0 & Hin0 & Em0). exfalso.
      assert (Hf : In u0 (filter (fun u => String.eqb (u_email u) (APP_SEED_ADMIN_EMAIL cfg))
                                 (rows (users (store db)))))
        by (apply filter_In; split; [assumption | now apply String.eqb_eq]).
      rewrite Ea in Hf. contradiction.
    + intros _. rewrite Hrows, Eu. reflexivity.
Qed.

Lemma seeding_is_idempotent_witness :
  exists db1,
    seed_admin_and_year default_config sample_pwd (mkDb empty_store []) = (Ok tt, db1)
    /\ seed_admin_and_year default_config sample_pwd db1 = (Ok tt, db1)
    /\ rows (users (store db1))
       = [mkUser 1 "admin@camp.local" "Default Admin" "bcrypt$admin1234" "admin" true].
Proof.
  exists (snd (seed_admin_and_year default_config sample_pwd (mkDb empty_store []))).
  assert (H : seed_admin_and_year default_config sample_pwd (mkDb empty_store [])
              = (Ok tt, snd (seed_admin_and_year default_config sample_pwd
                                                 (mkDb empty_store [])))) by reflexivity.
  destruct (seeding_is_idempotent _ _ _ _ H) as (Hagain & _ & _ & _ & _ & Hnew).
  refine (conj H (conj Hagain _)).
  apply Hnew. simpl. intros u [].
Defined.

Lemma admin_list_groups_run camp_year db :
  admin_list_groups camp_year db
  = (Ok (map fst
           (order_by_desc (fun r : Group * CampYear => g_id (fst r))
              (match camp_year with
               | Some y => filter (fun r : Group * CampYear => cy_year (snd r) =? y)
                                  (join (fun g c => cy_id c =? g_camp_year_id g)
                                        (rows (groups (store db)))
                                        (rows (camp_years (store db))))
               | None => join (fun g c => cy_id c =? g_camp_year_id g)
                              (rows (groups (store db))) (rows (camp_years (store db)))
               end))), db).
Proof. reflexivity. Qed.

(** X25: [admin_list_groups] lists stored groups by descending id, only
    groups of the requested camp year when the filter is given, and does
    not write; on a well-formed store and without filter it lists every
    group exactly once. *)
Theorem admin_list_groups_contract :
  forall camp_year db,
    exists l,
      admin_list_groups camp_year db = (Ok l, db)
      /\ StronglySorted (fun a b => g_id b <= g_id a) l
      /\ (forall g, In g l ->
            In g (rows (groups (store db)))
            /\ (forall y, camp_year = Some y ->
                  exists cyr, In cyr (rows (camp_years (store db)))
                              /\ cy_id cyr = g_camp_year_id g /\ cy_year cyr = y))
      /\ (wf_store (store db) -> camp_year = None ->
          Permutation l (rows (groups (store db)))).
Proof.
  intros camp_year db. eexists. split; [apply admin_list_groups_run|].
  split; [|split].
  - apply StronglySorted_map.
    apply (order_by_desc_sorted (fun r : Group * CampYear => g_id (fst r))).
  - intros g Hg. apply in_map_iff in Hg. destruct Hg as ([g0 c] & <- & Hr).
    apply (Permutation_in _ (order_by_desc_perm _ _)) in Hr. simpl.
    destruct camp_year as [y|].
    + apply filter_In in Hr. destruct Hr as [Hr Ey]. simpl in Ey. apply Z.eqb_eq in Ey.
      apply join_In in Hr. destruct Hr as (Hg0 & Hc & Hon). apply Z.eqb_eq in Hon.
      split; [assumption|]. intros y' E. inversion E; subst y'. now exists c.
    + apply join_In in Hr. destruct Hr as (Hg0 & _ & _).
      split; [assumption | discriminate].
  - intros Hwf ->.
    rewrite order_by_desc_perm, join_total; [reflexivity|].
    intros g Hg. destruct (fk_groups_camp_year _ Hwf g Hg) as (c & Hc & Ec).
    exists c. rewrite <- Ec.
    apply filter_id_unique; [apply (pk_camp_years _ Hwf) | assumption].
Qed.

Lemma admin_list_groups_witness :
  admin_list_groups None family_db = (Ok [hawks; otters], family_db)
  /\ admin_list_groups (Some 2027) family_db = (Ok [], family_db)
  /\ Permutation [hawks; otters] (rows (groups family_store)).
Proof.
  destruct (admin_list_groups_contract None family_db) as (l & Hl & _ & _ & Hperm).
  assert (E : l = [hawks; otters]) by (inversion Hl; reflexivity). subst l.
  refine (conj Hl (conj eq_refl _)).
  apply (Hperm family_store_wf eq_refl).
Defined.

(** X26: a group created by [admin_create_group] carries the requested name
    and description and belongs to the camp year of the requested number
    (created on the way if it was missing); right after, the group is
    listed, without filter and under its year, and can receive events:
    [admin_create_event] on it does not answer 404. *)
Theorem created_group_is_listed_and_usable :
  forall payload db g db',
    admin_create_group payload db = (Ok g, db') ->
    g_name g = gc_name payload /\ g_description g = gc_description payload
    /\ (exists cyr, In cyr (rows (camp_years (store db')))
                    /\ cy_year cyr = gc_camp_year payload
                    /\ g_camp_year_id g = cy_id cyr)
    /\ (forall camp_year,
          camp_year = None \/ camp_year = Some (gc_camp_year payload) ->
          exists l, admin_list_groups camp_year db' = (Ok l, db') /\ In g l)
    /\ (forall ev_payload, gec_group_id ev_payload = g_id g ->
          ~ NotFound (fst (admin_create_event ev_payload db'))).
Proof.
  intros payload db g db' H.
  unfold admin_create_group, bind in H.
  destruct (get_or_create_camp_year _ db) as [[cyr|e1] db1] eqn:E1; [|discriminate].
  apply get_or_create_camp_year_first in E1. destruct E1 as [Hfirst _].
  apply first_filter_sound in Hfirst. destruct Hfirst as [Hcy Ey]. apply Z.eqb_eq in Ey.
  unfold add_group in H. apply add_commit_refresh_inv in H.
  destruct H as (Eg & _ & Hs).
  assert (Hg : In g (rows (groups (store db')))) by (rewrite Hs; simpl; apply in_snoc).
  assert (Hcy' : In cyr (rows (camp_years (store db')))) by (rewrite Hs; exact Hcy).
  assert (Ecy : g_camp_year_id g = cy_id cyr) by (rewrite Eg; reflexivity).
  split; [rewrite Eg; reflexivity|]. split; [rewrite Eg; reflexivity|].
  split; [now exists cyr|]. split.
  - intros camp_year Hfilter. eexists. split; [apply admin_list_groups_run|].
    apply in_map_iff. exists (g, cyr). split; [reflexivity|].
    apply (Permutation_in _ (Permutation_sym (order_by_desc_perm _ _))).
    assert (Hj : In (g, cyr) (join (fun g c => cy_id c =? g_camp_year_id g)
                                   (rows (groups (store db')))
                                   (rows (camp_years (store db')))))
      by (apply join_In_intro; [assumption | assumption | now apply Z.eqb_eq]).
    destruct Hfilter as [-> | ->]; [exact Hj|].
    apply filter_In. split; [exact Hj | now apply Z.eqb_eq].
  - intros ev_payload Eid [detail Hnf].
    rewrite (admin_create_event_group ev_payload db' g Hg (eq_sym Eid)) in Hnf.
    destruct (datetime_leb _ _) as [[|]|]; unfold raise in Hnf; simpl in Hnf;
      try discriminate.
    unfold add_group_event in Hnf.
    destruct (fits 255 _ && fits_opt 255 _).
    + unfold add_commit_refresh, commit, query, bind, ret in Hnf. simpl in Hnf.
      destruct (faults db') as [|[|] fs]; simpl in Hnf; try discriminate;
        destruct (group_event_violated _ (store db')); simpl in Hnf; discriminate.
    + unfold refused in Hnf.
      destruct (faults db') as [|[|] fs]; simpl in Hnf; discriminate.
Qed.

Lemma created_group_witness :
  exists db',
    admin_create_group (mkGroupCreate 2027 "Foxes" None) family_db
    = (Ok (mkGroup 3 2 "Foxes" None), db')
    /\ (exists l, admin_list_groups (Some 2027) db' = (Ok l, db')
                  /\ In (mkGroup 3 2 "Foxes" None) l)
    /\ rows (camp_years (store db')) = [year_2026; mkCampYear 2 2027 false].
Proof.
  exists (snd (admin_create_group (mkGroupCreate 2027 "Foxes" None) family_db)).
  assert (H : admin_create_group (mkGroupCreate 2027 "Foxes" None) family_db
              = (Ok (mkGroup 3 2 "Foxes" None),
                 snd (admin_create_group (mkGroupCreate 2027 "Foxes" None) family_db)))
    by reflexivity.
  destruct (created_group_is_listed_and_usable _ _ _ _ H) as (_ & _ & _ & Hlist & _).
  refine (conj H (conj (Hlist (Some 2027) (or_intror eq_refl)) eq_refl)).
Defined.
